(** * Huffman codec: a shallow embedding of [huffman.ts] and its properties

    The development follows the source file top to bottom: the JavaScript
    values the codec manipulates (strings of UTF-16 code units, plain
    objects used as ordered maps, typed arrays), the [MinHeap] class, the
    tree builder, the code generator, the bit packer and unpacker and the
    container framing.  Definitions come first, lemmas and theorems after.

    Conventions.  A JavaScript string is the list of its code units.
    Every number the codec handles is an integer (a count, a frequency, a
    byte, an index or a length) and is a [Z] or a [nat]; the one fraction,
    [compressionRatio], is a [Q].  [null] and [undefined] are [None].  A
    function that can throw returns a [Result].  The module variable
    [nodeIdCounter] is passed in and out of the functions that use it.  A
    [while] loop is a recursion on a number of turns, with a lemma that
    the number its caller passes is enough.  What belongs to the host
    ([TextEncoder], [TextDecoder], [JSON]) is a parameter of the codec
    (class [Host]), of which [ReferenceHost] is an executable instance. *)

From Stdlib Require Import ZArith Lia QArith Sorted.
From stdpp Require Import base list strings.
Close Scope Q_scope.
Open Scope Z_scope.

(* ================================================================== *)
(** * Part I: definitions                                              *)
(* ================================================================== *)

(** ** JavaScript strings

    A JavaScript string is a sequence of UTF-16 code units.  Bit strings
    (['0'] and ['1'] characters) and node identifiers are strings too. *)

Abbreviation jsstring := (list Z).

(** An ASCII literal as a JavaScript string. *)
Definition js (s : string) : jsstring :=
  (λ a, Z.of_N (Ascii.N_of_ascii a)) <$> String.list_ascii_of_string s.

Definition isHighSurrogate (u : Z) : bool := (0xD800 <=? u) && (u <=? 0xDBFF).
Definition isLowSurrogate (u : Z) : bool := (0xDC00 <=? u) && (u <=? 0xDFFF).

(** [for (const char of text)]: the string iterator yields code points, a
    surrogate pair as one two-unit string and every other unit, a lone
    surrogate included, on its own. *)
Fixpoint codePoints (s : jsstring) : list jsstring :=
  match s with
  | [] => []
  | u :: rest =>
    match rest with
    | v :: rest' =>
      if isHighSurrogate u && isLowSurrogate v
      then [u; v] :: codePoints rest'
      else [u] :: codePoints rest
    | [] => [[u]]
    end
  end.

(** [String.prototype.slice(start, end)] for [0 <= start <= end]. *)
Definition slice (s : jsstring) (start end_ : nat) : jsstring :=
  take (end_ - start) (drop start s).

(** [s.slice(0, -n)] for [n > 0]: all but the last [n] units. *)
Definition sliceDropLast (s : jsstring) (n : Z) : jsstring :=
  take (Z.to_nat (Z.max (Z.of_nat (length s) - n) 0)) s.

(** [s.padEnd(target, '0')] and [s.padStart(target, '0')]. *)
Definition padEnd0 (s : jsstring) (target : nat) : jsstring :=
  s ++ replicate (target - length s) 48.
Definition padStart0 (s : jsstring) (target : nat) : jsstring :=
  replicate (target - length s) 48 ++ s.

(** Digits of a positive number in base two, most significant first. *)
Fixpoint binaryDigits (p : positive) (acc : jsstring) : jsstring :=
  match p with
  | xH => 49 :: acc
  | xO p' => binaryDigits p' (48 :: acc)
  | xI p' => binaryDigits p' (49 :: acc)
  end.

(** [n.toString(2)] for an integer [n]. *)
Definition Number_toString2 (n : Z) : jsstring :=
  match n with
  | Z0 => [48]
  | Zpos p => binaryDigits p []
  | Zneg p => 45 :: binaryDigits p []
  end.

(** Decimal digits of a non-negative integer, most significant first. *)
Fixpoint decimalDigits (fuel : nat) (n : Z) (acc : jsstring) : jsstring :=
  match fuel with
  | O => acc
  | S fuel' =>
    let acc' := (48 + n mod 10) :: acc in
    if n <? 10 then acc' else decimalDigits fuel' (n / 10) acc'
  end.

(** [String(n)] for an integer [n] below 10^21 in absolute value, where
    JavaScript prints all digits. *)
Definition Number_toString (n : Z) : jsstring :=
  if n <? 0 then 45 :: decimalDigits (S (Z.to_nat (Z.log2 (- n)))) (- n) []
  else decimalDigits (S (Z.to_nat (Z.log2 n))) n [].

(** [parseInt(s, 2)] on a string without leading white space or sign: the
    value of the longest prefix of binary digits, [None] (NaN) when that
    prefix is empty. *)
Fixpoint parseBinaryPrefix (s : jsstring) (acc : option Z) : option Z :=
  match s with
  | [] => acc
  | u :: rest =>
    if (u =? 48) || (u =? 49)
    then parseBinaryPrefix rest (Some (2 * default 0 acc + (u - 48)))
    else acc
  end.
Definition parseInt2 (s : jsstring) : option Z := parseBinaryPrefix s None.

(** Storing a number into a [Uint8Array] slot: NaN becomes 0, an integer
    wraps modulo 256. *)
Definition ToUint8 (v : option Z) : Z :=
  match v with
  | None => 0
  | Some n => n mod 256
  end.

(** ** Plain objects used as maps

    [FrequencyMap] and [CodeMap] are plain objects indexed by strings.
    Their observable state is the list of own properties in the order
    [Object.keys] and [JSON.stringify] enumerate them: keys that are
    canonical array indices first, in ascending numeric order, then the
    other keys in the order they were created.  The list is kept in that
    order, so two objects are equal exactly when they enumerate alike. *)

Abbreviation JSObject V := (list (jsstring * V)).

Definition isDigit (u : Z) : bool := (48 <=? u) && (u <=? 57).

Definition digitsValue (s : jsstring) : Z :=
  fold_left (λ acc u, 10 * acc + (u - 48)) s 0.

(** The array index a key denotes, if it is the canonical decimal form of
    an integer in [0, 2^32 - 2]. *)
Definition arrayIndex (k : jsstring) : option Z :=
  match k with
  | [] => None
  | u :: rest =>
    if forallb isDigit k && (negb (u =? 48) || bool_decide (rest = []))
       && (length k <=? 10)%nat && (digitsValue k <=? 4294967294)
    then Some (digitsValue k)
    else None
  end.

Definition Object_keys {V} (o : JSObject V) : list jsstring := o.*1.

Fixpoint obj_get {V} (k : jsstring) (o : JSObject V) : option V :=
  match o with
  | [] => None
  | (k', v) :: o' => if bool_decide (k = k') then Some v else obj_get k o'
  end.

Definition obj_has {V} (k : jsstring) (o : JSObject V) : bool :=
  bool_decide (k ∈ Object_keys o).

(** Overwriting an existing property keeps its place. *)
Fixpoint obj_update {V} (k : jsstring) (v : V) (o : JSObject V) : JSObject V :=
  match o with
  | [] => []
  | (k', v') :: o' =>
    if bool_decide (k = k') then (k', v) :: o' else (k', v') :: obj_update k v o'
  end.

(** A new array-index key goes after the smaller array-index keys. *)
Fixpoint obj_insertIndex {V} (n : Z) (k : jsstring) (v : V) (o : JSObject V)
  : JSObject V :=
  match o with
  | [] => [(k, v)]
  | (k', v') :: o' =>
    match arrayIndex k' with
    | Some n' =>
      if n' <? n then (k', v') :: obj_insertIndex n k v o' else (k, v) :: o
    | None => (k, v) :: o
    end
  end.

(** Creating or overwriting the own property [k] (CreateDataProperty). *)
Definition obj_define {V} (k : jsstring) (v : V) (o : JSObject V) : JSObject V :=
  if obj_has k o then obj_update k v o
  else match arrayIndex k with
       | Some n => obj_insertIndex n k v o
       | None => o ++ [(k, v)]
       end.

(** The assignment [o[k] = v] of a string or number [v] on an object
    created by [{}].  The one key it cannot create is ["__proto__"]: the
    inherited setter receives the value and ignores a primitive. *)
Definition obj_set {V} (k : jsstring) (v : V) (o : JSObject V) : JSObject V :=
  if bool_decide (k = js "__proto__") && negb (obj_has k o) then o
  else obj_define k v o.

(** ** Errors

    Exceptions that the modelled code can raise.  A function that may throw
    returns a [Result]. *)

Inductive JSError : Type := TypeError | RangeError | SyntaxError.

Inductive Result (A : Type) : Type :=
  | Ok (a : A)
  | Throw (e : JSError).
Arguments Ok {A} a.
Arguments Throw {A} e.

(** ** The data model of [huffman.ts] *)

Scheme All for option.

(** [interface HuffmanNode]; [null] is [None]. *)
Inductive HuffmanNode : Type := mkHuffmanNode {
  char : option jsstring;
  freq : Z;
  left : option HuffmanNode;
  right : option HuffmanNode;
  id : jsstring }.

Abbreviation FrequencyMap := (JSObject Z).
Abbreviation CodeMap := (JSObject jsstring).

(** [interface CompressionResult].  [compressionRatio] is the exact
    rational the source's floating-point expression approximates. *)
Record CompressionResult : Type := mkCompressionResult {
  compressedData : list Z;
  codeMap : CodeMap;
  originalSize : Z;
  compressedSize : Z;
  compressionRatio : Q;
  tree : option HuffmanNode;
  frequencyMap : FrequencyMap;
  paddingBits : Z }.

(** [interface DecompressionResult]; the optional [error] is [None] when
    the property is absent. *)
Record DecompressionResult : Type := mkDecompressionResult {
  decompressedText : jsstring;
  success : bool;
  error : option jsstring }.

(** ** [class MinHeap]

    The private array [heap] is the whole state of the object; every
    method takes it and returns the updated array. *)

Module MinHeap.

(** [this.heap[i].freq].  Every read below is at an index smaller than
    the length of the array. *)
Definition freqAt (heap : list HuffmanNode) (i : nat) : Z :=
  from_option freq 0 (heap !! i).

(** [[heap[i], heap[j]] = [heap[j], heap[i]]]: [heap[i]] is assigned
    first, then [heap[j]].  The loops only swap indices below the
    length. *)
Definition swap (heap : list HuffmanNode) (i j : nat) : list HuffmanNode :=
  match heap !! i, heap !! j with
  | Some a, Some b => <[j := a]> (<[i := b]> heap)
  | _, _ => heap
  end.

(** The [while (index > 0)] loop of [bubbleUp]; [index] decreases at
    every turn, so [index] turns are enough. *)
Fixpoint bubbleUp_loop (fuel : nat) (heap : list HuffmanNode) (index : nat)
  : list HuffmanNode :=
  match fuel with
  | O => heap
  | S fuel' =>
    if (0 <? index)%nat then
      let parentIndex := ((index - 1) / 2)%nat in
      if freqAt heap parentIndex <=? freqAt heap index then heap
      else bubbleUp_loop fuel' (swap heap parentIndex index) parentIndex
    else heap
  end.

Definition bubbleUp (heap : list HuffmanNode) (index : nat) : list HuffmanNode :=
  bubbleUp_loop index heap index.

(** The [while (true)] loop of [bubbleDown]; [index] increases at every
    turn and stays below the length. *)
Fixpoint bubbleDown_loop (fuel : nat) (heap : list HuffmanNode) (index : nat)
  : list HuffmanNode :=
  match fuel with
  | O => heap
  | S fuel' =>
    let length := length heap in
    let leftChild := (2 * index + 1)%nat in
    let rightChild := (2 * index + 2)%nat in
    let smallest := index in
    let smallest :=
      if (leftChild <? length)%nat && (freqAt heap leftChild <? freqAt heap smallest)
      then leftChild else smallest in
    let smallest :=
      if (rightChild <? length)%nat && (freqAt heap rightChild <? freqAt heap smallest)
      then rightChild else smallest in
    if (smallest =? index)%nat then heap
    else bubbleDown_loop fuel' (swap heap smallest index) smallest
  end.

Definition bubbleDown (heap : list HuffmanNode) (index : nat) : list HuffmanNode :=
  bubbleDown_loop (length heap) heap index.

Definition insert (heap : list HuffmanNode) (node : HuffmanNode)
  : list HuffmanNode :=
  let heap := heap ++ [node] in
  bubbleUp heap (length heap - 1).

(** [Array.prototype.pop]. *)
Definition pop (heap : list HuffmanNode) : option HuffmanNode * list HuffmanNode :=
  (last heap, removelast heap).

Definition extractMin (heap : list HuffmanNode)
  : option HuffmanNode * list HuffmanNode :=
  if (length heap =? 0)%nat then (None, heap)
  else if (length heap =? 1)%nat then pop heap
  else
    let min := heap !! 0%nat in
    let (last, heap) := pop heap in
    let heap := from_option (λ x, <[0%nat := x]> heap) heap last in
    (min, bubbleDown heap 0).

Definition size (heap : list HuffmanNode) : nat := length heap.

End MinHeap.

(** ** Node identifiers

    [nodeIdCounter] is a module-level variable; the functions that read or
    write it take its value and return the new one. *)

Definition generateNodeId (nodeIdCounter : Z) : jsstring * Z :=
  (js "node_" ++ Number_toString nodeIdCounter, nodeIdCounter + 1).

(** ** Step 1: character frequencies *)

Definition calculateFrequencies (text : jsstring) : FrequencyMap :=
  fold_left
    (λ frequencies char,
       let old := default 0 (obj_get char frequencies) in
       obj_set char (old + 1) frequencies)
    (codePoints text) [].

(** ** Step 2: the Huffman tree *)

(** The loop creating one leaf per key. *)
Fixpoint insertLeaves (frequencies : FrequencyMap) (chars : list jsstring)
    (heap : list HuffmanNode) (nodeIdCounter : Z) : list HuffmanNode * Z :=
  match chars with
  | [] => (heap, nodeIdCounter)
  | char :: chars' =>
    let (newId, nodeIdCounter) := generateNodeId nodeIdCounter in
    let heap :=
      MinHeap.insert heap
        {| char := Some char;
           freq := default 0 (obj_get char frequencies);
           left := None;
           right := None;
           id := newId |} in
    insertLeaves frequencies chars' heap nodeIdCounter
  end.

(** The loop [while (heap.size() > 1)]; each turn shrinks the heap by one
    node.  Reading [freq] of a [null] extraction is a [TypeError]. *)
Fixpoint mergeLoop (fuel : nat) (heap : list HuffmanNode) (nodeIdCounter : Z)
  : Result (list HuffmanNode * Z) :=
  match fuel with
  | O => Ok (heap, nodeIdCounter)
  | S fuel' =>
    if (1 <? MinHeap.size heap)%nat then
      let (l, heap) := MinHeap.extractMin heap in
      let (r, heap) := MinHeap.extractMin heap in
      match l, r with
      | Some l, Some r =>
        let (newId, nodeIdCounter) := generateNodeId nodeIdCounter in
        let parent :=
          {| char := None;
             freq := freq l + freq r;
             left := Some l;
             right := Some r;
             id := newId |} in
        mergeLoop fuel' (MinHeap.insert heap parent) nodeIdCounter
      | _, _ => Throw TypeError
      end
    else Ok (heap, nodeIdCounter)
  end.

Definition buildHuffmanTree (frequencies : FrequencyMap) (nodeIdCounter : Z)
  : Result (option HuffmanNode * Z) :=
  let nodeIdCounter := 0 in
  let chars := Object_keys frequencies in
  if (length chars =? 0)%nat then Ok (None, nodeIdCounter)
  else
    let (heap, nodeIdCounter) := insertLeaves frequencies chars [] nodeIdCounter in
    if (MinHeap.size heap =? 1)%nat then
      match MinHeap.extractMin heap with
      | (Some node, _) =>
        let (newId, nodeIdCounter) := generateNodeId nodeIdCounter in
        Ok (Some {| char := None;
                    freq := freq node;
                    left := Some node;
                    right := None;
                    id := newId |}, nodeIdCounter)
      | (None, _) => Throw TypeError
      end
    else
      match mergeLoop (MinHeap.size heap) heap nodeIdCounter with
      | Ok (heap, nodeIdCounter) => Ok (fst (MinHeap.extractMin heap), nodeIdCounter)
      | Throw e => Throw e
      end.

(** ** Step 3: the code table *)

(** The inner function [traverse]; the object [codes] it writes to is
    passed in and returned.  [code || '0'] replaces the empty string. *)
Fixpoint traverse (node : HuffmanNode) (code : jsstring) (codes : CodeMap)
  : CodeMap :=
  match char node with
  | Some c => obj_set c (if bool_decide (code = []) then js "0" else code) codes
  | None =>
    let codes :=
      match left node with
      | Some l => traverse l (code ++ js "0") codes
      | None => codes
      end in
    match right node with
    | Some r => traverse r (code ++ js "1") codes
    | None => codes
    end
  end.

Definition generateCodes (tree : option HuffmanNode) : CodeMap :=
  match tree with
  | None => []
  | Some tree => traverse tree [] []
  end.

(** ** The host: text encoding and JSON

    [TextEncoder], [TextDecoder] and [JSON] belong to the JavaScript host,
    not to [huffman.ts].  The codec is stated over any host; [JSValue] is
    the fragment of JavaScript values that JSON text denotes, numbers being
    integers as in the metadata record. *)

Inductive JSValue : Type :=
  | JNull
  | JBool (b : bool)
  | JNumber (n : Z)
  | JString (s : jsstring)
  | JArray (items : list JSValue)
  | JObject (props : list (jsstring * JSValue)).

Class Host : Type := {
  TextEncoder_encode : jsstring → list Z;
  TextDecoder_decode : list Z → jsstring;
  JSON_stringify : JSValue → jsstring;
  JSON_parse : jsstring → Result JSValue }.

(** A property read [v.k] on a parsed JSON value: a [TypeError] on [null],
    the own property of an object, [undefined] ([None]) otherwise. *)
Definition getProperty (v : JSValue) (k : jsstring) : Result (option JSValue) :=
  match v with
  | JNull => Throw TypeError
  | JObject props => Ok (obj_get k props)
  | _ => Ok None
  end.

Definition CodeMap_toJS (m : CodeMap) : JSValue :=
  JObject ((λ kv, (kv.1, JString kv.2)) <$> m).
Definition FrequencyMap_toJS (m : FrequencyMap) : JSValue :=
  JObject ((λ kv, (kv.1, JNumber kv.2)) <$> m).

(** ** Step 4: compression *)

(** The loop [binaryString += codeMap[char]]; appending [undefined] would
    append the word. *)
Definition encodeText (codeMap : CodeMap) (text : jsstring) : jsstring :=
  fold_left
    (λ binaryString char,
       binaryString ++ default (js "undefined") (obj_get char codeMap))
    (codePoints text) [].

(** The loop filling [byteArray]. *)
Definition packBytes (binaryString : jsstring) : list Z :=
  (λ i, ToUint8 (parseInt2 (slice binaryString (i * 8) ((i + 1) * 8))))
    <$> seq 0 (length binaryString / 8).

Definition compress `{Host} (text : jsstring) (nodeIdCounter : Z)
  : Result (CompressionResult * Z) :=
  if bool_decide (text = []) then
    Ok ({| compressedData := [];
           codeMap := [];
           originalSize := 0;
           compressedSize := 0;
           compressionRatio := 0%Q;
           tree := None;
           frequencyMap := [];
           paddingBits := 0 |}, nodeIdCounter)
  else
    let originalSize := Z.of_nat (length (TextEncoder_encode text)) in
    let frequencyMap := calculateFrequencies text in
    match buildHuffmanTree frequencyMap nodeIdCounter with
    | Throw e => Throw e
    | Ok (tree, nodeIdCounter) =>
      let codeMap := generateCodes tree in
      let binaryString := encodeText codeMap text in
      let paddingBits := (8 - Z.of_nat (length binaryString) mod 8) mod 8 in
      let binaryString :=
        padEnd0 binaryString (length binaryString + Z.to_nat paddingBits) in
      let byteArray := packBytes binaryString in
      let compressedSize := Z.of_nat (length byteArray) in
      let compressionRatio :=
        if 0 <? originalSize
        then (inject_Z (originalSize - compressedSize) / inject_Z originalSize
              * inject_Z 100)%Q
        else 0%Q in
      Ok ({| compressedData := byteArray;
             codeMap := codeMap;
             originalSize := originalSize;
             compressedSize := compressedSize;
             compressionRatio := compressionRatio;
             tree := tree;
             frequencyMap := frequencyMap;
             paddingBits := paddingBits |}, nodeIdCounter)
    end.

(** ** Step 5: decompression *)

(** [currentNode.left && !currentNode.right && currentNode.left.char !== null] *)
Definition isSingleCharacterRoot (currentNode : HuffmanNode) : option jsstring :=
  match left currentNode, right currentNode with
  | Some l, None => char l
  | _, _ => None
  end.

(** One turn of [for (const bit of binaryString)] on the pair
    [(currentNode, result)].  Reading [char] of a [null] child is a
    [TypeError]. *)
Definition decodeStep (tree : HuffmanNode) (state : HuffmanNode * jsstring)
    (bit : jsstring) : Result (HuffmanNode * jsstring) :=
  let (currentNode, result) := state in
  match isSingleCharacterRoot currentNode with
  | Some c => Ok (currentNode, result ++ c)
  | None =>
    match (if bool_decide (bit = js "0") then left currentNode
           else right currentNode) with
    | None => Throw TypeError
    | Some currentNode =>
      match char currentNode with
      | Some c => Ok (tree, result ++ c)
      | None => Ok (currentNode, result)
      end
    end
  end.

Fixpoint decodeLoop (tree : HuffmanNode) (bits : list jsstring)
    (state : HuffmanNode * jsstring) : Result (HuffmanNode * jsstring) :=
  match bits with
  | [] => Ok state
  | bit :: bits' =>
    match decodeStep tree state bit with
    | Ok state' => decodeLoop tree bits' state'
    | Throw e => Throw e
    end
  end.

(** The loop [binaryString += byte.toString(2).padStart(8, '0')]. *)
Definition unpackBytes (compressedData : list Z) : jsstring :=
  fold_left (λ binaryString byte,
               binaryString ++ padStart0 (Number_toString2 byte) 8)
            compressedData [].

Definition decompress (compressedData : list Z) (tree : option HuffmanNode)
    (paddingBits : Z) : Result DecompressionResult :=
  match tree with
  | None => Ok {| decompressedText := []; success := true; error := None |}
  | Some tree =>
    if (length compressedData =? 0)%nat
    then Ok {| decompressedText := []; success := true; error := None |}
    else
      let binaryString := unpackBytes compressedData in
      let binaryString :=
        if 0 <? paddingBits then sliceDropLast binaryString paddingBits
        else binaryString in
      match decodeLoop tree (codePoints binaryString) (tree, []) with
      | Ok (_, result) =>
        Ok {| decompressedText := result; success := true; error := None |}
      | Throw e => Throw e
      end
  end.

(** ** The container

    Layout: four bytes of metadata length, the metadata, the payload. *)

(** The bytes of [new Uint32Array([n]).buffer] on a little-endian host. *)
Definition Uint32_bytes (n : Z) : list Z :=
  let n := n mod 2 ^ 32 in
  [n mod 256; (n / 2 ^ 8) mod 256; (n / 2 ^ 16) mod 256; (n / 2 ^ 24) mod 256].

(** [view.getUint32(0, true)]: a [RangeError] on fewer than four bytes. *)
Definition getUint32_0_le (data : list Z) : Result Z :=
  match data with
  | b0 :: b1 :: b2 :: b3 :: _ => Ok (b0 + 2 ^ 8 * b1 + 2 ^ 16 * b2 + 2 ^ 24 * b3)
  | _ => Throw RangeError
  end.

(** [new Uint8Array(data, byteOffset, length)]: a [RangeError] when the
    view would reach past the end of the buffer. *)
Definition Uint8Array_view (data : list Z) (byteOffset : nat) (len : option nat)
  : Result (list Z) :=
  match len with
  | Some n =>
    if (length data <? byteOffset + n)%nat then Throw RangeError
    else Ok (take n (drop byteOffset data))
  | None =>
    if (length data <? byteOffset)%nat then Throw RangeError
    else Ok (drop byteOffset data)
  end.

(** The object literal [metadata] of [createCompressedFile]. *)
Definition metadataOf (result : CompressionResult) : JSValue :=
  JObject [ (js "codeMap", CodeMap_toJS (codeMap result));
            (js "paddingBits", JNumber (paddingBits result));
            (js "frequencyMap", FrequencyMap_toJS (frequencyMap result)) ].

(** The bytes of the blob [createCompressedFile] returns: the three
    [output.set] calls fill adjacent ranges that cover [output]. *)
Definition createCompressedFile `{Host} (result : CompressionResult) : list Z :=
  let metadataString := JSON_stringify (metadataOf result) in
  let metadataBytes := TextEncoder_encode metadataString in
  Uint32_bytes (Z.of_nat (length metadataBytes))
    ++ metadataBytes ++ compressedData result.

Module Parsed.
(** The object [parseCompressedFile] returns.  The three metadata fields
    hold whatever the JSON text gave, [None] being [undefined]. *)
Record t : Type := mk {
  compressedData : list Z;
  codeMap : option JSValue;
  paddingBits : option JSValue;
  frequencyMap : option JSValue }.
End Parsed.

(** The body of the [try] block. *)
Definition parseCompressedFile_try `{Host} (data : list Z) : Result Parsed.t :=
  match getUint32_0_le data with
  | Throw e => Throw e
  | Ok metadataLength =>
    match Uint8Array_view data 4 (Some (Z.to_nat metadataLength)) with
    | Throw e => Throw e
    | Ok metadataBytes =>
      let metadataString := TextDecoder_decode metadataBytes in
      match JSON_parse metadataString with
      | Throw e => Throw e
      | Ok metadata =>
        match Uint8Array_view data (4 + Z.to_nat metadataLength) None with
        | Throw e => Throw e
        | Ok compressedData =>
          match getProperty metadata (js "codeMap"),
                getProperty metadata (js "paddingBits"),
                getProperty metadata (js "frequencyMap") with
          | Ok c, Ok p, Ok f =>
            Ok {| Parsed.compressedData := compressedData;
                  Parsed.codeMap := c;
                  Parsed.paddingBits := p;
                  Parsed.frequencyMap := f |}
          | _, _, _ => Throw TypeError
          end
        end
      end
    end
  end.

(** [try { ... } catch { return null; }] *)
Definition parseCompressedFile `{Host} (data : list Z) : option Parsed.t :=
  match parseCompressedFile_try data with
  | Ok parsed => Some parsed
  | Throw _ => None
  end.

(** ** A reference host

    An executable host on which the codec can be run end to end: the UTF-8
    encoder and decoder of the Encoding standard, and the JSON text of
    ECMAScript for the values of [JSValue]. *)

Module ReferenceHost.

(** The scalar value a code point of a string encodes to: a surrogate
    pair combined, a lone surrogate replaced by U+FFFD. *)
Definition scalarValue (cp : jsstring) : Z :=
  match cp with
  | [u] => if isHighSurrogate u || isLowSurrogate u then 0xFFFD else u
  | [u; v] => 0x10000 + (u - 0xD800) * 0x400 + (v - 0xDC00)
  | _ => 0xFFFD
  end.

Definition utf8Bytes (c : Z) : list Z :=
  if c <? 0x80 then [c]
  else if c <? 0x800 then [0xC0 + c / 0x40; 0x80 + c mod 0x40]
  else if c <? 0x10000 then
    [0xE0 + c / 0x1000; 0x80 + (c / 0x40) mod 0x40; 0x80 + c mod 0x40]
  else
    [0xF0 + c / 0x40000; 0x80 + (c / 0x1000) mod 0x40;
     0x80 + (c / 0x40) mod 0x40; 0x80 + c mod 0x40].

Definition encode (s : jsstring) : list Z :=
  flat_map (λ cp, utf8Bytes (scalarValue cp)) (codePoints s).

(** The UTF-16 units of a scalar value. *)
Definition utf16Units (c : Z) : jsstring :=
  if c <? 0x10000 then [c]
  else [0xD800 + (c - 0x10000) / 0x400; 0xDC00 + (c - 0x10000) mod 0x400].

(** The state of the UTF-8 decoder. *)
Record DecoderState : Type := mkDecoderState {
  codePoint : Z;
  bytesSeen : Z;
  bytesNeeded : Z;
  lowerBoundary : Z;
  upperBoundary : Z }.

Definition initialState : DecoderState :=
  {| codePoint := 0; bytesSeen := 0; bytesNeeded := 0;
     lowerBoundary := 0x80; upperBoundary := 0xBF |}.

(** The decoder's handler on a byte when no byte is pending: the new
    state and the code point emitted, if any. *)
Definition leadByte (b : Z) : DecoderState * option Z :=
  if (0 <=? b) && (b <=? 0x7F) then (initialState, Some b)
  else if (0xC2 <=? b) && (b <=? 0xDF) then
    ({| codePoint := b mod 0x20; bytesSeen := 0; bytesNeeded := 1;
        lowerBoundary := 0x80; upperBoundary := 0xBF |}, None)
  else if (0xE0 <=? b) && (b <=? 0xEF) then
    ({| codePoint := b mod 0x10; bytesSeen := 0; bytesNeeded := 2;
        lowerBoundary := if b =? 0xE0 then 0xA0 else 0x80;
        upperBoundary := if b =? 0xED then 0x9F else 0xBF |}, None)
  else if (0xF0 <=? b) && (b <=? 0xF4) then
    ({| codePoint := b mod 0x08; bytesSeen := 0; bytesNeeded := 3;
        lowerBoundary := if b =? 0xF0 then 0x90 else 0x80;
        upperBoundary := if b =? 0xF4 then 0x8F else 0xBF |}, None)
  else (initialState, Some 0xFFFD).

(** The decoder run over the bytes; a byte that breaks a sequence emits
    U+FFFD and is handled again as a first byte. *)
Fixpoint decodeBytes (bytes : list Z) (st : DecoderState) : list Z :=
  match bytes with
  | [] => if bytesNeeded st =? 0 then [] else [0xFFFD]
  | b :: rest =>
    if bytesNeeded st =? 0 then
      let (st', out) := leadByte b in
      from_option (λ c, [c]) [] out ++ decodeBytes rest st'
    else if (lowerBoundary st <=? b) && (b <=? upperBoundary st) then
      let cp := codePoint st * 0x40 + b mod 0x40 in
      if bytesSeen st + 1 =? bytesNeeded st
      then cp :: decodeBytes rest initialState
      else decodeBytes rest
             {| codePoint := cp; bytesSeen := bytesSeen st + 1;
                bytesNeeded := bytesNeeded st;
                lowerBoundary := 0x80; upperBoundary := 0xBF |}
    else
      let (st', out) := leadByte b in
      0xFFFD :: from_option (λ c, [c]) [] out ++ decodeBytes rest st'
  end.

(** [new TextDecoder().decode(bytes)]: a leading byte order mark is
    dropped. *)
Definition decode (bytes : list Z) : jsstring :=
  let bytes :=
    match bytes with
    | 0xEF :: 0xBB :: 0xBF :: rest => rest
    | _ => bytes
    end in
  flat_map utf16Units (decodeBytes bytes initialState).

(** *** JSON.stringify *)

Definition hexDigit (d : Z) : Z := if d <? 10 then 48 + d else 87 + d.

(** [\uXXXX] with lower-case digits. *)
Definition unicodeEscape (c : Z) : jsstring :=
  js "\u" ++ [hexDigit (c / 0x1000 mod 0x10); hexDigit (c / 0x100 mod 0x10);
              hexDigit (c / 0x10 mod 0x10); hexDigit (c mod 0x10)].

Definition quoteCodePoint (cp : jsstring) : jsstring :=
  match cp with
  | [u] =>
    if u =? 8 then js "\b" else if u =? 9 then js "\t"
    else if u =? 10 then js "\n" else if u =? 12 then js "\f"
    else if u =? 13 then js "\r" else if u =? 34 then [92; 34]
    else if u =? 92 then js "\\"
    else if (u <? 0x20) || isHighSurrogate u || isLowSurrogate u
    then unicodeEscape u
    else cp
  | _ => cp
  end.

(** QuoteJSONString *)
Definition quoteJSONString (s : jsstring) : jsstring :=
  [34] ++ flat_map quoteCodePoint (codePoints s) ++ [34].

(** The texts of the items of an array or an object, with commas. *)
Fixpoint joinComma (items : list jsstring) : jsstring :=
  match items with
  | [] => []
  | [x] => x
  | x :: items' => x ++ js "," ++ joinComma items'
  end.

Fixpoint stringify (v : JSValue) : jsstring :=
  match v with
  | JNull => js "null"
  | JBool true => js "true"
  | JBool false => js "false"
  | JNumber n => Number_toString n
  | JString s => quoteJSONString s
  | JArray items => js "[" ++ joinComma (stringify <$> items) ++ js "]"
  | JObject props =>
    js "{"
    ++ joinComma
         ((λ kx, quoteJSONString kx.1 ++ js ":" ++ stringify kx.2) <$> props)
    ++ js "}"
  end.

(** *** JSON.parse *)

Definition isWhiteSpace (u : Z) : bool :=
  (u =? 9) || (u =? 10) || (u =? 13) || (u =? 32).

Fixpoint skipWhiteSpace (s : jsstring) : jsstring :=
  match s with
  | u :: rest => if isWhiteSpace u then skipWhiteSpace rest else s
  | [] => []
  end.

Definition hexValue (u : Z) : option Z :=
  if isDigit u then Some (u - 48)
  else if (97 <=? u) && (u <=? 102) then Some (u - 87)
  else if (65 <=? u) && (u <=? 70) then Some (u - 55)
  else None.

(** The characters of a string literal after the opening quote, up to
    and including the closing quote. *)
Fixpoint parseStringBody (s : jsstring) (acc : jsstring)
  : option (jsstring * jsstring) :=
  match s with
  | [] => None
  | u :: rest =>
    if u =? 34 then Some (acc, rest)
    else if u =? 92 then
      match rest with
      | e :: rest' =>
        if e =? 117 then
          match rest' with
          | h3 :: h2 :: h1 :: h0 :: rest'' =>
            match hexValue h3, hexValue h2, hexValue h1, hexValue h0 with
            | Some d3, Some d2, Some d1, Some d0 =>
              parseStringBody rest''
                (acc ++ [d3 * 0x1000 + d2 * 0x100 + d1 * 0x10 + d0])
            | _, _, _, _ => None
            end
          | _ => None
          end
        else
          let unescaped :=
            if e =? 34 then Some 34 else if e =? 47 then Some 47
            else if e =? 92 then Some 92 else if e =? 98 then Some 8
            else if e =? 102 then Some 12 else if e =? 110 then Some 10
            else if e =? 114 then Some 13 else if e =? 116 then Some 9
            else None in
          match unescaped with
          | Some c => parseStringBody rest' (acc ++ [c])
          | None => None
          end
      | [] => None
      end
    else if u <? 0x20 then None
    else parseStringBody rest (acc ++ [u])
  end.

Fixpoint parseDigits (s : jsstring) (acc : Z) : Z * jsstring :=
  match s with
  | u :: rest => if isDigit u then parseDigits rest (10 * acc + (u - 48))
                 else (acc, s)
  | [] => (acc, [])
  end.

(** An integer literal; a fraction or an exponent is outside [JSValue]
    and is refused. *)
Definition parseNumber (s : jsstring) : option (Z * jsstring) :=
  let (negative, s) :=
    match s with
    | 45 :: rest => (true, rest)
    | _ => (false, s)
    end in
  match s with
  | u :: rest =>
    if isDigit u then
      let (n, rest') := if u =? 48 then (0, rest) else parseDigits s 0 in
      match rest' with
      | c :: _ =>
        if (c =? 46) || (c =? 101) || (c =? 69) || isDigit c then None
        else Some (if negative then - n else n, rest')
      | [] => Some (if negative then - n else n, rest')
      end
    else None
  | [] => None
  end.

Definition expect (word : jsstring) (s : jsstring) : option jsstring :=
  if bool_decide (take (length word) s = word)
  then Some (drop (length word) s) else None.

(** A JSON value at the head of [s] and the text after it.  Members are
    added with CreateDataProperty, so a repeated key keeps its first
    place and its last value. *)
Fixpoint parseValue (fuel : nat) (s : jsstring) : option (JSValue * jsstring) :=
  match fuel with
  | O => None
  | S fuel' =>
    match skipWhiteSpace s with
    | [] => None
    | u :: rest =>
      if u =? 123 then
        match skipWhiteSpace rest with
        | 125 :: rest' => Some (JObject [], rest')
        | _ => parseMembers fuel' rest []
        end
      else if u =? 91 then
        match skipWhiteSpace rest with
        | 93 :: rest' => Some (JArray [], rest')
        | _ => parseElements fuel' rest []
        end
      else if u =? 34 then
        match parseStringBody rest [] with
        | Some (str, rest') => Some (JString str, rest')
        | None => None
        end
      else if u =? 116 then
        (λ r, (JBool true, r)) <$> expect (js "true") (u :: rest)
      else if u =? 102 then
        (λ r, (JBool false, r)) <$> expect (js "false") (u :: rest)
      else if u =? 110 then
        (λ r, (JNull, r)) <$> expect (js "null") (u :: rest)
      else
        match parseNumber (u :: rest) with
        | Some (n, rest') => Some (JNumber n, rest')
        | None => None
        end
    end
  end
with parseMembers (fuel : nat) (s : jsstring) (acc : list (jsstring * JSValue))
  : option (JSValue * jsstring) :=
  match fuel with
  | O => None
  | S fuel' =>
    match skipWhiteSpace s with
    | 34 :: rest =>
      match parseStringBody rest [] with
      | Some (k, rest) =>
        match skipWhiteSpace rest with
        | 58 :: rest =>
          match parseValue fuel' rest with
          | Some (v, rest) =>
            let acc := obj_define k v acc in
            match skipWhiteSpace rest with
            | 44 :: rest => parseMembers fuel' rest acc
            | 125 :: rest => Some (JObject acc, rest)
            | _ => None
            end
          | None => None
          end
        | _ => None
        end
      | None => None
      end
    | _ => None
    end
  end
with parseElements (fuel : nat) (s : jsstring) (acc : list JSValue)
  : option (JSValue * jsstring) :=
  match fuel with
  | O => None
  | S fuel' =>
    match parseValue fuel' s with
    | Some (v, rest) =>
      let acc := acc ++ [v] in
      match skipWhiteSpace rest with
      | 44 :: rest => parseElements fuel' rest acc
      | 93 :: rest => Some (JArray acc, rest)
      | _ => None
      end
    | None => None
    end
  end.

(** [JSON.parse(text)]: one value, white space around it, nothing else. *)
Definition parse (text : jsstring) : Result JSValue :=
  match parseValue (S (length text)) text with
  | Some (v, rest) =>
    match skipWhiteSpace rest with
    | [] => Ok v
    | _ => Throw SyntaxError
    end
  | None => Throw SyntaxError
  end.

#[export] Instance host : Host :=
  {| TextEncoder_encode := encode;
     TextDecoder_decode := decode;
     JSON_stringify := stringify;
     JSON_parse := parse |}.

End ReferenceHost.

(** The result of compressing ["aab"] on the reference host. *)
Definition aab_result : CompressionResult :=
  Eval vm_compute in
    match compress (H := ReferenceHost.host) (js "aab") 0 with
    | Ok (result, _) => result
    | Throw _ =>
      {| compressedData := []; codeMap := []; originalSize := 0;
         compressedSize := 0; compressionRatio := 0%Q; tree := None;
         frequencyMap := []; paddingBits := 0 |}
    end.

(** ** Vocabulary of the properties

    The notions the theorems are stated with. *)

(** The leaves below a node as [traverse] meets them, each with the code
    accumulated on the way down from [code]. *)
Fixpoint leafCodes (node : HuffmanNode) (code : jsstring)
  : list (jsstring * jsstring) :=
  match char node with
  | Some c => [(c, code)]
  | None =>
    match left node with
    | Some l => leafCodes l (code ++ js "0")
    | None => []
    end ++
    match right node with
    | Some r => leafCodes r (code ++ js "1")
    | None => []
    end
  end.

(** The order of the own keys of an object: an array index comes before
    every larger array index and before every other key. *)
Definition keyBefore (k1 k2 : jsstring) : Prop :=
  match arrayIndex k1, arrayIndex k2 with
  | Some a, Some b => a < b
  | None, Some _ => False
  | _, None => True
  end.

(** The lists that are the own properties of an object, in order. *)
Definition isObject {V} (o : JSObject V) : Prop :=
  NoDup (Object_keys o) ∧ StronglySorted keyBefore (Object_keys o).

(** A well-formed code point of a string: a surrogate pair, or one 16-bit
    unit that is not a surrogate. *)
Definition wellFormedCodePoint (cp : jsstring) : Prop :=
  match cp with
  | [u] => 0 ≤ u < 0x10000 ∧ isHighSurrogate u = false ∧ isLowSurrogate u = false
  | [u; v] => isHighSurrogate u = true ∧ isLowSurrogate v = true
  | _ => False
  end.

(** A well-formed string has no lone surrogate (a USVString). *)
Definition wellFormed (s : jsstring) : Prop :=
  Forall wellFormedCodePoint (codePoints s).

(** A string of 16-bit code units: any JavaScript string. *)
Definition isString16 (s : jsstring) : Prop := Forall (λ u, 0 ≤ u < 0x10000) s.

(** A code point of a string of 16-bit units: one unit, or a surrogate
    pair. *)
Definition isCodePoint16 (cp : jsstring) : Prop :=
  match cp with
  | [u] => 0 ≤ u < 0x10000
  | [u; v] => isHighSurrogate u = true ∧ isLowSurrogate v = true
  | _ => False
  end.

(** Well-formed text that stays so whatever follows it: it does not end
    in a high surrogate. *)
Definition closedText (s : jsstring) : Prop :=
  wellFormed s ∧ ∀ t, codePoints (s ++ t) = codePoints s ++ codePoints t.

(** What may follow a number in JSON text: the end, or a character that
    does not continue the literal. *)
Definition delimited (rest : jsstring) : Prop :=
  match rest with
  | [] => True
  | c :: _ => isDigit c = false ∧ c ≠ 46 ∧ c ≠ 101 ∧ c ≠ 69
  end.

(** The reference parser reads the text of [v] back, given [fuel0] turns
    or more. *)
Definition parsesWith (fuel0 : nat) (v : JSValue) : Prop :=
  ∀ fuel rest, (fuel0 ≤ fuel)%nat → delimited rest →
    ReferenceHost.parseValue fuel (ReferenceHost.stringify v ++ rest)
    = Some (v, rest).

(** The code [traverse] stores for an accumulated string: [code || '0']. *)
Definition storedCode (code : jsstring) : jsstring :=
  if bool_decide (code = []) then js "0" else code.

(** The assignments [traverse] makes for a list of leaves, in order. *)
Definition assignCodes (entries : list (jsstring * jsstring)) (codes : CodeMap)
  : CodeMap :=
  fold_left (λ codes cw, obj_set cw.1 (storedCode cw.2) codes) entries codes.

(** The symbols at the leaves below a node. *)
Definition leafChars (node : HuffmanNode) : list jsstring :=
  (leafCodes node []).*1.

(** A node is full when it is a leaf or has two full children. *)
Fixpoint full (node : HuffmanNode) : Prop :=
  match char node with
  | Some _ => True
  | None =>
    match left node, right node with
    | Some l, Some r => full l ∧ full r
    | _, _ => False
    end
  end.

(** The synthetic root of the one-symbol tree: no symbol, a leaf on the
    left, nothing on the right. *)
Definition singleLeafRoot (node : HuffmanNode) : Prop :=
  char node = None ∧ right node = None ∧
  ∃ l c, left node = Some l ∧ char l = Some c.

(** The shape of the trees the builder returns. *)
Definition builtShape (node : HuffmanNode) : Prop :=
  singleLeafRoot node ∨ (char node = None ∧ full node).

(** The index [bubbleDown] moves to from [index]: a child that is smaller
    than the node, the right one only if it is smaller than the left. *)
Definition smallestOf (heap : list HuffmanNode) (index : nat) : nat :=
  let smallest := index in
  let smallest :=
    if (2 * index + 1 <? length heap)%nat
       && (MinHeap.freqAt heap (2 * index + 1) <? MinHeap.freqAt heap smallest)
    then (2 * index + 1)%nat else smallest in
  if (2 * index + 2 <? length heap)%nat
     && (MinHeap.freqAt heap (2 * index + 2) <? MinHeap.freqAt heap smallest)
  then (2 * index + 2)%nat else smallest.

(** The heap property of the array: no node is smaller than its parent. *)
Definition heapOrdered (heap : list HuffmanNode) : Prop :=
  ∀ i, (0 < i < length heap)%nat →
       MinHeap.freqAt heap ((i - 1) / 2) ≤ MinHeap.freqAt heap i.

(** The heap property everywhere but between [index] and its parent, the
    parent of [index] being no larger than the children of [index]: the
    state of the array while [bubbleUp] runs. *)
Definition orderedButAbove (heap : list HuffmanNode) (index : nat) : Prop :=
  (∀ j, (0 < j < length heap)%nat → j ≠ index →
        MinHeap.freqAt heap ((j - 1) / 2) ≤ MinHeap.freqAt heap j) ∧
  (∀ c, (0 < index)%nat → (0 < c < length heap)%nat → ((c - 1) / 2)%nat = index →
        MinHeap.freqAt heap ((index - 1) / 2) ≤ MinHeap.freqAt heap c).

(** The heap property everywhere but between [index] and its children,
    the parent of [index] being no larger than those children: the state
    of the array while [bubbleDown] runs. *)
Definition orderedButBelow (heap : list HuffmanNode) (index : nat) : Prop :=
  (∀ j, (0 < j < length heap)%nat → ((j - 1) / 2)%nat ≠ index →
        MinHeap.freqAt heap ((j - 1) / 2) ≤ MinHeap.freqAt heap j) ∧
  (∀ c, (0 < index)%nat → (0 < c < length heap)%nat → ((c - 1) / 2)%nat = index →
        MinHeap.freqAt heap ((index - 1) / 2) ≤ MinHeap.freqAt heap c).

(** A use of the queue: a sequence of [insert] and [extractMin] calls on a
    new [MinHeap]. *)
Inductive HeapOp : Type :=
  | Insert (node : HuffmanNode)
  | ExtractMin.

Definition applyOp (heap : list HuffmanNode) (op : HeapOp) : list HuffmanNode :=
  match op with
  | Insert node => MinHeap.insert heap node
  | ExtractMin => (MinHeap.extractMin heap).2
  end.

Definition runOps (ops : list HeapOp) : list HuffmanNode :=
  fold_left applyOp ops [].

(** A bit string: only ['0'] and ['1']. *)
Definition isBitString (s : jsstring) : Prop := Forall (λ u, u = 48 ∨ u = 49) s.

(** The code table is prefix-free: the codes of two different symbols are
    never a prefix one of the other. *)
Definition prefixFree (codes : CodeMap) : Prop :=
  ∀ c1 c2 w1 w2,
    c1 ≠ c2 → obj_get c1 codes = Some w1 → obj_get c2 codes = Some w2 →
    ¬ w1 `prefix_of` w2.

(** ** Proof automation *)

(** Arithmetic on the parent index [(i - 1) / 2]. *)
Ltac parent_fact x :=
  lazymatch goal with
  | _ : (x - 1)%nat = (2 * ((x - 1) / 2) + (x - 1) mod 2)%nat |- _ => fail
  | _ =>
    pose proof (Nat.div_mod_eq (x - 1) 2);
    pose proof (Nat.mod_upper_bound (x - 1) 2 (Nat.neq_succ_0 1))
  end.

Ltac parent_lia :=
  repeat match goal with
         | |- context [((?x - 1) / 2)%nat] => parent_fact x
         | _ : context [((?x - 1) / 2)%nat] |- _ => parent_fact x
         end;
  lia.

(** ** The display helper and the tree view

    [getDisplayChar] closes [huffman.ts]; [getTreeDepth] is the helper of
    the tree view that sizes the drawing. *)

(** Digits of a non-negative integer in base sixteen, lower case, most
    significant first. *)
Fixpoint hexDigits (fuel : nat) (n : Z) (acc : jsstring) : jsstring :=
  match fuel with
  | O => acc
  | S fuel' =>
    let d := n mod 16 in
    let acc' := (if d <? 10 then 48 + d else 87 + d) :: acc in
    if n <? 16 then acc' else hexDigits fuel' (n / 16) acc'
  end.

(** [n.toString(16)] for an integer [n]. *)
Definition Number_toString16 (n : Z) : jsstring :=
  if n <? 0 then 45 :: hexDigits (S (Z.to_nat (Z.log2 (- n)))) (- n) []
  else hexDigits (S (Z.to_nat (Z.log2 n))) n [].

(** [s.charCodeAt(i)]: [None] is NaN, past the end of the string. *)
Definition charCodeAt (s : jsstring) (i : nat) : option Z := s !! i.

(** [getDisplayChar]; a comparison with NaN is false. *)
Definition getDisplayChar (char : jsstring) : jsstring :=
  if bool_decide (char = js " ") then [0x2423]
  else if bool_decide (char = [10]) then [0x21B5]
  else if bool_decide (char = [9]) then [0x2192]
  else if bool_decide (char = [13]) then [0x23CE]
  else
    match charCodeAt char 0 with
    | Some u =>
      if u <? 32 then js "\x" ++ padStart0 (Number_toString16 u) 2 else char
    | None => char
    end.

(** [getTreeDepth] of the tree view, on a node and on a tree that may be
    [null]. *)
Fixpoint getTreeDepth_node (node : HuffmanNode) : nat :=
  S (Nat.max
       match left node with Some l => getTreeDepth_node l | None => 0%nat end
       match right node with Some r => getTreeDepth_node r | None => 0%nat end).

Definition getTreeDepth (node : option HuffmanNode) : nat :=
  match node with
  | None => 0%nat
  | Some node => getTreeDepth_node node
  end.

(** ** The code table view

    [CodeTable] lists [Object.entries(codeMap)] sorted by decreasing
    frequency.  [Array.prototype.sort] is stable, so with a comparison
    function that compares numbers the result is the one a stable
    insertion sort gives. *)

Fixpoint Array_sort_insert {A} (compare : A → A → Z) (x : A) (sorted : list A)
  : list A :=
  match sorted with
  | [] => [x]
  | y :: sorted' =>
    if compare x y <=? 0 then x :: y :: sorted'
    else y :: Array_sort_insert compare x sorted'
  end.

Definition Array_sort {A} (compare : A → A → Z) (l : list A) : list A :=
  foldr (Array_sort_insert compare) [] l.

(** The rows of the table: [(frequencyMap[b[0]] || 0) -
    (frequencyMap[a[0]] || 0)] is the comparison function. *)
Definition CodeTable_entries (codeMap : CodeMap) (frequencyMap : FrequencyMap)
  : list (jsstring * jsstring) :=
  Array_sort
    (λ a b, default 0 (obj_get b.1 frequencyMap)
            - default 0 (obj_get a.1 frequencyMap))
    codeMap.

(** ** Vocabulary of the further properties *)

(** The leaf the builder creates for a key when the counter is [n], and
    the parent it creates for two extracted nodes. *)
Definition leafNode (frequencies : FrequencyMap) (char : jsstring) (n : Z)
  : HuffmanNode :=
  {| char := Some char;
     freq := default 0 (obj_get char frequencies);
     left := None;
     right := None;
     id := (generateNodeId n).1 |}.

Definition parentNode (l r : HuffmanNode) (n : Z) : HuffmanNode :=
  {| char := None;
     freq := freq l + freq r;
     left := Some l;
     right := Some r;
     id := (generateNodeId n).1 |}.

(** The leaves created for a list of keys, the first with counter [n]. *)
Fixpoint leavesFrom (frequencies : FrequencyMap) (chars : list jsstring) (n : Z)
  : list HuffmanNode :=
  match chars with
  | [] => []
  | char :: chars' =>
    leafNode frequencies char n :: leavesFrom frequencies chars' (n + 1)
  end.

(** The symbols at the leaves below a node, each with the frequency the
    leaf carries. *)
Fixpoint leafFreqs (node : HuffmanNode) : list (jsstring * Z) :=
  match char node with
  | Some c => [(c, freq node)]
  | None =>
    match left node with Some l => leafFreqs l | None => [] end ++
    match right node with Some r => leafFreqs r | None => [] end
  end.

(** The identifiers of a node and of all the nodes below it. *)
Fixpoint nodeIds (node : HuffmanNode) : list jsstring :=
  id node ::
  match left node with Some l => nodeIds l | None => [] end ++
  match right node with Some r => nodeIds r | None => [] end.

(** Every node without a symbol carries the sum of the frequencies of its
    children. *)
Fixpoint sumsChildren (node : HuffmanNode) : Prop :=
  match char node with
  | Some _ => True
  | None =>
    freq node = from_option freq 0 (left node) + from_option freq 0 (right node) ∧
    match left node with Some l => sumsChildren l | None => True end ∧
    match right node with Some r => sumsChildren r | None => True end
  end.

(** A tree in which a node with a symbol has no children and a node
    without a symbol has two: the trees the merge loop builds. *)
Fixpoint strict (node : HuffmanNode) : Prop :=
  match char node with
  | Some _ => left node = None ∧ right node = None
  | None =>
    match left node, right node with
    | Some l, Some r => strict l ∧ strict r
    | _, _ => False
    end
  end.

(** The sum of the values of a frequency table. *)
Definition totalFrequency (frequencies : FrequencyMap) : Z :=
  foldr Z.add 0 frequencies.*2.

(** The number of times a symbol occurs in a text. *)
Definition occurrences (char : jsstring) (text : jsstring) : Z :=
  Z.of_nat (length (filter (λ cp, cp = char) (codePoints text))).

(** What the queue holds while the builder runs: the leaves of the table,
    nodes that are full and carry the sums of their children, and the
    identifiers handed out so far, once each. *)
Definition builderState (frequencies : FrequencyMap)
    (heap : list HuffmanNode) (n : Z) : Prop :=
  heap ≫= leafFreqs ≡ₚ
    (λ k, (k, default 0 (obj_get k frequencies))) <$> Object_keys frequencies ∧
  Forall full heap ∧
  Forall strict heap ∧
  Forall sumsChildren heap ∧
  (∃ k : nat, n = Z.of_nat k ∧
     heap ≫= nodeIds ≡ₚ (λ i : nat, (generateNodeId (Z.of_nat i)).1) <$> seq 0 k) ∧
  n + Z.of_nat (length heap) = 2 * Z.of_nat (length (Object_keys frequencies)).

(** The depths at which the leaves of a binary tree can sit, the root
    being at depth [d] and every node that is not a leaf having two
    children; the order of the list does not matter. *)
Inductive TreeDepths : nat → list nat → Prop :=
  | TreeDepths_leaf d : TreeDepths d [d]
  | TreeDepths_node d ds1 ds2 :
    TreeDepths (S d) ds1 → TreeDepths (S d) ds2 → TreeDepths d (ds1 ++ ds2)
  | TreeDepths_perm d ds ds' :
    TreeDepths d ds → ds ≡ₚ ds' → TreeDepths d ds'.

(** The weighted path length of a list of leaves, each given by its depth
    and its weight: the sum of depth times weight. *)
Definition weightedDepth (leaves : list (nat * Z)) : Z :=
  foldr (λ dw acc, Z.of_nat dw.1 * dw.2 + acc) 0 leaves.

(** The leaves below a node, each with its depth and the frequency it
    carries, the node being at depth [d]. *)
Fixpoint leafDepths (node : HuffmanNode) (d : nat) : list (nat * Z) :=
  match char node with
  | Some _ => [(d, freq node)]
  | None =>
    match left node with Some l => leafDepths l (S d) | None => [] end ++
    match right node with Some r => leafDepths r (S d) | None => [] end
  end.

(** The weighted path length of a tree: the sum over its leaves of depth
    times frequency. *)
Definition pathLength (node : HuffmanNode) : Z :=
  weightedDepth (leafDepths node 0).

(** The leaves below a node as [traverse] meets them, each with its
    symbol, its frequency and the code accumulated from [code]. *)
Fixpoint leafEntries (node : HuffmanNode) (code : jsstring)
  : list (jsstring * Z * jsstring) :=
  match char node with
  | Some c => [(c, freq node, code)]
  | None =>
    match left node with
    | Some l => leafEntries l (code ++ js "0")
    | None => []
    end ++
    match right node with
    | Some r => leafEntries r (code ++ js "1")
    | None => []
    end
  end.

(** The number of bits a code table spends on a frequency table: the sum
    over the keys of frequency times code length, a missing code counting
    as the word the encoder would append. *)
Definition codeLength (codes : CodeMap) (char : jsstring) : Z :=
  Z.of_nat (length (default (js "undefined") (obj_get char codes))).

Definition encodedBits (codes : CodeMap) (frequencies : FrequencyMap) : Z :=
  foldr (λ kv acc, kv.2 * codeLength codes kv.1 + acc) 0 frequencies.

(** A list of weighted codes in which no code is a prefix of a code at
    another place. *)
Fixpoint prefixFreeList (codes : list (jsstring * Z)) : Prop :=
  match codes with
  | [] => True
  | cw :: codes' =>
    Forall (λ cw', ¬ cw.1 `prefix_of` cw'.1 ∧ ¬ cw'.1 `prefix_of` cw.1) codes' ∧
    prefixFreeList codes'
  end.

(** The codes of a list that start with the bit [b], without that bit. *)
Definition tailsWith (b : Z) (codes : list (jsstring * Z)) : list (jsstring * Z) :=
  omap (λ cw, match cw.1 with
              | u :: t => if u =? b then Some (t, cw.2) else None
              | [] => None
              end) codes.

(** The bits a list of weighted codes spends when its root is at depth
    [d]. *)
Definition listBits (d : nat) (codes : list (jsstring * Z)) : Z :=
  foldr (λ cw acc, Z.of_nat (d + length cw.1) * cw.2 + acc) 0 codes.

(** The state of the queue while the merge loop runs, seen from a list of
    weights: every candidate for those weights can be turned into one for
    the frequencies of the nodes in the queue that is shorter by the paths
    already built inside those nodes. *)
Definition mergeState (weights : list Z) (heap : list HuffmanNode) (n : Z)
  : Prop :=
  Forall full heap ∧ Forall sumsChildren heap ∧
  ∀ cand : list (nat * Z),
    TreeDepths 0 cand.*1 → cand.*2 ≡ₚ weights →
    ∃ cand' : list (nat * Z),
      TreeDepths 0 cand'.*1 ∧ cand'.*2 ≡ₚ freq <$> heap ∧
      foldr (λ t acc, pathLength t + acc) 0 heap + weightedDepth cand'
      ≤ weightedDepth cand.

(** Emptying the queue: [extractMin] is called until it returns [null],
    at most [fuel] times; the nodes are listed in the order they come
    out. *)
Fixpoint drain (fuel : nat) (heap : list HuffmanNode) : list HuffmanNode :=
  match fuel with
  | O => []
  | S fuel' =>
    match MinHeap.extractMin heap with
    | (Some node, heap') => node :: drain fuel' heap'
    | (None, _) => []
    end
  end.

(** The code of [m] bits of the number [i]. *)
Fixpoint fixedCode (m : nat) (i : Z) : jsstring :=
  match m with
  | O => []
  | S m' => fixedCode m' (i / 2) ++ [48 + i mod 2]
  end.

(** The table that gives the keys of a list codes of [m] bits, numbered
    from [i] on. *)
Fixpoint fixedCodes (m : nat) (keys : list jsstring) (i : Z) : CodeMap :=
  match keys with
  | [] => []
  | k :: keys' => (k, fixedCode m i) :: fixedCodes m keys' (i + 1)
  end.

(* ================================================================== *)
(** * Part II: properties                                              *)
(* ================================================================== *)

(** ** Strings *)

(** Induction on a string that may consume one or two units at a time. *)
Lemma jsstring_pair_ind (P : jsstring → Prop) :
  P [] →
  (∀ u s, P s → (∀ v s', s = v :: s' → P s') → P (u :: s)) →
  ∀ s, P s.
Proof.
  intros Hnil Hcons s.
  cut (P s ∧ ∀ v s', s = v :: s' → P s'); [tauto |].
  induction s as [|u s [IH1 IH2]]; split; try done.
  - by apply Hcons.
  - by intros v s' [= _ <-].
Qed.

Lemma codePoints_cons2 (u v : Z) (s : jsstring) :
  codePoints (u :: v :: s) =
  if isHighSurrogate u && isLowSurrogate v
  then [u; v] :: codePoints s
  else [u] :: codePoints (v :: s).
Proof. reflexivity. Qed.

Lemma codePoints_concat (s : jsstring) : concat (codePoints s) = s.
Proof.
  induction s as [|u s IH1 IH2] using jsstring_pair_ind; [done |].
  destruct s as [|v s']; [done |].
  rewrite codePoints_cons2. destruct (_ && _); cbn [concat app].
  - by rewrite (IH2 v s').
  - by rewrite IH1.
Qed.

(** A code point is one unit or two. *)
Lemma codePoints_length (s : jsstring) :
  Forall (λ cp, length cp = 1%nat ∨ length cp = 2%nat) (codePoints s).
Proof.
  induction s as [|u s IH1 IH2] using jsstring_pair_ind; [constructor |].
  destruct s as [|v s']; [repeat constructor; auto |].
  rewrite codePoints_cons2. destruct (_ && _); constructor; eauto.
Qed.

Lemma codePoints_nil (s : jsstring) : codePoints s = [] → s = [].
Proof. intros H. by rewrite <- (codePoints_concat s), H. Qed.

(** In a string without surrogates every unit is a code point. *)
Lemma codePoints_units (s : jsstring) :
  Forall (λ u, isHighSurrogate u = false) s →
  codePoints s = (λ u, [u]) <$> s.
Proof.
  induction 1 as [|u s Hu Hs IH]; [done |].
  destruct s as [|v s']; [done |].
  rewrite codePoints_cons2, Hu. cbn [andb]. by rewrite IH.
Qed.

Lemma isBitString_no_surrogate (s : jsstring) :
  isBitString s → Forall (λ u, isHighSurrogate u = false) s.
Proof. intros H. eapply Forall_impl; [exact H |]. by intros u [-> | ->]. Qed.

Lemma isBitString_app (s t : jsstring) :
  isBitString (s ++ t) ↔ isBitString s ∧ isBitString t.
Proof. apply Forall_app. Qed.

(** ** Objects *)

Section objects.
Context {V : Type}.
Implicit Types (o : JSObject V) (k : jsstring) (v : V).

Lemma obj_get_Some k o v : obj_get k o = Some v → (k, v) ∈ o.
Proof.
  induction o as [|[k' v'] o IH]; [done |]. cbn.
  case_bool_decide as Hk.
  - intros [= ->]. subst. left.
  - intros. right. auto.
Qed.

Lemma obj_get_None k o : obj_get k o = None ↔ k ∉ Object_keys o.
Proof.
  unfold Object_keys. induction o as [|[k' v'] o IH]; cbn.
  - split; [intros _; apply not_elem_of_nil | done].
  - rewrite not_elem_of_cons. case_bool_decide; [split; [done | tauto] |].
    rewrite IH. tauto.
Qed.

Lemma obj_get_is_Some k o : is_Some (obj_get k o) ↔ k ∈ Object_keys o.
Proof.
  rewrite <- not_eq_None_Some, obj_get_None.
  destruct (decide (k ∈ Object_keys o)); tauto.
Qed.

(** With distinct keys, every entry is what the lookup returns. *)
Lemma obj_get_elem_of k v o :
  NoDup (Object_keys o) → (k, v) ∈ o → obj_get k o = Some v.
Proof.
  unfold Object_keys. induction o as [|[k' v'] o IH]; cbn.
  - intros _ H. by apply elem_of_nil in H.
  - intros [Hk' Hnd]%NoDup_cons [[= -> ->] | Hin]%elem_of_cons.
    + by rewrite bool_decide_eq_true_2.
    + rewrite bool_decide_eq_false_2; [auto |].
      intros ->. apply Hk'. apply list_elem_of_fmap. by exists (k', v).
Qed.

Lemma obj_update_keys k v o : Object_keys (obj_update k v o) = Object_keys o.
Proof.
  unfold Object_keys. induction o as [|[k' v'] o IH]; [done |]. cbn.
  case_bool_decide; cbn; by rewrite ?IH.
Qed.

Lemma obj_get_update k k' v o :
  obj_get k' (obj_update k v o) =
  if bool_decide (k' = k) then (λ _, v) <$> obj_get k o else obj_get k' o.
Proof.
  induction o as [|[k0 v0] o IH]; cbn; [by case_bool_decide |].
  destruct (decide (k = k0)) as [-> | Hk].
  - rewrite bool_decide_eq_true_2 by done. cbn.
    by destruct (bool_decide (k' = k0)).
  - rewrite (bool_decide_eq_false_2 (k = k0)) by done. cbn.
    rewrite IH. destruct (decide (k' = k0)) as [-> | Hk'].
    + rewrite bool_decide_eq_true_2 by done.
      by rewrite bool_decide_eq_false_2 by done.
    + by rewrite (bool_decide_eq_false_2 (k' = k0)) by done.
Qed.

Lemma obj_insertIndex_perm n k v o : obj_insertIndex n k v o ≡ₚ (k, v) :: o.
Proof.
  induction o as [|[k' v'] o IH]; cbn; [done |].
  destruct (arrayIndex k'); [|done]. destruct (_ <? _); [|done].
  by rewrite IH, Permutation_swap.
Qed.

(** Lookup only depends on the entries when the keys are distinct. *)
Lemma obj_get_perm k o o' :
  NoDup (Object_keys o) → o ≡ₚ o' → obj_get k o = obj_get k o'.
Proof.
  intros Hnd Hp.
  assert (NoDup (Object_keys o')) as Hnd'.
  { unfold Object_keys in *. by rewrite <- Hp. }
  destruct (obj_get k o) as [v|] eqn:E.
  - symmetry. apply obj_get_elem_of; [done |].
    rewrite <- Hp. by apply obj_get_Some.
  - symmetry. apply obj_get_None. apply obj_get_None in E.
    unfold Object_keys in *. by rewrite <- Hp.
Qed.

(** What [obj_define] does to a fresh key, up to the order. *)
Lemma obj_define_fresh_perm k v o :
  k ∉ Object_keys o → obj_define k v o ≡ₚ (k, v) :: o.
Proof.
  intros Hk. unfold obj_define, obj_has.
  rewrite bool_decide_eq_false_2 by done.
  destruct (arrayIndex k).
  - apply obj_insertIndex_perm.
  - by rewrite Permutation_app_comm.
Qed.

Lemma obj_define_keys_perm k v o :
  Object_keys (obj_define k v o) ≡ₚ
  if bool_decide (k ∈ Object_keys o) then Object_keys o
  else k :: Object_keys o.
Proof.
  case_bool_decide as Hk.
  - unfold obj_define, obj_has. rewrite bool_decide_eq_true_2 by done.
    by rewrite obj_update_keys.
  - unfold Object_keys at 1. by rewrite obj_define_fresh_perm.
Qed.

Lemma obj_define_NoDup k v o :
  NoDup (Object_keys o) → NoDup (Object_keys (obj_define k v o)).
Proof.
  intros Hnd. rewrite obj_define_keys_perm.
  case_bool_decide; [done |]. by apply NoDup_cons.
Qed.

Lemma obj_get_define k k' v o :
  NoDup (Object_keys o) →
  obj_get k' (obj_define k v o) =
  if bool_decide (k' = k) then Some v else obj_get k' o.
Proof.
  intros Hnd. destruct (decide (k ∈ Object_keys o)) as [Hk | Hk].
  - unfold obj_define, obj_has. rewrite bool_decide_eq_true_2 by done.
    rewrite obj_get_update. case_bool_decide; [|done].
    apply obj_get_is_Some in Hk as [x ->]. done.
  - rewrite (obj_get_perm k' _ ((k, v) :: o)).
    + done.
    + by apply obj_define_NoDup.
    + by apply obj_define_fresh_perm.
Qed.

Lemma obj_set_define k v o :
  k ≠ js "__proto__" → obj_set k v o = obj_define k v o.
Proof. intros Hk. unfold obj_set. by rewrite bool_decide_eq_false_2. Qed.

Lemma obj_set_NoDup k v o :
  NoDup (Object_keys o) → NoDup (Object_keys (obj_set k v o)).
Proof.
  intros Hnd. unfold obj_set. destruct (_ && _); [done |].
  by apply obj_define_NoDup.
Qed.

(** An assignment changes no other key and stores nothing but [v]. *)
Lemma obj_get_set_ne k k' v o :
  NoDup (Object_keys o) → k' ≠ k →
  obj_get k' (obj_set k v o) = obj_get k' o.
Proof.
  intros Hnd Hne. unfold obj_set. destruct (_ && _); [done |].
  rewrite obj_get_define by done. by rewrite bool_decide_eq_false_2.
Qed.

Lemma obj_get_set_eq k v o w :
  NoDup (Object_keys o) → obj_get k (obj_set k v o) = Some w → w = v.
Proof.
  intros Hnd. unfold obj_set.
  case_bool_decide as E1; cbn [andb].
  - unfold obj_has. case_bool_decide as Hin; cbn [negb andb].
    + rewrite obj_get_define by done. rewrite bool_decide_eq_true_2 by done.
      congruence.
    + intros Hget. exfalso. apply Hin, obj_get_is_Some. eauto.
  - rewrite obj_get_define by done. rewrite bool_decide_eq_true_2 by done.
    congruence.
Qed.

End objects.

(** ** Frequencies *)

Lemma codePoint_not_proto (cp : jsstring) :
  (length cp = 1 ∨ length cp = 2)%nat → cp ≠ js "__proto__".
Proof. intros [H | H] ->; discriminate H. Qed.

(** The frequency table has one key per distinct code point of the text. *)
Lemma calculateFrequencies_keys (text : jsstring) :
  NoDup (Object_keys (calculateFrequencies text)) ∧
  ∀ k, k ∈ Object_keys (calculateFrequencies text) ↔ k ∈ codePoints text.
Proof.
  unfold calculateFrequencies.
  pose proof (codePoints_length text) as Hlen.
  set (step := λ (frequencies : FrequencyMap) (char : jsstring), _).
  cut (∀ cps (f : FrequencyMap),
         Forall (λ cp, length cp = 1 ∨ length cp = 2)%nat cps →
         NoDup (Object_keys f) →
         NoDup (Object_keys (fold_left step cps f)) ∧
         ∀ k, k ∈ Object_keys (fold_left step cps f) ↔
              k ∈ Object_keys f ∨ k ∈ cps).
  { intros H. destruct (H (codePoints text) [] Hlen) as [Hnd Hk].
    - constructor.
    - split; [done |]. intros k. rewrite Hk. cbn. rewrite elem_of_nil. tauto. }
  clear. induction cps as [|cp cps IH]; intros f Hlen Hnd; cbn [fold_left].
  - split; [done |]. intros k. rewrite elem_of_nil. tauto.
  - apply Forall_cons in Hlen as [Hcp Hlen].
    destruct (IH (step f cp) Hlen) as [Hnd' Hk'].
    { by apply obj_set_NoDup. }
    split; [done |]. intros k. rewrite Hk'. unfold step at 1.
    rewrite obj_set_define by by apply codePoint_not_proto.
    rewrite obj_define_keys_perm, elem_of_cons.
    case_bool_decide as Hin; [| rewrite elem_of_cons]; [| tauto].
    split; [tauto |]. intros [? | [-> | ?]]; tauto.
Qed.

(** ** The heap as a bag

    What the tree builder needs from the heap is that no node is lost or
    duplicated: every method permutes the array. *)

Module MinHeapBag.
Import MinHeap.

Lemma swap_perm heap i j : swap heap i j ≡ₚ heap.
Proof.
  unfold swap. destruct (heap !! i) eqn:Ei; [|done].
  destruct (heap !! j) eqn:Ej; [|done].
  by apply Permutation_insert_swap.
Qed.

Lemma swap_length heap i j : length (swap heap i j) = length heap.
Proof. apply Permutation_length, swap_perm. Qed.

(** One turn of each loop. *)
Lemma bubbleUp_loop_S fuel heap index :
  bubbleUp_loop (S fuel) heap index =
  if (0 <? index)%nat then
    if freqAt heap ((index - 1) / 2) <=? freqAt heap index then heap
    else bubbleUp_loop fuel (swap heap ((index - 1) / 2) index)
                       ((index - 1) / 2)
  else heap.
Proof. reflexivity. Qed.

Lemma bubbleDown_loop_S fuel heap index :
  bubbleDown_loop (S fuel) heap index =
  if (smallestOf heap index =? index)%nat then heap
  else bubbleDown_loop fuel (swap heap (smallestOf heap index) index)
                       (smallestOf heap index).
Proof. reflexivity. Qed.

Lemma bubbleUp_loop_perm fuel heap index :
  bubbleUp_loop fuel heap index ≡ₚ heap.
Proof.
  revert heap index. induction fuel as [|fuel IH]; intros heap index; [done |].
  rewrite bubbleUp_loop_S. destruct (0 <? index)%nat; [|done].
  destruct (_ <=? _); [done |]. by rewrite IH, swap_perm.
Qed.

Lemma bubbleDown_loop_perm fuel heap index :
  bubbleDown_loop fuel heap index ≡ₚ heap.
Proof.
  revert heap index. induction fuel as [|fuel IH]; intros heap index; [done |].
  rewrite bubbleDown_loop_S. destruct (_ =? _)%nat; [done |].
  by rewrite IH, swap_perm.
Qed.

Lemma insert_perm heap node : insert heap node ≡ₚ node :: heap.
Proof.
  unfold insert, bubbleUp. rewrite bubbleUp_loop_perm.
  by rewrite Permutation_app_comm.
Qed.

Lemma insert_length heap node : length (insert heap node) = S (length heap).
Proof. by rewrite insert_perm. Qed.

Lemma extractMin_nil : extractMin [] = (None, []).
Proof. reflexivity. Qed.

(** [extractMin] on an array of two nodes or more: the last node moves
    to the root and sinks. *)
Lemma extractMin_snoc min body z :
  extractMin (min :: body ++ [z]) = (Some min, bubbleDown (z :: body) 0).
Proof.
  unfold extractMin, pop.
  change (min :: body ++ [z]) with ((min :: body) ++ [z]).
  rewrite removelast_last, last_snoc.
  assert (length ((min :: body) ++ [z]) = S (S (length body))) as ->.
  { rewrite length_app. cbn. lia. }
  reflexivity.
Qed.

(** On a non-empty heap [extractMin] hands out one node and keeps the
    others. *)
Lemma extractMin_perm heap :
  heap ≠ [] →
  ∃ node heap', extractMin heap = (Some node, heap') ∧ heap ≡ₚ node :: heap'.
Proof.
  intros Hne. destruct heap as [|min rest]; [done |].
  destruct rest as [|x rest]; [by exists min, [] |].
  destruct (exists_last (l := x :: rest)) as (body & z & ->); [done |].
  exists min, (bubbleDown (z :: body) 0).
  split; [apply extractMin_snoc |].
  unfold bubbleDown. rewrite bubbleDown_loop_perm.
  by rewrite (Permutation_app_comm body [z]).
Qed.

Lemma extractMin_length heap node heap' :
  extractMin heap = (Some node, heap') → length heap = S (length heap').
Proof.
  intros H. destruct (decide (heap = [])) as [-> | Hne]; [done |].
  destruct (extractMin_perm heap Hne) as (n & h & E & Hp).
  rewrite E in H. injection H as -> ->. by rewrite Hp.
Qed.

End MinHeapBag.

(** ** Trees *)

(** Induction on a node with the children as hypotheses. *)
Lemma HuffmanNode_children_ind (P : HuffmanNode → Prop) :
  (∀ node,
      (∀ l, left node = Some l → P l) →
      (∀ r, right node = Some r → P r) → P node) →
  ∀ node, P node.
Proof.
  intros H. induction node as [c f l Hl r Hr i].
  apply H; cbn; intros x ->.
  - by inversion Hl.
  - by inversion Hr.
Qed.

Lemma leafCodes_unfold (node : HuffmanNode) (code : jsstring) :
  leafCodes node code =
  match char node with
  | Some c => [(c, code)]
  | None =>
    from_option (λ l, leafCodes l (code ++ js "0")) [] (left node) ++
    from_option (λ r, leafCodes r (code ++ js "1")) [] (right node)
  end.
Proof. destruct node as [c f [l|] [r|] i]; reflexivity. Qed.

(** The codes below a node all start with the code of the node. *)
Lemma leafCodes_shift (node : HuffmanNode) (code : jsstring) :
  leafCodes node code = (λ cw, (cw.1, code ++ cw.2)) <$> leafCodes node [].
Proof.
  revert code. induction node as [node IHl IHr] using HuffmanNode_children_ind.
  intros code. rewrite !leafCodes_unfold.
  destruct (char node) as [c|]; [cbn; by rewrite app_nil_r |].
  rewrite fmap_app. f_equal.
  - destruct (left node) as [l|]; [|done]. cbn [from_option].
    rewrite (IHl l eq_refl (code ++ js "0")), (IHl l eq_refl ([] ++ js "0")).
    rewrite <- list_fmap_compose. apply list_fmap_ext. intros _ [c w] _. cbn.
    by rewrite <- app_assoc.
  - destruct (right node) as [r|]; [|done]. cbn [from_option].
    rewrite (IHr r eq_refl (code ++ js "1")), (IHr r eq_refl ([] ++ js "1")).
    rewrite <- list_fmap_compose. apply list_fmap_ext. intros _ [c w] _. cbn.
    by rewrite <- app_assoc.
Qed.

Lemma leafCodes_chars (node : HuffmanNode) (code : jsstring) :
  (leafCodes node code).*1 = leafChars node.
Proof.
  unfold leafChars. rewrite (leafCodes_shift node code).
  rewrite <- list_fmap_compose. by apply list_fmap_ext.
Qed.

Lemma leafChars_unfold (node : HuffmanNode) :
  leafChars node =
  match char node with
  | Some c => [c]
  | None =>
    from_option leafChars [] (left node) ++ from_option leafChars [] (right node)
  end.
Proof.
  unfold leafChars at 1. rewrite leafCodes_unfold.
  destruct (char node); [done |]. rewrite fmap_app.
  destruct (left node), (right node); cbn [from_option];
    by rewrite ?leafCodes_chars.
Qed.

Lemma full_unfold (node : HuffmanNode) :
  full node ↔
  match char node with
  | Some _ => True
  | None =>
    match left node, right node with
    | Some l, Some r => full l ∧ full r
    | _, _ => False
    end
  end.
Proof. by destruct node as [c f [l|] [r|] i]. Qed.

(** A full tree has a leaf. *)
Lemma full_leafChars_length (node : HuffmanNode) :
  full node → (1 ≤ length (leafChars node))%nat.
Proof.
  induction node as [node IHl IHr] using HuffmanNode_children_ind.
  rewrite full_unfold, leafChars_unfold.
  destruct (char node); [done |].
  destruct (left node) as [l|]; [|done]. destruct (right node) as [r|]; [|done].
  intros [Hl Hr]. rewrite length_app. cbn [from_option].
  specialize (IHl l eq_refl Hl). lia.
Qed.

(** ** The tree builder *)

(** The leaves of the nodes waiting in the heap. *)
Lemma forest_leaves_perm (heap heap' : list HuffmanNode) :
  heap ≡ₚ heap' → heap ≫= leafChars ≡ₚ heap' ≫= leafChars.
Proof. by intros ->. Qed.

Lemma generateNodeId_counter (n : Z) : (generateNodeId n).2 = n + 1.
Proof. reflexivity. Qed.

Lemma insertLeaves_spec frequencies chars heap n :
  Forall full heap →
  ∃ heap' n',
    insertLeaves frequencies chars heap n = (heap', n') ∧
    Forall full heap' ∧
    heap' ≫= leafChars ≡ₚ (heap ≫= leafChars) ++ chars ∧
    length heap' = (length heap + length chars)%nat.
Proof.
  revert heap n. induction chars as [|char chars IH]; intros heap n Hfull.
  - exists heap, n. by rewrite app_nil_r, Nat.add_0_r.
  - cbn [insertLeaves]. destruct (generateNodeId n) as [newId n1].
    set (leaf := {| char := Some char |}).
    destruct (IH (MinHeap.insert heap leaf) n1) as (heap' & n' & E & Hf & Hp & Hl).
    { rewrite MinHeapBag.insert_perm. by constructor. }
    exists heap', n'. split; [done |]. split; [done |]. split.
    + rewrite Hp, (forest_leaves_perm _ _ (MinHeapBag.insert_perm heap leaf)).
      cbn. rewrite (Permutation_app_comm _ (char :: chars)).
      cbn. by rewrite Permutation_app_comm.
    + rewrite Hl, MinHeapBag.insert_length. cbn. lia.
Qed.

(** With [size - 1] turns of fuel or more the merge loop ends because one
    node is left; it never throws and keeps the leaves. *)
Lemma mergeLoop_spec fuel heap n :
  heap ≠ [] → (length heap ≤ S fuel)%nat → Forall full heap →
  ∃ root n',
    mergeLoop fuel heap n = Ok ([root], n') ∧
    full root ∧ leafChars root ≡ₚ heap ≫= leafChars.
Proof.
  revert heap n. induction fuel as [|fuel IH]; intros heap n Hne Hlen Hfull.
  - destruct heap as [|root [|x heap]]; [done | | cbn in Hlen; lia].
    exists root, n. apply Forall_cons in Hfull as [Hr _].
    cbn. by rewrite app_nil_r.
  - cbn [mergeLoop]. unfold MinHeap.size.
    destruct (1 <? length heap)%nat eqn:Hsize.
    + apply Nat.ltb_lt in Hsize.
      destruct (MinHeapBag.extractMin_perm heap Hne) as (l & h1 & -> & Hp1).
      assert (length heap = S (length h1)) as Hl1 by by rewrite Hp1.
      destruct (MinHeapBag.extractMin_perm h1) as (r & h2 & -> & Hp2).
      { intros ->. cbn in Hl1. lia. }
      assert (length h1 = S (length h2)) as Hl2 by by rewrite Hp2.
      destruct (generateNodeId n) as [newId n1].
      set (parent := {| char := None |}).
      rewrite Hp1, Hp2 in Hfull.
      apply Forall_cons in Hfull as [Hfl [Hfr Hf2]%Forall_cons].
      destruct (IH (MinHeap.insert h2 parent) n1) as (root & n' & E & Hf & Hp).
      * intros Hnil. apply (f_equal length) in Hnil.
        by rewrite MinHeapBag.insert_length in Hnil.
      * rewrite MinHeapBag.insert_length. lia.
      * rewrite MinHeapBag.insert_perm. constructor; [|done].
        by rewrite full_unfold.
      * exists root, n'. split; [done |]. split; [done |].
        rewrite Hp, (forest_leaves_perm _ _ (MinHeapBag.insert_perm h2 parent)).
        rewrite (forest_leaves_perm heap (l :: r :: h2)) by by rewrite Hp1, Hp2.
        cbn [mbind list_bind]. rewrite (leafChars_unfold parent). cbn.
        by rewrite <- app_assoc.
    + apply Nat.ltb_ge in Hsize.
      destruct heap as [|root [|x heap]]; [done | | cbn in Hsize; lia].
      exists root, n. apply Forall_cons in Hfull as [Hr _].
      cbn. by rewrite app_nil_r.
Qed.

(** The builder returns no tree for the empty table and otherwise a tree
    of the built shape whose leaves are the keys of the table; it never
    throws and always leaves the counter at the number of nodes. *)
Lemma buildHuffmanTree_spec (frequencies : FrequencyMap) (n : Z) :
  match Object_keys frequencies with
  | [] => buildHuffmanTree frequencies n = Ok (None, 0)
  | _ =>
    ∃ root n',
      buildHuffmanTree frequencies n = Ok (Some root, n') ∧
      builtShape root ∧ leafChars root ≡ₚ Object_keys frequencies
  end.
Proof.
  unfold buildHuffmanTree.
  destruct (Object_keys frequencies) as [|k ks] eqn:Hkeys; [done |].
  rewrite <- Hkeys.
  destruct (insertLeaves_spec frequencies (Object_keys frequencies) [] 0)
    as (heap & n1 & -> & Hfull & Hperm & Hlen); [constructor |].
  cbn [mbind list_bind app length] in Hperm, Hlen.
  replace (length (Object_keys frequencies) =? 0)%nat with false
    by (by rewrite Hkeys).
  unfold MinHeap.size. destruct (length heap =? 1)%nat eqn:Hone.
  - apply Nat.eqb_eq in Hone.
    destruct heap as [|node [|x heap]]; [done | | done].
    cbn. eexists _, _. split; [done |].
    apply Forall_cons in Hfull as [Hnode _].
    cbn in Hperm. rewrite app_nil_r in Hperm. split.
    + left. split; [done |]. split; [done |].
      rewrite Hkeys in Hlen. destruct ks; [|done].
      rewrite leafChars_unfold in Hperm.
      destruct (char node) as [c|] eqn:Hc; [by exists node, c |].
      exfalso. rewrite full_unfold, Hc in Hnode.
      destruct (left node) as [l|]; [|done].
      destruct (right node) as [r|]; [|done]. destruct Hnode as [Hl Hr].
      apply Permutation_length in Hperm. rewrite length_app in Hperm.
      apply full_leafChars_length in Hl, Hr. cbn in Hperm. rewrite Hkeys in Hperm.
      cbn in Hperm. lia.
    + rewrite leafChars_unfold. cbn. by rewrite app_nil_r.
  - apply Nat.eqb_neq in Hone.
    destruct (mergeLoop_spec (length heap) heap n1)
      as (root & n' & -> & Hroot & Hleaves).
    + intros ->. by rewrite Hkeys in Hlen.
    + lia.
    + done.
    + exists root, n'. split; [done |]. rewrite Hleaves, Hperm. split; [|done].
      right. split; [|done].
      destruct (char root) as [c|] eqn:Hc; [|done]. exfalso.
      assert (length (leafChars root) = length heap) as Hcount
        by by rewrite Hleaves, Hperm.
      rewrite leafChars_unfold, Hc in Hcount. cbn in Hcount.
      congruence.
Qed.

Lemma buildHuffmanTree_nonempty (frequencies : FrequencyMap) (n : Z) :
  Object_keys frequencies ≠ [] →
  ∃ root n',
    buildHuffmanTree frequencies n = Ok (Some root, n') ∧
    builtShape root ∧ leafChars root ≡ₚ Object_keys frequencies.
Proof.
  intros Hne. pose proof (buildHuffmanTree_spec frequencies n) as H.
  by destruct (Object_keys frequencies).
Qed.

(** ** The code table *)

Lemma traverse_unfold (node : HuffmanNode) (code : jsstring) (codes : CodeMap) :
  traverse node code codes =
  match char node with
  | Some c => obj_set c (storedCode code) codes
  | None =>
    let codes :=
      from_option (λ l, traverse l (code ++ js "0") codes) codes (left node) in
    from_option (λ r, traverse r (code ++ js "1") codes) codes (right node)
  end.
Proof. destruct node as [c f [l|] [r|] i]; reflexivity. Qed.

(** [traverse] makes one assignment per leaf, left to right. *)
Lemma traverse_assignCodes (node : HuffmanNode) (code : jsstring) (codes : CodeMap) :
  traverse node code codes = assignCodes (leafCodes node code) codes.
Proof.
  revert code codes.
  induction node as [node IHl IHr] using HuffmanNode_children_ind.
  intros code codes. rewrite traverse_unfold, leafCodes_unfold.
  destruct (char node) as [c|]; [done |].
  unfold assignCodes. rewrite fold_left_app. cbn zeta.
  destruct (left node) as [l|], (right node) as [r|]; cbn [from_option fold_left];
    by rewrite ?(IHl _ eq_refl), ?(IHr _ eq_refl).
Qed.

Lemma assignCodes_NoDup entries (codes : CodeMap) :
  NoDup (Object_keys codes) → NoDup (Object_keys (assignCodes entries codes)).
Proof.
  revert codes. induction entries as [|[c w] entries IH]; intros codes Hnd.
  - done.
  - apply IH. by apply obj_set_NoDup.
Qed.

(** Whatever the table holds for a symbol was assigned for a leaf of that
    symbol, or was there before. *)
Lemma assignCodes_get entries (codes : CodeMap) c w :
  NoDup (Object_keys codes) →
  obj_get c (assignCodes entries codes) = Some w →
  (∃ w0, (c, w0) ∈ entries ∧ w = storedCode w0) ∨ obj_get c codes = Some w.
Proof.
  revert codes. induction entries as [|[c0 w0] entries IH]; intros codes Hnd Hget.
  - by right.
  - destruct (IH _ (obj_set_NoDup c0 (storedCode w0) codes Hnd) Hget)
      as [(w1 & Hin & ->) | Hget'].
    + left. exists w1. split; [by right | done].
    + cbn in Hget'. destruct (decide (c = c0)) as [-> | Hne].
      * apply obj_get_set_eq in Hget' as ->; [|done].
        left. exists w0. split; [left | done].
      * rewrite obj_get_set_ne in Hget' by done. by right.
Qed.

(** The code of every leaf extends the code of the node. *)
Lemma leafCodes_prefix node code c w :
  (c, w) ∈ leafCodes node code → ∃ w', w = code ++ w' ∧ (c, w') ∈ leafCodes node [].
Proof.
  rewrite leafCodes_shift. intros ([c' w'] & [= -> ->] & Hin)%list_elem_of_fmap.
  by exists w'.
Qed.

(** The codes of two leaves with different symbols are never a prefix one
    of the other, in any tree. *)
Lemma leafCodes_incomparable node code c1 w1 c2 w2 :
  (c1, w1) ∈ leafCodes node code → (c2, w2) ∈ leafCodes node code →
  c1 ≠ c2 → ¬ w1 `prefix_of` w2.
Proof.
  revert code. induction node as [node IHl IHr] using HuffmanNode_children_ind.
  intros code. rewrite leafCodes_unfold.
  destruct (char node) as [c|].
  { intros [= -> ->]%list_elem_of_singleton [= -> ->]%list_elem_of_singleton. done. }
  intros [H1 | H1]%elem_of_app [H2 | H2]%elem_of_app Hne.
  - destruct (left node) as [l|]; [|by apply elem_of_nil in H1].
    by apply (IHl l eq_refl (code ++ js "0")).
  - destruct (left node) as [l|]; [|by apply elem_of_nil in H1].
    destruct (right node) as [r|]; [|by apply elem_of_nil in H2].
    cbn [from_option] in H1, H2.
    apply leafCodes_prefix in H1 as (x & -> & _).
    apply leafCodes_prefix in H2 as (y & -> & _).
    intros [k Hk]. rewrite <- !app_assoc in Hk.
    apply app_inv_head in Hk. discriminate Hk.
  - destruct (left node) as [l|]; [|by apply elem_of_nil in H2].
    destruct (right node) as [r|]; [|by apply elem_of_nil in H1].
    cbn [from_option] in H1, H2.
    apply leafCodes_prefix in H1 as (x & -> & _).
    apply leafCodes_prefix in H2 as (y & -> & _).
    intros [k Hk]. rewrite <- !app_assoc in Hk.
    apply app_inv_head in Hk. discriminate Hk.
  - destruct (right node) as [r|]; [|by apply elem_of_nil in H1].
    by apply (IHr r eq_refl (code ++ js "1")).
Qed.

(** Below a node without a symbol no leaf has the empty code. *)
Lemma leafCodes_internal_nonempty node c w :
  char node = None → (c, w) ∈ leafCodes node [] → w ≠ [].
Proof.
  intros Hc. rewrite leafCodes_unfold, Hc.
  intros [H | H]%elem_of_app.
  - destruct (left node) as [l|]; [|by apply elem_of_nil in H].
    apply leafCodes_prefix in H as (x & -> & _). done.
  - destruct (right node) as [r|]; [|by apply elem_of_nil in H].
    apply leafCodes_prefix in H as (x & -> & _). done.
Qed.

(** The code table of any tree is prefix-free. *)
Lemma generateCodes_prefixFree (tree : option HuffmanNode) :
  prefixFree (generateCodes tree).
Proof.
  destruct tree as [tree|]; [|by intros c1 c2 w1 w2 _ H].
  intros c1 c2 w1 w2 Hne H1 H2. cbn in H1, H2.
  rewrite traverse_assignCodes in H1, H2.
  apply assignCodes_get in H1 as [(x1 & Hx1 & ->) | H1]; [| done | apply NoDup_nil_2].
  apply assignCodes_get in H2 as [(x2 & Hx2 & ->) | H2]; [| done | apply NoDup_nil_2].
  destruct (char tree) as [c|] eqn:Hc.
  - rewrite leafCodes_unfold, Hc in Hx1, Hx2.
    apply list_elem_of_singleton in Hx1, Hx2. congruence.
  - unfold storedCode.
    rewrite !bool_decide_eq_false_2 by eauto using leafCodes_internal_nonempty.
    by eapply leafCodes_incomparable.
Qed.

(** ** Looking codes up *)

Lemma assignCodes_get_other entries (codes : CodeMap) c :
  NoDup (Object_keys codes) → c ∉ entries.*1 →
  obj_get c (assignCodes entries codes) = obj_get c codes.
Proof.
  revert codes. induction entries as [|[c0 w0] entries IH]; intros codes Hnd Hc.
  - done.
  - cbn in Hc. apply not_elem_of_cons in Hc as [Hne Hc].
    cbn. unfold assignCodes in IH. rewrite IH; [| by apply obj_set_NoDup | done].
    by apply obj_get_set_ne.
Qed.

(** When the leaves carry distinct symbols, the table holds for each leaf
    the code of that leaf. *)
Lemma assignCodes_lookup entries (codes : CodeMap) c w :
  NoDup entries.*1 → NoDup (Object_keys codes) → c ≠ js "__proto__" →
  (c, w) ∈ entries →
  obj_get c (assignCodes entries codes) = Some (storedCode w).
Proof.
  revert codes. induction entries as [|[c0 w0] entries IH];
    intros codes Hnd Hcodes Hproto Hin.
  - by apply elem_of_nil in Hin.
  - cbn in Hnd. apply NoDup_cons in Hnd as [Hc0 Hnd].
    apply elem_of_cons in Hin as [[= -> ->] | Hin].
    + cbn. fold (assignCodes entries (obj_set c0 (storedCode w0) codes)).
      rewrite assignCodes_get_other; [| by apply obj_set_NoDup | done].
      rewrite obj_set_define, obj_get_define by done.
      by rewrite bool_decide_eq_true_2.
    + apply IH; [done | by apply obj_set_NoDup | done | done].
Qed.

Lemma storedCode_nonempty (w : jsstring) : storedCode w ≠ [].
Proof. unfold storedCode. by case_bool_decide. Qed.

Lemma storedCode_id (w : jsstring) : w ≠ [] → storedCode w = w.
Proof. intros H. unfold storedCode. by rewrite bool_decide_eq_false_2. Qed.

Lemma isBitString_0 : isBitString (js "0").
Proof. constructor; [by left | constructor]. Qed.

Lemma isBitString_1 : isBitString (js "1").
Proof. constructor; [by right | constructor]. Qed.

(** Codes are bit strings. *)
Lemma leafCodes_isBitString node code c w :
  isBitString code → (c, w) ∈ leafCodes node code → isBitString w.
Proof.
  revert code. induction node as [node IHl IHr] using HuffmanNode_children_ind.
  intros code Hcode. rewrite leafCodes_unfold.
  destruct (char node) as [c'|].
  { by intros [= -> ->]%list_elem_of_singleton. }
  intros [H | H]%elem_of_app.
  - destruct (left node) as [l|]; [|by apply elem_of_nil in H].
    apply (IHl l eq_refl (code ++ js "0")); [|done].
    apply isBitString_app. split; [done | apply isBitString_0].
  - destruct (right node) as [r|]; [|by apply elem_of_nil in H].
    apply (IHr r eq_refl (code ++ js "1")); [|done].
    apply isBitString_app. split; [done | apply isBitString_1].
Qed.

Lemma storedCode_isBitString (w : jsstring) :
  isBitString w → isBitString (storedCode w).
Proof. unfold storedCode. case_bool_decide; [intros _; apply isBitString_0 | done]. Qed.

(** ** Encoding *)

Lemma fold_left_append {A} (f : A → jsstring) (l : list A) (init : jsstring) :
  fold_left (λ acc x, acc ++ f x) l init = init ++ concat (f <$> l).
Proof.
  revert init. induction l as [|x l IH]; intros init; cbn.
  - by rewrite app_nil_r.
  - by rewrite IH, <- app_assoc.
Qed.

Lemma encodeText_concat (codeMap : CodeMap) (text : jsstring) :
  encodeText codeMap text =
  concat ((λ char, default (js "undefined") (obj_get char codeMap))
            <$> codePoints text).
Proof. unfold encodeText. by rewrite fold_left_append. Qed.

(** ** Decoding *)

Lemma decodeLoop_app tree bits1 bits2 state :
  decodeLoop tree (bits1 ++ bits2) state =
  match decodeLoop tree bits1 state with
  | Ok state' => decodeLoop tree bits2 state'
  | Throw e => Throw e
  end.
Proof.
  revert state. induction bits1 as [|bit bits1 IH]; intros state; [done |].
  cbn. destruct (decodeStep tree state bit); [apply IH | done].
Qed.

(** On the one-symbol tree every bit emits the symbol. *)
Lemma decodeLoop_single tree c bits result :
  isSingleCharacterRoot tree = Some c →
  decodeLoop tree bits (tree, result) =
  Ok (tree, result ++ concat ((λ _, c) <$> bits)).
Proof.
  intros Hc. revert result. induction bits as [|bit bits IH]; intros result; cbn.
  - by rewrite app_nil_r.
  - rewrite Hc, IH. by rewrite <- app_assoc.
Qed.

Lemma full_not_single node :
  full node → char node = None → isSingleCharacterRoot node = None.
Proof.
  rewrite full_unfold. intros Hf Hc. rewrite Hc in Hf.
  unfold isSingleCharacterRoot.
  destruct (left node); [|done]. by destruct (right node).
Qed.

Lemma decodeStep_0 tree node result l :
  isSingleCharacterRoot node = None → left node = Some l →
  decodeStep tree (node, result) [48] =
  Ok (match char l with
      | Some c => (tree, result ++ c)
      | None => (l, result)
      end).
Proof.
  intros Hs Hl. unfold decodeStep. rewrite Hs. change (js "0") with [48].
  rewrite bool_decide_eq_true_2, Hl by done. by destruct (char l).
Qed.

Lemma decodeStep_1 tree node result r :
  isSingleCharacterRoot node = None → right node = Some r →
  decodeStep tree (node, result) [49] =
  Ok (match char r with
      | Some c => (tree, result ++ c)
      | None => (r, result)
      end).
Proof.
  intros Hs Hr. unfold decodeStep. rewrite Hs. change (js "0") with [48].
  rewrite bool_decide_eq_false_2, Hr by done. by destruct (char r).
Qed.

(** In a full tree the bits of a leaf's code, read from the node the code
    starts at, emit the symbol of the leaf and bring the walk back to the
    root. *)
Lemma decodeLoop_code tree node c w rest result :
  full node → char node = None → (c, w) ∈ leafCodes node [] →
  decodeLoop tree (((λ u, [u]) <$> w) ++ rest) (node, result) =
  decodeLoop tree rest (tree, result ++ c).
Proof.
  revert w. induction node as [node IHl IHr] using HuffmanNode_children_ind.
  intros w Hfull Hc Hin.
  pose proof (full_not_single node Hfull Hc) as Hsingle.
  rewrite full_unfold, Hc in Hfull. rewrite leafCodes_unfold, Hc in Hin.
  destruct (left node) as [l|] eqn:Hl; [|done].
  destruct (right node) as [r|] eqn:Hr; [|done].
  destruct Hfull as [Hfl Hfr]. cbn [from_option] in Hin.
  apply elem_of_app in Hin as [Hin | Hin];
    apply leafCodes_prefix in Hin as (w' & -> & Hin).
  - change (([] ++ js "0") ++ w') with (48 :: w').
    rewrite fmap_cons. cbn [app decodeLoop].
    rewrite (decodeStep_0 _ _ _ l) by done.
    rewrite leafCodes_unfold in Hin. destruct (char l) as [c'|] eqn:Hcl.
    + by apply list_elem_of_singleton in Hin as [= -> ->].
    + apply (IHl l eq_refl); [done | done |]. by rewrite leafCodes_unfold, Hcl.
  - change (([] ++ js "1") ++ w') with (49 :: w').
    rewrite fmap_cons. cbn [app decodeLoop].
    rewrite (decodeStep_1 _ _ _ r) by done.
    rewrite leafCodes_unfold in Hin. destruct (char r) as [c'|] eqn:Hcr.
    + by apply list_elem_of_singleton in Hin as [= -> ->].
    + apply (IHr r eq_refl); [done | done |]. by rewrite leafCodes_unfold, Hcr.
Qed.

(** Decoding the concatenated codes of a list of symbols gives the
    symbols back. *)
Lemma decodeLoop_codes tree (code : jsstring → jsstring) cps result :
  full tree → char tree = None →
  Forall (λ cp, (cp, code cp) ∈ leafCodes tree []) cps →
  decodeLoop tree ((λ u, [u]) <$> concat (code <$> cps)) (tree, result) =
  Ok (tree, result ++ concat cps).
Proof.
  intros Hfull Hc Hcps. revert result.
  induction Hcps as [|cp cps Hcp Hcps IH]; intros result; cbn.
  - by rewrite app_nil_r.
  - rewrite fmap_app, (decodeLoop_code tree tree cp (code cp)) by done.
    rewrite IH. by rewrite <- app_assoc.
Qed.

(** ** Bit packing *)

(** A byte written from eight bits reads back as the same eight bits. *)
Lemma byte_roundtrip (chunk : jsstring) :
  length chunk = 8%nat → isBitString chunk →
  padStart0 (Number_toString2 (ToUint8 (parseInt2 chunk))) 8 = chunk.
Proof.
  intros Hlen Hbits.
  do 8 (destruct chunk as [|? chunk]; [discriminate Hlen |]).
  destruct chunk; [|discriminate Hlen]. clear Hlen.
  unfold isBitString in Hbits.
  repeat (apply Forall_cons in Hbits as [[-> | ->] Hbits]); reflexivity.
Qed.

Lemma byte_range (chunk : jsstring) : 0 ≤ ToUint8 (parseInt2 chunk) < 256.
Proof.
  unfold ToUint8. destruct (parseInt2 chunk); [|lia].
  apply Z.mod_pos_bound. lia.
Qed.

Lemma packBytes_chunk (chunk s : jsstring) :
  length chunk = 8%nat →
  packBytes (chunk ++ s) = ToUint8 (parseInt2 chunk) :: packBytes s.
Proof.
  intros Hlen. unfold packBytes.
  replace (length (chunk ++ s) / 8)%nat with (S (length s / 8)).
  2:{ rewrite length_app, Hlen.
      change (8 + length s)%nat with (1 * 8 + length s)%nat.
      by rewrite Nat.div_add_l. }
  cbn [seq fmap list_fmap]. f_equal.
  - change (slice (chunk ++ s) (0 * 8) ((0 + 1) * 8)) with (take 8 (chunk ++ s)).
    by rewrite take_app_length'.
  - rewrite <- fmap_S_seq, <- list_fmap_compose. apply list_fmap_ext.
    intros _ i _. cbn [compose]. do 2 f_equal. unfold slice.
    rewrite drop_app_ge by lia. rewrite Hlen.
    replace (S i * 8 - 8)%nat with (i * 8)%nat by lia.
    done.
Qed.

Lemma unpackBytes_concat (bytes : list Z) :
  unpackBytes bytes = concat ((λ b, padStart0 (Number_toString2 b) 8) <$> bytes).
Proof. unfold unpackBytes. by rewrite fold_left_append. Qed.

Lemma packBytes_length (s : jsstring) : length (packBytes s) = (length s / 8)%nat.
Proof. unfold packBytes. by rewrite length_fmap, length_seq. Qed.

(** Unpacking packed bits gives the bits back when they fill whole bytes. *)
Lemma unpack_pack (s : jsstring) :
  isBitString s → (length s mod 8 = 0)%nat → unpackBytes (packBytes s) = s.
Proof.
  intros Hbits Hmod. rewrite unpackBytes_concat.
  assert (∃ k, length s = 8 * k)%nat as [k Hk].
  { exists (length s / 8)%nat. rewrite (Nat.div_mod_eq (length s) 8) at 1. lia. }
  clear Hmod. revert s Hbits Hk. induction k as [|k IH]; intros s Hbits Hk.
  - by destruct s.
  - rewrite <- (take_drop 8 s) in Hbits |- * at 1.
    apply isBitString_app in Hbits as [Hb1 Hb2].
    assert (length (take 8 s) = 8%nat) as Hl1 by (rewrite length_take; lia).
    rewrite packBytes_chunk by done. cbn [fmap list_fmap concat].
    rewrite byte_roundtrip by done. rewrite IH; [| done |].
    + by rewrite take_drop.
    + rewrite length_drop. lia.
Qed.

(** The padding the packer adds completes the last byte. *)
Lemma paddingBits_bounds (len : nat) :
  0 ≤ (8 - Z.of_nat len mod 8) mod 8 ≤ 7.
Proof. pose proof (Z.mod_pos_bound (8 - Z.of_nat len mod 8) 8). lia. Qed.

Lemma padded_length (len : nat) :
  ((len + Z.to_nat ((8 - Z.of_nat len mod 8) mod 8)) mod 8 = 0)%nat.
Proof.
  pose proof (paddingBits_bounds len) as Hp.
  apply Nat2Z.inj. rewrite Nat2Z.inj_mod, Nat2Z.inj_add, Z2Nat.id by lia.
  cbn. rewrite Zplus_mod_idemp_r.
  replace (Z.of_nat len + (8 - Z.of_nat len mod 8))
    with (Z.of_nat len - Z.of_nat len mod 8 + 1 * 8) by lia.
  rewrite Z.mod_add by lia. rewrite Zminus_mod_idemp_r, Z.sub_diag. done.
Qed.

Lemma padEnd0_replicate (s : jsstring) (n : nat) :
  padEnd0 s (length s + n) = s ++ replicate n 48.
Proof. unfold padEnd0. do 2 f_equal. lia. Qed.

Lemma sliceDropLast_app (s : jsstring) (n : nat) :
  sliceDropLast (s ++ replicate n 48) (Z.of_nat n) = s.
Proof.
  unfold sliceDropLast. rewrite length_app, length_replicate.
  replace (Z.to_nat _) with (length s) by lia.
  by rewrite take_app_length.
Qed.

Lemma isBitString_replicate (n : nat) : isBitString (replicate n 48).
Proof. apply Forall_replicate. by left. Qed.

(** ** Compression followed by decompression *)

(** The codes of a built tree with distinct leaves: every leaf symbol is
    looked up to a non-empty bit string, and the concatenated codes of any
    sequence of leaf symbols decode to the sequence. *)
Lemma built_tree_codes (tree : HuffmanNode) (cps : list jsstring) :
  builtShape tree → NoDup (leafChars tree) →
  Forall (λ cp, cp ∈ leafChars tree ∧ cp ≠ js "__proto__") cps →
  let code cp :=
    default (js "undefined") (obj_get cp (generateCodes (Some tree))) in
  Forall (λ cp, isBitString (code cp) ∧ code cp ≠ []) cps ∧
  decodeLoop tree ((λ u, [u]) <$> concat (code <$> cps)) (tree, []) =
  Ok (tree, concat cps).
Proof.
  intros Hshape Hnd Hcps code.
  assert (∀ cp w, cp ≠ js "__proto__" → (cp, w) ∈ leafCodes tree [] →
                  code cp = storedCode w) as Hcode.
  { intros cp w Hproto Hin. unfold code, generateCodes.
    rewrite traverse_assignCodes.
    rewrite (assignCodes_lookup _ _ cp w); [done | done | | done | done].
    apply NoDup_nil_2. }
  destruct Hshape as [(Hc & Hr & l & c & Hl & Hcl) | [Hc Hfull]].
  - (* the one-symbol tree *)
    assert (leafCodes tree [] = [(c, js "0")]) as Hleaves.
    { rewrite leafCodes_unfold, Hc, Hl, Hr. cbn [from_option].
      by rewrite leafCodes_unfold, Hcl. }
    assert (Forall (λ cp, cp = c ∧ code cp = js "0") cps) as Hall.
    { eapply Forall_impl; [exact Hcps |]. intros cp [Hin Hproto].
      unfold leafChars in Hin. rewrite Hleaves in Hin.
      apply list_elem_of_singleton in Hin. cbn in Hin. subst cp.
      split; [done |].
      rewrite (Hcode c (js "0")); [done | done |]. rewrite Hleaves. left. }
    split.
    + eapply Forall_impl; [exact Hall |]. intros cp [_ ->].
      split; [apply isBitString_0 | done].
    + rewrite (decodeLoop_single tree c).
      2:{ unfold isSingleCharacterRoot. by rewrite Hl, Hr. }
      do 2 f_equal. rewrite app_nil_l. clear -Hall.
      induction Hall as [|cp cps [-> Hcp] _ IH]; [done |].
      cbn [fmap list_fmap concat]. rewrite Hcp.
      change (js "0" ++ ?x) with (48 :: x).
      cbn [fmap list_fmap concat]. by rewrite IH.
  - (* two leaves or more *)
    assert (Forall (λ cp, (cp, code cp) ∈ leafCodes tree []) cps) as Hall.
    { eapply Forall_impl; [exact Hcps |]. intros cp [Hin Hproto].
      unfold leafChars in Hin.
      apply list_elem_of_fmap in Hin as ([cp' w] & -> & Hin). cbn [fst] in *.
      rewrite (Hcode _ w) by done.
      by rewrite storedCode_id by by apply (leafCodes_internal_nonempty tree cp'). }
    split.
    + eapply Forall_impl; [exact Hall |]. intros cp Hin. split.
      * eapply leafCodes_isBitString; [|exact Hin]. constructor.
      * by apply (leafCodes_internal_nonempty tree cp).
    + by rewrite decodeLoop_codes.
Qed.

Lemma concat_isBitString (l : list jsstring) :
  Forall isBitString l → isBitString (concat l).
Proof.
  induction 1 as [|s l Hs _ IH]; [constructor |].
  cbn. by apply isBitString_app.
Qed.

(** Unpacking the packed, padded bit string and removing the padding gives
    the bit string back. *)
Lemma unpack_padded (binaryString : jsstring) :
  isBitString binaryString →
  let paddingBits := (8 - Z.of_nat (length binaryString) mod 8) mod 8 in
  let padded :=
    padEnd0 binaryString (length binaryString + Z.to_nat paddingBits) in
  (if 0 <? paddingBits
   then sliceDropLast (unpackBytes (packBytes padded)) paddingBits
   else unpackBytes (packBytes padded)) = binaryString.
Proof.
  intros Hbits p padded. pose proof (paddingBits_bounds (length binaryString)).
  unfold padded. rewrite padEnd0_replicate.
  rewrite unpack_pack.
  - destruct (0 <? p) eqn:Hp.
    + rewrite <- (Z2Nat.id p) at 2 by lia. apply sliceDropLast_app.
    + apply Z.ltb_ge in Hp. replace p with 0 by lia. apply app_nil_r.
  - apply isBitString_app. split; [done | apply isBitString_replicate].
  - rewrite length_app, length_replicate. apply padded_length.
Qed.

(** For every text, [compress] returns and [decompress] gives the text
    back from the payload, the tree and the padding count. *)
Lemma compress_decompress `{Host} (text : jsstring) (nodeIdCounter : Z) :
  ∃ result nodeIdCounter',
    compress text nodeIdCounter = Ok (result, nodeIdCounter') ∧
    buildHuffmanTree (frequencyMap result) nodeIdCounter =
      Ok (tree result, if bool_decide (text = []) then 0 else nodeIdCounter') ∧
    decompress (compressedData result) (tree result) (paddingBits result) =
      Ok {| decompressedText := text; success := true; error := None |}.
Proof.
  unfold compress. case_bool_decide as Htext.
  { subst. by eexists _, _. }
  destruct (calculateFrequencies_keys text) as [Hnd Hkeys].
  destruct (buildHuffmanTree_nonempty (calculateFrequencies text) nodeIdCounter)
    as (root & n' & Hbuild & Hshape & Hleaves).
  { intros Ek. apply Htext, codePoints_nil.
    destruct (codePoints text) as [|cp cps]; [done |]. exfalso.
    specialize (Hkeys cp). rewrite Ek, elem_of_nil in Hkeys. apply Hkeys. left. }
  rewrite Hbuild. eexists _, _. split; [reflexivity |]. cbn [tree frequencyMap].
  split; [done |]. cbn [compressedData paddingBits].
  destruct (built_tree_codes root (codePoints text)) as [Hcodes Hdecode].
  { done. }
  { by rewrite Hleaves. }
  { apply Forall_forall. intros cp Hcp. split.
    - rewrite Hleaves. by apply Hkeys.
    - apply codePoint_not_proto.
      by apply (proj1 (Forall_forall _ _) (codePoints_length text)). }
  rewrite <- encodeText_concat in Hdecode.
  set (binaryString := encodeText (generateCodes (Some root)) text) in *.
  assert (isBitString binaryString) as Hbits.
  { unfold binaryString. rewrite encodeText_concat. apply concat_isBitString.
    apply Forall_fmap. eapply Forall_impl; [exact Hcodes |]. by intros cp [? _]. }
  assert (binaryString ≠ []) as Hne.
  { unfold binaryString. rewrite encodeText_concat.
    destruct (codePoints text) as [|cp cps] eqn:Ecp.
    - by apply codePoints_nil in Ecp.
    - apply Forall_cons in Hcodes as [[_ Hcp] _]. cbn.
      destruct (default _ _); [done | discriminate]. }
  unfold decompress.
  replace (length (packBytes _) =? 0)%nat with false.
  2:{ symmetry. apply Nat.eqb_neq. rewrite packBytes_length.
      rewrite padEnd0_replicate, length_app, length_replicate.
      pose proof (padded_length (length binaryString)) as Hmod.
      pose proof (Nat.div_mod_eq
        (length binaryString +
         Z.to_nat ((8 - Z.of_nat (length binaryString) mod 8) mod 8)) 8).
      destruct binaryString; [done |]. cbn [length] in *. lia. }
  rewrite (unpack_padded binaryString Hbits).
  rewrite codePoints_units by by apply isBitString_no_surrogate.
  by rewrite Hdecode, codePoints_concat.
Qed.

(** ** Decoding never reads a missing child *)

Lemma builtShape_step tree node result bit :
  builtShape tree → builtShape node →
  ∃ node' result',
    decodeStep tree (node, result) bit = Ok (node', result') ∧ builtShape node'.
Proof.
  intros Htree [(Hc & Hr & l & c & Hl & Hcl) | [Hc Hfull]].
  - exists node, (result ++ c). unfold decodeStep, isSingleCharacterRoot.
    rewrite Hl, Hr, Hcl. split; [done |]. left.
    split; [done |]. split; [done |]. by exists l, c.
  - unfold decodeStep. rewrite (full_not_single node Hfull Hc).
    rewrite full_unfold, Hc in Hfull.
    destruct (left node) as [l|]; [|done]. destruct (right node) as [r|]; [|done].
    destruct Hfull as [Hl Hr].
    destruct (bool_decide (bit = js "0")).
    + destruct (char l) as [c|] eqn:Hcl; eexists _, _; (split; [done |]);
        [done | by right].
    + destruct (char r) as [c|] eqn:Hcr; eexists _, _; (split; [done |]);
        [done | by right].
Qed.

Lemma decodeLoop_safe tree bits node result :
  builtShape tree → builtShape node →
  ∃ state, decodeLoop tree bits (node, result) = Ok state.
Proof.
  intros Htree. revert node result.
  induction bits as [|bit bits IH]; intros node result Hnode; cbn [decodeLoop].
  - by eexists.
  - destruct (builtShape_step tree node result bit)
      as (node' & result' & -> & Hnode'); auto.
Qed.

(** On a tree of the built shape, or on no tree, [decompress] returns a
    result, with [success] set and no [error], for any payload and any
    padding count. *)
Lemma decompress_succeeds (compressedData : list Z) (tree : option HuffmanNode)
    (paddingBits : Z) :
  from_option builtShape True tree →
  ∃ text,
    decompress compressedData tree paddingBits =
    Ok {| decompressedText := text; success := true; error := None |}.
Proof.
  intros Htree. unfold decompress. destruct tree as [tree|]; [|by eexists].
  destruct (_ =? _)%nat; [by eexists |].
  match goal with
  | |- context [decodeLoop tree ?bits (tree, [])] =>
    destruct (decodeLoop_safe tree bits tree []) as [[node text] ->]; [done.. |]
  end.
  by eexists.
Qed.

Lemma buildHuffmanTree_total (frequencies : FrequencyMap) (n : Z) :
  ∃ tree n',
    buildHuffmanTree frequencies n = Ok (tree, n') ∧
    from_option builtShape True tree.
Proof.
  pose proof (buildHuffmanTree_spec frequencies n) as H.
  destruct (Object_keys frequencies).
  - by exists None, 0.
  - destruct H as (root & n' & E & Hs & _). by exists (Some root), n'.
Qed.

(** ** The counter does not matter *)

Lemma buildHuffmanTree_counter (frequencies : FrequencyMap) (n1 n2 : Z) :
  buildHuffmanTree frequencies n1 = buildHuffmanTree frequencies n2.
Proof. reflexivity. Qed.

Lemma compress_counter `{Host} (text : jsstring) (n1 n2 : Z) :
  text ≠ [] → compress text n1 = compress text n2.
Proof. intros Hne. unfold compress. by rewrite bool_decide_eq_false_2. Qed.

(** ** The heap property *)

Module MinHeapOrder.
Import MinHeap MinHeapBag.

Lemma freqAt_swap heap i j k :
  (i < length heap)%nat → (j < length heap)%nat →
  freqAt (swap heap i j) k =
  if decide (k = i) then freqAt heap j
  else if decide (k = j) then freqAt heap i
  else freqAt heap k.
Proof.
  intros Hi Hj. unfold swap, freqAt.
  destruct (lookup_lt_is_Some_2 heap i Hi) as [a Ha].
  destruct (lookup_lt_is_Some_2 heap j Hj) as [b Hb].
  rewrite Ha, Hb.
  destruct (decide (k = i)) as [Hki | Hki], (decide (k = j)) as [Hkj | Hkj];
    subst.
  - rewrite list_lookup_insert_eq by by rewrite length_insert.
    rewrite Ha in Hb. by injection Hb as ->.
  - rewrite list_lookup_insert_ne, list_lookup_insert_eq by done. done.
  - rewrite list_lookup_insert_eq by by rewrite length_insert. done.
  - by rewrite !list_lookup_insert_ne by done.
Qed.

(** [bubbleUp] restores the heap property when only the node at [index]
    may be smaller than its parent. *)
Lemma bubbleUp_loop_ordered fuel heap index :
  (index ≤ fuel)%nat → (index < length heap)%nat →
  orderedButAbove heap index →
  heapOrdered (bubbleUp_loop fuel heap index).
Proof.
  revert heap index. induction fuel as [|fuel IH];
    intros heap index Hfuel Hlen [Hothers Hgrand].
  - intros j Hj. apply Hothers; [done | parent_lia].
  - rewrite bubbleUp_loop_S. destruct (Nat.ltb_spec 0 index) as [Hpos | Hzero].
    2:{ intros j Hj. apply Hothers; [done | parent_lia]. }
    destruct (Z.leb_spec (freqAt heap ((index - 1) / 2)) (freqAt heap index))
      as [Hle | Hgt].
    { intros j Hj. destruct (decide (j = index)) as [-> | Hne]; auto. }
    set (p := ((index - 1) / 2)%nat) in *.
    assert (p < index)%nat as Hp by (subst p; parent_lia).
    apply IH; [parent_lia | rewrite swap_length; parent_lia |].
    split.
    + intros j Hj Hjp. rewrite swap_length in Hj.
      rewrite !freqAt_swap by parent_lia.
      destruct (decide (j = p)) as [|_]; [done |].
      destruct (decide (j = index)) as [-> | Hji].
      * fold p. rewrite decide_True by done. parent_lia.
      * destruct (decide ((j - 1) / 2 = p)%nat) as [Hpar | Hpar].
        { specialize (Hothers j Hj Hji). rewrite Hpar in Hothers. parent_lia. }
        destruct (decide ((j - 1) / 2 = index)%nat) as [Hpar' | Hpar'].
        { apply Hgrand; [parent_lia | done | done]. }
        by apply Hothers.
    + intros c Hp0 Hc Hcp. rewrite swap_length in Hc.
      rewrite !freqAt_swap by parent_lia.
      rewrite decide_False by parent_lia. rewrite decide_False by parent_lia.
      pose proof (Hothers p ltac:(parent_lia) ltac:(parent_lia)) as Hpp.
      destruct (decide (c = p)) as [|_]; [parent_lia |].
      destruct (decide (c = index)) as [-> | Hci]; [done |].
      specialize (Hothers c Hc Hci). rewrite Hcp in Hothers. lia.
Qed.

Lemma insert_ordered heap node :
  heapOrdered heap → heapOrdered (insert heap node).
Proof.
  intros Hord. unfold insert, bubbleUp.
  rewrite length_app. cbn [length].
  replace (length heap + 1 - 1)%nat with (length heap) by parent_lia.
  apply bubbleUp_loop_ordered; [done | rewrite length_app; cbn; parent_lia |].
  assert (∀ k, (k < length heap)%nat →
               freqAt (heap ++ [node]) k = freqAt heap k) as Hsame.
  { intros k Hk. unfold freqAt. by rewrite lookup_app_l. }
  split.
  - intros j Hj Hne. rewrite length_app in Hj. cbn in Hj.
    rewrite !Hsame by parent_lia. apply Hord. parent_lia.
  - intros c _ Hc Hcp. rewrite length_app in Hc. cbn in Hc. parent_lia.
Qed.

Lemma smallestOf_cases heap index :
  let s := smallestOf heap index in
  (s = index ∨ s = 2 * index + 1 ∨ s = 2 * index + 2)%nat ∧
  (s < length heap ∨ s = index)%nat ∧
  freqAt heap s ≤ freqAt heap index ∧
  (s ≠ index → freqAt heap s < freqAt heap index) ∧
  ((2 * index + 1 < length heap)%nat →
   freqAt heap s ≤ freqAt heap (2 * index + 1)) ∧
  ((2 * index + 2 < length heap)%nat →
   freqAt heap s ≤ freqAt heap (2 * index + 2)).
Proof.
  unfold smallestOf.
  destruct (Nat.ltb_spec (2 * index + 1) (length heap));
    destruct (Nat.ltb_spec (2 * index + 2) (length heap));
    destruct (Z.ltb_spec (freqAt heap (2 * index + 1)) (freqAt heap index));
    cbn [andb];
    try destruct (Z.ltb_spec (freqAt heap (2 * index + 2))
                             (freqAt heap (2 * index + 1)));
    try destruct (Z.ltb_spec (freqAt heap (2 * index + 2))
                             (freqAt heap index));
    cbn [andb]; repeat split; try parent_lia.
Qed.

(** [bubbleDown] restores the heap property when only the node at
    [index] may be larger than its children. *)
Lemma bubbleDown_loop_ordered fuel heap index :
  (length heap ≤ fuel + index)%nat → (index < length heap)%nat →
  orderedButBelow heap index →
  heapOrdered (bubbleDown_loop fuel heap index).
Proof.
  revert heap index. induction fuel as [|fuel IH];
    intros heap index Hfuel Hlen [Hothers Hgrand].
  - cbn in Hfuel. parent_lia.
  - rewrite bubbleDown_loop_S.
    destruct (smallestOf_cases heap index)
      as (Hcase & Hin & Hle & Hlt & Hleft & Hright).
    set (s := smallestOf heap index) in *.
    destruct (Nat.eqb_spec s index) as [Hs | Hs].
    { intros j Hj.
      destruct (decide ((j - 1) / 2 = index)%nat) as [Hpar | Hpar]; auto.
      rewrite Hpar. rewrite Hs in Hleft, Hright.
      assert (j = 2 * index + 1 ∨ j = 2 * index + 2)%nat as [-> | ->] by parent_lia.
      - apply Hleft. parent_lia.
      - apply Hright. parent_lia. }
    assert (index < s < length heap)%nat as Hsr by parent_lia.
    apply IH; [rewrite swap_length; parent_lia | rewrite swap_length; parent_lia |].
    split.
    + intros j Hj Hjs. rewrite swap_length in Hj.
      rewrite !freqAt_swap by parent_lia.
      destruct (decide ((j - 1) / 2 = s)%nat) as [|_]; [done |].
      destruct (decide (j = s)) as [-> | Hne].
      * rewrite decide_True by parent_lia. parent_lia.
      * destruct (decide ((j - 1) / 2 = index)%nat) as [Hpar | Hpar].
        { destruct (decide (j = index)) as [|_]; [parent_lia |].
          assert (j = 2 * index + 1 ∨ j = 2 * index + 2)%nat as [-> | ->] by parent_lia.
          - apply Hleft. parent_lia.
          - apply Hright. parent_lia. }
        destruct (decide (j = index)) as [-> | Hji]; [|by apply Hothers].
        apply Hgrand; parent_lia.
    + intros c Hs0 Hc Hcs. rewrite swap_length in Hc.
      rewrite !freqAt_swap by parent_lia.
      replace ((s - 1) / 2)%nat with index by parent_lia.
      rewrite decide_False by parent_lia. rewrite decide_True by done.
      rewrite decide_False by parent_lia. rewrite decide_False by parent_lia.
      specialize (Hothers c Hc ltac:(parent_lia)). by rewrite Hcs in Hothers.
Qed.

Lemma extractMin_ordered heap :
  heapOrdered heap → heapOrdered (extractMin heap).2.
Proof.
  intros Hord. destruct heap as [|min rest]; [done |].
  destruct rest as [|x rest]; [by intros i [? ?] |].
  destruct (exists_last (l := x :: rest)) as (body & z & Hbody); [done |].
  rewrite Hbody in *. rewrite extractMin_snoc. cbn [snd].
  unfold bubbleDown. apply bubbleDown_loop_ordered; [parent_lia | cbn; parent_lia |].
  assert (∀ k, (0 < k < S (length body))%nat →
               freqAt (z :: body) k = freqAt (min :: body ++ [z]) k) as Hsame.
  { intros k Hk. unfold freqAt. destruct k as [|k]; [lia |].
    change ((z :: body) !! S k) with (body !! k).
    change ((min :: body ++ [z]) !! S k) with ((body ++ [z]) !! k).
    by rewrite lookup_app_l by lia. }
  split.
  - intros j Hj Hpar. cbn [length] in Hj. rewrite !Hsame by parent_lia.
    apply Hord. cbn. rewrite length_app. cbn. parent_lia.
  - intros c Hlt. parent_lia.
Qed.

(** In an ordered heap the root is a minimum. *)
Lemma heapOrdered_root heap i :
  heapOrdered heap → (i < length heap)%nat → freqAt heap 0 ≤ freqAt heap i.
Proof.
  intros Hord. induction i as [i IH] using lt_wf_ind. intros Hi.
  destruct (decide (i = 0%nat)) as [-> | Hpos]; [done |].
  specialize (IH ((i - 1) / 2)%nat ltac:(parent_lia) ltac:(parent_lia)).
  specialize (Hord i ltac:(lia)). lia.
Qed.

Lemma extractMin_root heap :
  heap ≠ [] → (extractMin heap).1 = heap !! 0%nat.
Proof.
  intros Hne. destruct heap as [|min rest]; [done |].
  destruct rest as [|x rest]; [done |].
  destruct (exists_last (l := x :: rest)) as (body & z & ->); [done |].
  by rewrite extractMin_snoc.
Qed.

Lemma runOps_snoc ops op : runOps (ops ++ [op]) = applyOp (runOps ops) op.
Proof. unfold runOps. by rewrite fold_left_app. Qed.

(** Every array a sequence of calls can produce is an ordered heap. *)
Lemma runOps_ordered ops : heapOrdered (runOps ops).
Proof.
  induction ops as [|op ops IH] using rev_ind.
  - by intros i [? ?].
  - rewrite runOps_snoc. destruct op; cbn [applyOp].
    + by apply insert_ordered.
    + by apply extractMin_ordered.
Qed.

End MinHeapOrder.

(** ** The loops end by their own condition

    Each loop of the source is modelled with a number of turns; the number
    the model passes is enough: more turns change nothing. *)

Module LoopFuel.
Import MinHeap MinHeapBag.

Lemma bubbleUp_loop_enough fuel heap index :
  (index ≤ fuel)%nat →
  bubbleUp_loop (S fuel) heap index = bubbleUp_loop fuel heap index.
Proof.
  revert heap index. induction fuel as [|fuel IH]; intros heap index Hfuel.
  - rewrite bubbleUp_loop_S. by replace index with 0%nat by lia.
  - rewrite (bubbleUp_loop_S (S fuel)), (bubbleUp_loop_S fuel heap index).
    destruct (Nat.ltb_spec 0 index); [|done].
    destruct (_ <=? _); [done |]. apply IH. parent_lia.
Qed.

Lemma smallestOf_out_of_range heap index :
  (length heap ≤ index)%nat → smallestOf heap index = index.
Proof.
  intros Hlen. unfold smallestOf.
  destruct (Nat.ltb_spec (2 * index + 1) (length heap)); [lia |].
  destruct (Nat.ltb_spec (2 * index + 2) (length heap)); [lia |]. done.
Qed.

Lemma bubbleDown_loop_enough fuel heap index :
  (length heap ≤ fuel + index)%nat →
  bubbleDown_loop (S fuel) heap index = bubbleDown_loop fuel heap index.
Proof.
  revert heap index. induction fuel as [|fuel IH]; intros heap index Hfuel.
  - rewrite bubbleDown_loop_S, smallestOf_out_of_range by done.
    by rewrite Nat.eqb_refl.
  - rewrite (bubbleDown_loop_S (S fuel)), (bubbleDown_loop_S fuel heap index).
    destruct (Nat.eqb_spec (smallestOf heap index) index) as [|Hne]; [done |].
    apply IH. rewrite swap_length.
    destruct (MinHeapOrder.smallestOf_cases heap index) as (Hcase & _). lia.
Qed.

Lemma mergeLoop_enough fuel heap n :
  (length heap ≤ S fuel)%nat →
  mergeLoop (S fuel) heap n = mergeLoop fuel heap n.
Proof.
  revert heap n. induction fuel as [|fuel IH]; intros heap n Hfuel.
  - cbn [mergeLoop]. unfold size.
    destruct (Nat.ltb_spec 1 (length heap)); [lia | done].
  - change (mergeLoop (S (S fuel)) heap n)
      with (if (1 <? size heap)%nat then
              let (l, heap) := extractMin heap in
              let (r, heap) := extractMin heap in
              match l, r with
              | Some l, Some r =>
                let (newId, n) := generateNodeId n in
                mergeLoop (S fuel)
                  (insert heap {| char := None; freq := freq l + freq r;
                                  left := Some l; right := Some r;
                                  id := newId |}) n
              | _, _ => Throw TypeError
              end
            else Ok (heap, n)).
    cbn [mergeLoop]. unfold size.
    destruct (Nat.ltb_spec 1 (length heap)) as [Hsize | Hsize]; [|done].
    destruct (extractMin_perm heap) as (l & h1 & -> & Hp1).
    { intros ->. cbn in Hsize. lia. }
    assert (length heap = S (length h1)) as Hl1 by by rewrite Hp1.
    destruct (extractMin_perm h1) as (r & h2 & -> & Hp2).
    { intros ->. cbn in Hl1. lia. }
    assert (length h1 = S (length h2)) as Hl2 by by rewrite Hp2.
    destruct (generateNodeId n) as [newId n1].
    apply IH. rewrite insert_length. lia.
Qed.

End LoopFuel.

(** ** The container *)

Lemma Uint32_bytes_length (n : Z) : length (Uint32_bytes n) = 4%nat.
Proof. reflexivity. Qed.

(** The header reads back as the length it was written from, modulo
    2^32. *)
Lemma getUint32_bytes (n : Z) (rest : list Z) :
  getUint32_0_le (Uint32_bytes n ++ rest) = Ok (n mod 2 ^ 32).
Proof.
  unfold Uint32_bytes. cbn [app getUint32_0_le]. f_equal.
  pose proof (Z.mod_pos_bound n (2 ^ 32) ltac:(lia)) as Hn.
  set (x := n mod 2 ^ 32) in *. clearbody x. clear n.
  change (2 ^ 8) with 256. change (2 ^ 16) with 65536.
  change (2 ^ 24) with 16777216. change (2 ^ 32) with 4294967296 in Hn.
  Z.div_mod_to_equations. lia.
Qed.

Lemma getUint32_short (data : list Z) :
  (length data < 4)%nat → getUint32_0_le data = Throw RangeError.
Proof.
  intros H. do 4 (destruct data as [|? data]; [done |]). cbn in H. lia.
Qed.

(** The header only depends on the first four bytes. *)
Lemma getUint32_take (data : list Z) (n : nat) :
  (4 ≤ n)%nat → getUint32_0_le (take n data) = getUint32_0_le data.
Proof.
  intros H. do 4 (destruct n as [|n]; [lia |]).
  by do 4 (destruct data as [|? data]; [done |]).
Qed.

Section container.
Context `{Host}.

Lemma createCompressedFile_length (result : CompressionResult) :
  length (createCompressedFile result) =
  (4 + length (TextEncoder_encode (JSON_stringify (metadataOf result)))
   + length (compressedData result))%nat.
Proof. unfold createCompressedFile. rewrite !length_app. cbn. lia. Qed.

(** A buffer cut before the end of its metadata is refused. *)
Lemma parseCompressedFile_truncated (data : list Z) (n : nat)
    (metadataLength : Z) :
  getUint32_0_le data = Ok metadataLength →
  Z.of_nat n < 4 + metadataLength →
  parseCompressedFile (take n data) = None.
Proof.
  intros Hheader Hn. unfold parseCompressedFile, parseCompressedFile_try.
  destruct (le_lt_dec 4 n) as [Hge | Hlt].
  - rewrite getUint32_take, Hheader by done.
    unfold Uint8Array_view.
    destruct (Nat.ltb_spec (length (take n data)) (4 + Z.to_nat metadataLength));
      [done |].
    rewrite length_take in *. lia.
  - rewrite getUint32_short; [done |]. rewrite length_take. lia.
Qed.

Lemma parseCompressedFile_short (data : list Z) :
  (length data < 4)%nat → parseCompressedFile data = None.
Proof.
  intros Hlen. unfold parseCompressedFile, parseCompressedFile_try.
  by rewrite getUint32_short.
Qed.

(** Parsing a container splits it where it was joined.  What the host
    owes is that the metadata record survives its trip through JSON text
    and UTF-8; the header holds the metadata length when it fits 32
    bits. *)
Lemma parseCompressedFile_create (result : CompressionResult) :
  let metadataBytes := TextEncoder_encode (JSON_stringify (metadataOf result)) in
  JSON_parse (TextDecoder_decode metadataBytes) = Ok (metadataOf result) →
  Z.of_nat (length metadataBytes) < 2 ^ 32 →
  parseCompressedFile (createCompressedFile result) =
  Some {| Parsed.compressedData := compressedData result;
          Parsed.codeMap := Some (CodeMap_toJS (codeMap result));
          Parsed.paddingBits := Some (JNumber (paddingBits result));
          Parsed.frequencyMap :=
            Some (FrequencyMap_toJS (frequencyMap result)) |}.
Proof.
  intros metadataBytes Hjson Hlen.
  unfold parseCompressedFile, parseCompressedFile_try, createCompressedFile.
  fold metadataBytes. rewrite getUint32_bytes.
  rewrite Z.mod_small by lia. rewrite Nat2Z.id.
  unfold Uint8Array_view. rewrite !length_app, Uint32_bytes_length.
  destruct (Nat.ltb_spec (4 + (length metadataBytes + length (compressedData result)))
                         (4 + length metadataBytes)); [lia |].
  change 4%nat with (length (Uint32_bytes (Z.of_nat (length metadataBytes)))) at 1.
  rewrite drop_app_length, take_app_length, Hjson.
  destruct (Nat.ltb_spec (4 + (length metadataBytes + length (compressedData result)))
                         (4 + length metadataBytes)); [lia |].
  rewrite app_assoc, drop_app_length'.
  2:{ rewrite length_app, Uint32_bytes_length. lia. }
  reflexivity.
Qed.

End container.

Lemma FrequencyMap_toJS_inj (m1 m2 : FrequencyMap) :
  FrequencyMap_toJS m1 = FrequencyMap_toJS m2 → m1 = m2.
Proof.
  unfold FrequencyMap_toJS. intros [= Heq]. revert m2 Heq.
  induction m1 as [|[k1 v1] m1 IH]; intros [|[k2 v2] m2]; cbn; try done.
  intros [= -> -> Heq]. f_equal. by apply IH.
Qed.

(** ** The reference host: UTF-8 *)

Module ReferenceUtf8.
Import ReferenceHost.

Lemma leadByte_1 b :
  0 ≤ b ≤ 0x7F → leadByte b = (initialState, Some b).
Proof.
  intros Hb. unfold leadByte.
  destruct (Z.leb_spec 0 b); [|lia]. destruct (Z.leb_spec b 0x7F); [|lia].
  done.
Qed.

Lemma leadByte_2 b :
  0xC2 ≤ b ≤ 0xDF →
  leadByte b =
  ({| codePoint := b mod 0x20; bytesSeen := 0; bytesNeeded := 1;
      lowerBoundary := 0x80; upperBoundary := 0xBF |}, None).
Proof.
  intros Hb. unfold leadByte.
  destruct (Z.leb_spec b 0x7F); [lia |]. rewrite andb_false_r.
  destruct (Z.leb_spec 0xC2 b); [|lia]. destruct (Z.leb_spec b 0xDF); [|lia].
  done.
Qed.

Lemma leadByte_3 b :
  0xE0 ≤ b ≤ 0xEF →
  leadByte b =
  ({| codePoint := b mod 0x10; bytesSeen := 0; bytesNeeded := 2;
      lowerBoundary := if b =? 0xE0 then 0xA0 else 0x80;
      upperBoundary := if b =? 0xED then 0x9F else 0xBF |}, None).
Proof.
  intros Hb. unfold leadByte.
  destruct (Z.leb_spec b 0x7F); [lia |]. rewrite andb_false_r.
  destruct (Z.leb_spec b 0xDF); [lia |]. rewrite andb_false_r.
  destruct (Z.leb_spec 0xE0 b); [|lia]. destruct (Z.leb_spec b 0xEF); [|lia].
  done.
Qed.

Lemma leadByte_4 b :
  0xF0 ≤ b ≤ 0xF4 →
  leadByte b =
  ({| codePoint := b mod 0x08; bytesSeen := 0; bytesNeeded := 3;
      lowerBoundary := if b =? 0xF0 then 0x90 else 0x80;
      upperBoundary := if b =? 0xF4 then 0x8F else 0xBF |}, None).
Proof.
  intros Hb. unfold leadByte.
  destruct (Z.leb_spec b 0x7F); [lia |]. rewrite andb_false_r.
  destruct (Z.leb_spec b 0xDF); [lia |]. rewrite andb_false_r.
  destruct (Z.leb_spec b 0xEF); [lia |]. rewrite andb_false_r.
  destruct (Z.leb_spec 0xF0 b); [|lia]. destruct (Z.leb_spec b 0xF4); [|lia].
  done.
Qed.

Lemma decodeBytes_lead b rest :
  decodeBytes (b :: rest) initialState =
  from_option (λ c, [c]) [] (leadByte b).2 ++ decodeBytes rest (leadByte b).1.
Proof. cbn [decodeBytes]. by destruct (leadByte b). Qed.

(** A continuation byte that is not the last of its sequence. *)
Lemma decodeBytes_more b rest st :
  bytesNeeded st ≠ 0 → lowerBoundary st ≤ b ≤ upperBoundary st →
  bytesSeen st + 1 ≠ bytesNeeded st →
  decodeBytes (b :: rest) st =
  decodeBytes rest
    {| codePoint := codePoint st * 0x40 + b mod 0x40;
       bytesSeen := bytesSeen st + 1; bytesNeeded := bytesNeeded st;
       lowerBoundary := 0x80; upperBoundary := 0xBF |}.
Proof.
  intros Hn Hb Hs. cbn [decodeBytes].
  destruct (Z.eqb_spec (bytesNeeded st) 0); [done |].
  destruct (Z.leb_spec (lowerBoundary st) b); [|lia].
  destruct (Z.leb_spec b (upperBoundary st)); [|lia]. cbn [andb].
  by destruct (Z.eqb_spec (bytesSeen st + 1) (bytesNeeded st)).
Qed.

(** The last continuation byte of a sequence. *)
Lemma decodeBytes_last b rest st :
  bytesNeeded st ≠ 0 → lowerBoundary st ≤ b ≤ upperBoundary st →
  bytesSeen st + 1 = bytesNeeded st →
  decodeBytes (b :: rest) st =
  (codePoint st * 0x40 + b mod 0x40) :: decodeBytes rest initialState.
Proof.
  intros Hn Hb Hs. cbn [decodeBytes].
  destruct (Z.eqb_spec (bytesNeeded st) 0); [done |].
  destruct (Z.leb_spec (lowerBoundary st) b); [|lia].
  destruct (Z.leb_spec b (upperBoundary st)); [|lia]. cbn [andb].
  by destruct (Z.eqb_spec (bytesSeen st + 1) (bytesNeeded st)).
Qed.

(** The decoder reads the encoding of a scalar value back. *)
Lemma decodeBytes_utf8Bytes c rest :
  0 ≤ c < 0x110000 → ¬ (0xD800 ≤ c ≤ 0xDFFF) →
  decodeBytes (utf8Bytes c ++ rest) initialState =
  c :: decodeBytes rest initialState.
Proof.
  intros Hc Hsur. unfold utf8Bytes.
  destruct (Z.ltb_spec c 0x80).
  { cbn [app]. rewrite decodeBytes_lead, leadByte_1 by lia. done. }
  destruct (Z.ltb_spec c 0x800).
  { cbn [app]. rewrite decodeBytes_lead, leadByte_2.
    2:{ Z.div_mod_to_equations. lia. }
    cbn [fst snd from_option app].
    rewrite decodeBytes_last; cbn [bytesNeeded bytesSeen lowerBoundary upperBoundary codePoint];
      [| lia | Z.div_mod_to_equations; lia | lia ].
    f_equal. Z.div_mod_to_equations. lia. }
  destruct (Z.ltb_spec c 0x10000).
  { cbn [app]. rewrite decodeBytes_lead, leadByte_3.
    2:{ Z.div_mod_to_equations. lia. }
    cbn [fst snd from_option app].
    rewrite decodeBytes_more;
      cbn [bytesNeeded bytesSeen lowerBoundary upperBoundary codePoint];
      [| lia | | lia ].
    2:{ destruct (Z.eqb_spec (0xE0 + c / 0x1000) 0xE0);
          destruct (Z.eqb_spec (0xE0 + c / 0x1000) 0xED);
          Z.div_mod_to_equations; lia. }
    rewrite decodeBytes_last;
      cbn [bytesNeeded bytesSeen lowerBoundary upperBoundary codePoint];
      [| lia | Z.div_mod_to_equations; lia | lia ].
    f_equal. Z.div_mod_to_equations. lia. }
  cbn [app]. rewrite decodeBytes_lead, leadByte_4.
  2:{ Z.div_mod_to_equations. lia. }
  cbn [fst snd from_option app].
  rewrite decodeBytes_more;
    cbn [bytesNeeded bytesSeen lowerBoundary upperBoundary codePoint];
    [| lia | | lia ].
  2:{ destruct (Z.eqb_spec (0xF0 + c / 0x40000) 0xF0);
        destruct (Z.eqb_spec (0xF0 + c / 0x40000) 0xF4);
        Z.div_mod_to_equations; lia. }
  rewrite decodeBytes_more;
    cbn [bytesNeeded bytesSeen lowerBoundary upperBoundary codePoint];
    [| lia | Z.div_mod_to_equations; lia | lia ].
  rewrite decodeBytes_last;
    cbn [bytesNeeded bytesSeen lowerBoundary upperBoundary codePoint];
    [| lia | Z.div_mod_to_equations; lia | lia ].
  f_equal. Z.div_mod_to_equations. lia.
Qed.

Lemma isHighSurrogate_range u :
  isHighSurrogate u = true ↔ 0xD800 ≤ u ≤ 0xDBFF.
Proof. unfold isHighSurrogate. rewrite andb_true_iff, !Z.leb_le. done. Qed.

Lemma isLowSurrogate_range u :
  isLowSurrogate u = true ↔ 0xDC00 ≤ u ≤ 0xDFFF.
Proof. unfold isLowSurrogate. rewrite andb_true_iff, !Z.leb_le. done. Qed.

Lemma isHighSurrogate_false u :
  isHighSurrogate u = false ↔ ¬ (0xD800 ≤ u ≤ 0xDBFF).
Proof. rewrite <- isHighSurrogate_range. by destruct (isHighSurrogate u). Qed.

Lemma isLowSurrogate_false u :
  isLowSurrogate u = false ↔ ¬ (0xDC00 ≤ u ≤ 0xDFFF).
Proof. rewrite <- isLowSurrogate_range. by destruct (isLowSurrogate u). Qed.

Lemma scalarValue_range cp :
  wellFormedCodePoint cp →
  0 ≤ scalarValue cp < 0x110000 ∧ ¬ (0xD800 ≤ scalarValue cp ≤ 0xDFFF).
Proof.
  destruct cp as [|u [|v [|? ?]]]; try done; cbn [wellFormedCodePoint scalarValue].
  - intros (Hu & Hh & Hl). rewrite Hh, Hl. cbn [orb].
    apply isHighSurrogate_false in Hh. apply isLowSurrogate_false in Hl. lia.
  - intros [Hh%isHighSurrogate_range Hl%isLowSurrogate_range]. lia.
Qed.

Lemma utf16Units_scalarValue cp :
  wellFormedCodePoint cp → utf16Units (scalarValue cp) = cp.
Proof.
  destruct cp as [|u [|v [|? ?]]]; try done; cbn [wellFormedCodePoint scalarValue].
  - intros (Hu & Hh & Hl). rewrite Hh, Hl. cbn [orb]. unfold utf16Units.
    by destruct (Z.ltb_spec u 0x10000); [|lia].
  - intros [Hh%isHighSurrogate_range Hl%isLowSurrogate_range].
    unfold utf16Units.
    destruct (Z.ltb_spec (0x10000 + (u - 0xD800) * 0x400 + (v - 0xDC00)) 0x10000);
      [lia |].
    f_equal; [|f_equal]; Z.div_mod_to_equations; lia.
Qed.

Lemma decodeBytes_encode s :
  wellFormed s →
  decodeBytes (encode s) initialState = scalarValue <$> codePoints s.
Proof.
  unfold wellFormed, encode. induction 1 as [|cp cps Hcp _ IH]; [done |].
  cbn [flat_map fmap list_fmap].
  destruct (scalarValue_range cp Hcp) as [Hr Hs].
  by rewrite decodeBytes_utf8Bytes, IH.
Qed.

(** A well-formed string that starts with an ASCII character survives
    encoding and decoding. *)
Lemma decode_encode u s :
  0 ≤ u < 0x80 → wellFormed (u :: s) → decode (encode (u :: s)) = u :: s.
Proof.
  intros Hu Hwf. unfold decode.
  assert (∃ bytes, encode (u :: s) = u :: bytes) as [bytes Hbytes].
  { unfold encode. destruct s as [|v s].
    - exists []. cbn. unfold utf8Bytes.
      destruct (isHighSurrogate u || isLowSurrogate u) eqn:E.
      + apply orb_true_iff in E as [E%isHighSurrogate_range | E%isLowSurrogate_range]; lia.
      + by destruct (Z.ltb_spec u 0x80); [|lia].
    - rewrite codePoints_cons2.
      replace (isHighSurrogate u) with false
        by (symmetry; apply isHighSurrogate_false; lia).
      cbn [andb flat_map scalarValue].
      replace (isHighSurrogate u) with false
        by (symmetry; apply isHighSurrogate_false; lia).
      replace (isLowSurrogate u) with false
        by (symmetry; apply isLowSurrogate_false; lia).
      cbn [orb]. unfold utf8Bytes at 1.
      destruct (Z.ltb_spec u 0x80); [|lia]. by eexists. }
  rewrite Hbytes.
  assert (match u :: bytes with
          | 0xEF :: 0xBB :: 0xBF :: rest => rest
          | _ => u :: bytes
          end = u :: bytes) as ->.
  { destruct (Z.eq_dec u 0xEF) as [-> | Hne]; [lia |].
    destruct u as [|p|p]; try done.
    do 8 (destruct p as [p|p|]; try done). }
  rewrite <- Hbytes, decodeBytes_encode by done.
  rewrite <- (codePoints_concat (u :: s)) at 2.
  unfold wellFormed in Hwf. induction Hwf as [|cp cps Hcp _ IH]; [done |].
  cbn [fmap list_fmap flat_map concat].
  by rewrite utf16Units_scalarValue, IH.
Qed.

End ReferenceUtf8.

(** ** Array-index keys *)

Lemma digitsValue_acc (s : jsstring) (acc : Z) :
  fold_left (λ acc u, 10 * acc + (u - 48)) s acc =
  acc * 10 ^ Z.of_nat (length s) + digitsValue s.
Proof.
  unfold digitsValue. revert acc. induction s as [|u s IH]; intros acc.
  - cbn. lia.
  - cbn [fold_left length]. rewrite IH, (IH (10 * 0 + (u - 48))).
    rewrite Nat2Z.inj_succ, Z.pow_succ_r by lia. lia.
Qed.

Lemma digitsValue_cons (u : Z) (s : jsstring) :
  digitsValue (u :: s) = (u - 48) * 10 ^ Z.of_nat (length s) + digitsValue s.
Proof. unfold digitsValue at 1. cbn [fold_left]. rewrite digitsValue_acc. lia. Qed.

Lemma isDigit_range (u : Z) : isDigit u = true ↔ 48 ≤ u ≤ 57.
Proof. unfold isDigit. rewrite andb_true_iff, !Z.leb_le. done. Qed.

Lemma digitsValue_bound (s : jsstring) :
  forallb isDigit s = true → 0 ≤ digitsValue s < 10 ^ Z.of_nat (length s).
Proof.
  induction s as [|u s IH]; [cbn; lia |].
  cbn [forallb]. intros [Hu%isDigit_range Hs]%andb_true_iff.
  rewrite digitsValue_cons. specialize (IH Hs). cbn [length].
  rewrite Nat2Z.inj_succ, Z.pow_succ_r by lia. nia.
Qed.

(** Digit strings of one length are equal when their values are. *)
Lemma digitsValue_inj_length (s1 s2 : jsstring) :
  forallb isDigit s1 = true → forallb isDigit s2 = true →
  length s1 = length s2 → digitsValue s1 = digitsValue s2 → s1 = s2.
Proof.
  revert s2. induction s1 as [|u1 s1 IH]; intros [|u2 s2]; try done.
  cbn [forallb length].
  intros [Hu1%isDigit_range Hs1]%andb_true_iff
         [Hu2%isDigit_range Hs2]%andb_true_iff [= Hlen].
  rewrite !digitsValue_cons, Hlen.
  pose proof (digitsValue_bound s1 Hs1) as Hb1.
  pose proof (digitsValue_bound s2 Hs2) as Hb2. rewrite Hlen in Hb1.
  intros Hv. assert (u1 = u2) as -> by nia.
  f_equal. apply IH; [done | done | done | lia].
Qed.

(** What [arrayIndex] accepts: digits, no leading zero on two digits or
    more. *)
Lemma arrayIndex_Some (k : jsstring) (n : Z) :
  arrayIndex k = Some n →
  ∃ u rest, k = u :: rest ∧ forallb isDigit k = true ∧
            (u ≠ 48 ∨ rest = []) ∧ n = digitsValue k.
Proof.
  unfold arrayIndex. destruct k as [|u rest]; [done |].
  destruct (_ && _) eqn:E; [|done]. intros [= <-].
  apply andb_true_iff in E as [E _]. apply andb_true_iff in E as [E _].
  apply andb_true_iff in E as [Hd Hz].
  exists u, rest. split; [done |]. split; [done |]. split; [|done].
  apply orb_true_iff in Hz as [Hz | Hz].
  - left. intros ->. done.
  - right. by apply bool_decide_eq_true in Hz.
Qed.

Lemma canonical_digits_lower (u : Z) (rest : jsstring) :
  forallb isDigit (u :: rest) = true → u ≠ 48 →
  10 ^ Z.of_nat (length rest) ≤ digitsValue (u :: rest).
Proof.
  cbn [forallb]. intros [Hu%isDigit_range Hs]%andb_true_iff Hne.
  rewrite digitsValue_cons. pose proof (digitsValue_bound rest Hs). nia.
Qed.

(** Two keys that denote the same array index are the same key. *)
Lemma arrayIndex_inj (k1 k2 : jsstring) (n : Z) :
  arrayIndex k1 = Some n → arrayIndex k2 = Some n → k1 = k2.
Proof.
  intros (u1 & r1 & -> & Hd1 & Hz1 & Hn1)%arrayIndex_Some
         (u2 & r2 & -> & Hd2 & Hz2 & Hn2)%arrayIndex_Some.
  apply digitsValue_inj_length; [done | done | | congruence].
  pose proof (digitsValue_bound _ Hd1) as Hb1.
  pose proof (digitsValue_bound _ Hd2) as Hb2.
  cbn [length] in *. rewrite !Nat2Z.inj_succ, !Z.pow_succ_r in * by lia.
  assert (∀ u r, forallb isDigit (u :: r) = true → (u ≠ 48 ∨ r = []) →
                 digitsValue (u :: r) = 0 → r = []) as Hzero.
  { intros u r Hd [Hu | ->] Hv; [|done].
    pose proof (canonical_digits_lower u r Hd Hu).
    pose proof (Z.pow_pos_nonneg 10 (Z.of_nat (length r))
                  ltac:(lia) ltac:(lia)). exfalso. lia. }
  assert (∀ u r, forallb isDigit (u :: r) = true → (u ≠ 48 ∨ r = []) →
                 10 ^ Z.of_nat (length r) ≤ digitsValue (u :: r)
                 ∨ (r = [] ∧ digitsValue (u :: r) = 0)) as Hlow.
  { intros u r Hd [Hu | ->].
    - left. by apply canonical_digits_lower.
    - cbn [forallb] in Hd. apply andb_true_iff in Hd as [Hu%isDigit_range _].
      unfold digitsValue. cbn.
      destruct (Z.eq_dec u 48) as [-> | Hne]; [by right | left; lia]. }
  destruct (Hlow u1 r1 Hd1 Hz1) as [Hl1 | [-> Hv1]];
    destruct (Hlow u2 r2 Hd2 Hz2) as [Hl2 | [-> Hv2]].
  - f_equal. apply Nat2Z.inj.
    destruct (Z.lt_trichotomy (Z.of_nat (length r1)) (Z.of_nat (length r2)))
      as [Hlt | [Heq | Hgt]]; [exfalso | done | exfalso].
    + pose proof (Z.pow_le_mono_r 10 (Z.of_nat (length r1) + 1)
                    (Z.of_nat (length r2)) ltac:(lia) ltac:(lia)) as Hp.
      rewrite Z.pow_add_r in Hp by lia. lia.
    + pose proof (Z.pow_le_mono_r 10 (Z.of_nat (length r2) + 1)
                    (Z.of_nat (length r1)) ltac:(lia) ltac:(lia)) as Hp.
      rewrite Z.pow_add_r in Hp by lia. lia.
  - f_equal. rewrite (Hzero u1 r1 Hd1 Hz1); [done | congruence].
  - f_equal. rewrite (Hzero u2 r2 Hd2 Hz2); [done | congruence].
  - done.
Qed.

(** ** Objects keep their keys in order *)

Section object_order.
Context {V : Type}.
Implicit Types (o : JSObject V) (k : jsstring) (v : V).

Lemma keyBefore_index_l k1 k2 a :
  arrayIndex k1 = Some a → keyBefore k1 k2 ↔
  match arrayIndex k2 with Some b => a < b | None => True end.
Proof. intros H. unfold keyBefore. by rewrite H. Qed.

Lemma keyBefore_other_r k1 k2 :
  arrayIndex k2 = None → keyBefore k1 k2.
Proof. intros H. unfold keyBefore. rewrite H. by destruct (arrayIndex k1). Qed.

Lemma obj_insertIndex_keys_elem n k v o k' :
  k' ∈ Object_keys (obj_insertIndex n k v o) ↔ k' = k ∨ k' ∈ Object_keys o.
Proof.
  unfold Object_keys. rewrite obj_insertIndex_perm. cbn. apply elem_of_cons.
Qed.

Lemma obj_insertIndex_sorted n k v o :
  arrayIndex k = Some n → k ∉ Object_keys o →
  StronglySorted keyBefore (Object_keys o) →
  StronglySorted keyBefore (Object_keys (obj_insertIndex n k v o)).
Proof.
  intros Hk. unfold Object_keys.
  induction o as [|[k' v'] o IH]; cbn [obj_insertIndex fmap list_fmap fst];
    intros Hnotin Hsorted.
  - repeat constructor.
  - apply not_elem_of_cons in Hnotin as [Hne Hnotin].
    apply StronglySorted_inv in Hsorted as [Hsorted Hhead].
    assert (keyBefore k k' → StronglySorted keyBefore (k :: k' :: o.*1)) as Hfront.
    { intros Hkk'. constructor; [by constructor |]. constructor; [done |].
      eapply Forall_impl; [exact Hhead |]. intros x Hx. cbn in Hx.
      unfold keyBefore in *. rewrite Hk in *.
      destruct (arrayIndex k'), (arrayIndex x); try done; lia. }
    destruct (arrayIndex k') as [n'|] eqn:Hk'.
    + destruct (Z.ltb_spec n' n) as [Hlt | Hge].
      * cbn [fmap list_fmap fst]. constructor; [by apply IH |].
        apply Forall_forall. intros x Hx.
        apply (obj_insertIndex_keys_elem n k v o x) in Hx as [-> | Hx].
        -- unfold keyBefore. by rewrite Hk', Hk.
        -- by apply (proj1 (Forall_forall _ _) Hhead).
      * apply Hfront. unfold keyBefore. rewrite Hk, Hk'.
        destruct (Z.eq_dec n n') as [<- | ?]; [|lia].
        exfalso. apply Hne. by apply (arrayIndex_inj _ _ n).
    + apply Hfront. unfold keyBefore. by rewrite Hk, Hk'.
Qed.

Lemma obj_define_isObject k v o : isObject o → isObject (obj_define k v o).
Proof.
  intros [Hnd Hsorted]. split; [by apply obj_define_NoDup |].
  unfold obj_define, obj_has. case_bool_decide as Hin.
  - by rewrite obj_update_keys.
  - destruct (arrayIndex k) as [n|] eqn:Hk.
    + by apply obj_insertIndex_sorted.
    + unfold Object_keys in *. rewrite fmap_app. cbn.
      clear Hin Hnd. induction Hsorted as [|x l _ IH Hx]; [repeat constructor |].
      cbn. constructor; [done |]. apply Forall_app. split; [done |].
      constructor; [|done]. by apply keyBefore_other_r.
Qed.

Lemma obj_set_isObject k v o : isObject o → isObject (obj_set k v o).
Proof.
  intros Ho. unfold obj_set. destruct (_ && _); [done |].
  by apply obj_define_isObject.
Qed.

Lemma isObject_nil : isObject ([] : JSObject V).
Proof. split; constructor. Qed.

(** A new array index larger than all the keys goes to the end. *)
Lemma obj_insertIndex_append n k v o :
  Forall (λ kv, ∃ a, arrayIndex kv.1 = Some a ∧ a < n) o →
  obj_insertIndex n k v o = o ++ [(k, v)].
Proof.
  induction 1 as [|[k' v'] o (a & Ha & Hlt) _ IH]; [done |].
  cbn [obj_insertIndex fst] in *. rewrite Ha.
  destruct (Z.ltb_spec a n); [|lia]. by rewrite IH.
Qed.

(** Defining the properties of an object one by one, in their order,
    builds the object again. *)
Lemma obj_define_rebuild (pre post : JSObject V) :
  isObject (pre ++ post) →
  fold_left (λ acc kv, obj_define kv.1 kv.2 acc) post pre = pre ++ post.
Proof.
  revert pre. induction post as [|[k v] post IH]; intros pre Hobj.
  - by rewrite app_nil_r.
  - cbn [fold_left fst snd].
    assert (obj_define k v pre = pre ++ [(k, v)]) as ->.
    { destruct Hobj as [Hnd Hsorted]. unfold Object_keys in *.
      rewrite fmap_app in Hnd, Hsorted. cbn in Hnd, Hsorted.
      apply NoDup_app in Hnd as (_ & Hdisj & _).
      unfold obj_define, obj_has. rewrite bool_decide_eq_false_2.
      2:{ intros Hin. apply (Hdisj k Hin). left. }
      destruct (arrayIndex k) as [n|] eqn:Hk; [|done].
      apply obj_insertIndex_append. apply Forall_forall. intros [k' v'] Hin.
      cbn. clear Hdisj IH.
      induction pre as [|[k0 v0] pre IHpre]; [by apply elem_of_nil in Hin |].
      cbn in Hsorted. apply StronglySorted_inv in Hsorted as [Hsorted Hhead].
      apply elem_of_cons in Hin as [[= -> ->] | Hin]; [|by apply IHpre].
      apply Forall_app in Hhead as [_ Hhead].
      apply Forall_cons in Hhead as [Hhead _].
      unfold keyBefore in Hhead. rewrite Hk in Hhead.
      destruct (arrayIndex k0) as [a|]; [by exists a | done]. }
    rewrite IH; [by rewrite <- app_assoc |]. by rewrite <- app_assoc.
Qed.

End object_order.

Lemma calculateFrequencies_isObject (text : jsstring) :
  isObject (calculateFrequencies text).
Proof.
  unfold calculateFrequencies.
  generalize (codePoints text). intros cps.
  assert (isObject ([] : FrequencyMap)) as Hnil by apply isObject_nil.
  revert Hnil. generalize ([] : FrequencyMap).
  induction cps as [|cp cps IH]; intros f Hf; [done |].
  cbn [fold_left]. apply IH. by apply obj_set_isObject.
Qed.

Lemma calculateFrequencies_positive (text : jsstring) :
  Forall (λ kv, 0 < kv.2) (calculateFrequencies text).
Proof.
  unfold calculateFrequencies.
  generalize (codePoints text). intros cps.
  assert (Forall (λ kv : jsstring * Z, 0 < kv.2) []) as Hnil by constructor.
  assert (NoDup (Object_keys ([] : FrequencyMap))) as Hnd by constructor.
  revert Hnil Hnd. generalize ([] : FrequencyMap).
  induction cps as [|cp cps IH]; intros f Hf Hnd; [done |].
  cbn [fold_left]. apply IH; [|by apply obj_set_NoDup].
  apply Forall_forall. intros [k v] Hin.
  apply obj_get_elem_of in Hin; [|by apply obj_set_NoDup].
  destruct (decide (k = cp)) as [-> | Hne].
  - apply obj_get_set_eq in Hin as ->; [|done]. cbn.
    destruct (obj_get cp f) as [old|] eqn:Hold; cbn; [|lia].
    apply obj_get_Some in Hold.
    pose proof (proj1 (Forall_forall _ _) Hf _ Hold) as Hpos. cbn in Hpos. lia.
  - rewrite obj_get_set_ne in Hin by done. apply obj_get_Some in Hin.
    by apply (proj1 (Forall_forall _ _) Hf _ Hin).
Qed.

(** ** The reference host: JSON strings and numbers *)

Module ReferenceJsonAtoms.
Import ReferenceHost ReferenceUtf8.

(** *** Code points of 16-bit strings *)

Lemma codePoints_cons_other (u : Z) (s : jsstring) :
  isHighSurrogate u = false → codePoints (u :: s) = [u] :: codePoints s.
Proof.
  intros Hu. destruct s as [|v s]; [done |].
  rewrite codePoints_cons2, Hu. done.
Qed.

Lemma codePoints_isCodePoint16 (s : jsstring) :
  isString16 s → Forall isCodePoint16 (codePoints s).
Proof.
  induction s as [|u s IH1 IH2] using jsstring_pair_ind; [constructor |].
  intros [Hu Hs]%Forall_cons.
  destruct s as [|v s']; [cbn; constructor; [exact Hu | constructor] |].
  rewrite codePoints_cons2.
  destruct (isHighSurrogate u && isLowSurrogate v) eqn:E.
  - apply andb_true_iff in E. constructor; [done |].
    apply (IH2 v s' eq_refl). by apply Forall_cons in Hs as [_ ?].
  - constructor; [done | by apply IH1].
Qed.

(** *** Closed text *)

Lemma closedText_nil : closedText [].
Proof. split; [constructor | done]. Qed.

Lemma closedText_app (s t : jsstring) :
  closedText s → closedText t → closedText (s ++ t).
Proof.
  intros [Hs Hs'] [Ht Ht']. split.
  - unfold wellFormed. rewrite Hs'. by apply Forall_app.
  - intros r. by rewrite <- app_assoc, Hs', Ht', Hs', app_assoc.
Qed.

Lemma closedText_unit (u : Z) :
  0 ≤ u < 0x10000 → isHighSurrogate u = false → isLowSurrogate u = false →
  closedText [u].
Proof.
  intros Hu Hh Hl. split.
  - unfold wellFormed. cbn. constructor; [done | constructor].
  - intros t. change ([u] ++ t) with (u :: t).
    by rewrite (codePoints_cons_other u t).
Qed.

Lemma closedText_pair (u v : Z) :
  isHighSurrogate u = true → isLowSurrogate v = true → closedText [u; v].
Proof.
  intros Hu Hv. split.
  - unfold wellFormed. cbn. rewrite Hu, Hv. cbn.
    constructor; [done | constructor].
  - intros t. cbn [app]. rewrite codePoints_cons2, Hu, Hv. cbn.
    by rewrite Hu, Hv.
Qed.

(** Characters below U+D800, ASCII among them, make closed text. *)
Lemma closedText_low (s : jsstring) :
  Forall (λ u, 0 ≤ u < 0xD800) s → closedText s.
Proof.
  induction 1 as [|u s Hu _ IH]; [apply closedText_nil |].
  change (u :: s) with ([u] ++ s). apply closedText_app; [|done].
  apply closedText_unit; [lia | |].
  - apply isHighSurrogate_false. lia.
  - apply isLowSurrogate_false. lia.
Qed.

(** Literal text. *)
Lemma closedText_literal (s : jsstring) :
  forallb (λ u, (0 <=? u) && (u <? 0xD800)) s = true → closedText s.
Proof.
  intros H. apply closedText_low. apply Forall_forall. intros u Hu.
  rewrite forallb_forall in H. apply list_elem_of_In in Hu.
  specialize (H u Hu). apply andb_true_iff in H as [?%Z.leb_le ?%Z.ltb_lt].
  done.
Qed.

Lemma closedText_concat (l : list jsstring) :
  Forall closedText l → closedText (concat l).
Proof.
  induction 1 as [|s l Hs _ IH]; [apply closedText_nil |].
  cbn. by apply closedText_app.
Qed.

(** *** Strings *)

Lemma hexValue_hexDigit (d : Z) : 0 ≤ d < 16 → hexValue (hexDigit d) = Some d.
Proof.
  intros Hd. unfold hexDigit, hexValue, isDigit.
  destruct (Z.ltb_spec d 10).
  - destruct (Z.leb_spec 48 (48 + d)); [|lia].
    destruct (Z.leb_spec (48 + d) 57); [|lia]. cbn. f_equal. lia.
  - destruct (Z.leb_spec (87 + d) 57); [lia |]. rewrite andb_false_r.
    destruct (Z.leb_spec 97 (87 + d)); [|lia].
    destruct (Z.leb_spec (87 + d) 102); [|lia]. cbn. f_equal. lia.
Qed.

Lemma hexDigit_range (d : Z) : 0 ≤ d < 16 → 48 ≤ hexDigit d ≤ 102.
Proof. intros Hd. unfold hexDigit. destruct (Z.ltb_spec d 10); lia. Qed.

Lemma parseStringBody_escape (u : Z) (tail acc : jsstring) :
  0 ≤ u < 0x10000 →
  parseStringBody (unicodeEscape u ++ tail) acc =
  parseStringBody tail (acc ++ [u]).
Proof.
  intros Hu. unfold unicodeEscape. change (js "\u") with [92; 117].
  cbn [app parseStringBody]. change (92 =? 34) with false.
  change (92 =? 92) with true. change (117 =? 117) with true. cbn match.
  rewrite !hexValue_hexDigit by (Z.div_mod_to_equations; lia).
  do 3 f_equal. Z.div_mod_to_equations. lia.
Qed.

(** An ordinary character stands for itself. *)
Lemma parseStringBody_plain (u : Z) (tail acc : jsstring) :
  0x20 ≤ u → u ≠ 34 → u ≠ 92 →
  parseStringBody (u :: tail) acc = parseStringBody tail (acc ++ [u]).
Proof.
  intros H1 H2 H3. cbn [parseStringBody].
  destruct (Z.eqb_spec u 34); [done |]. destruct (Z.eqb_spec u 92); [done |].
  destruct (Z.ltb_spec u 0x20); [lia | done].
Qed.

(** The parser reads a quoted code point back. *)
Lemma parseStringBody_quoteCodePoint (cp tail acc : jsstring) :
  isCodePoint16 cp →
  parseStringBody (quoteCodePoint cp ++ tail) acc =
  parseStringBody tail (acc ++ cp).
Proof.
  destruct cp as [|u [|v [|? ?]]]; try done; cbn [isCodePoint16].
  - intros Hu. unfold quoteCodePoint.
    destruct (Z.eqb_spec u 8) as [-> | ?]; [done |].
    destruct (Z.eqb_spec u 9) as [-> | ?]; [done |].
    destruct (Z.eqb_spec u 10) as [-> | ?]; [done |].
    destruct (Z.eqb_spec u 12) as [-> | ?]; [done |].
    destruct (Z.eqb_spec u 13) as [-> | ?]; [done |].
    destruct (Z.eqb_spec u 34) as [-> | ?]; [done |].
    destruct (Z.eqb_spec u 92) as [-> | ?]; [done |].
    destruct ((u <? 0x20) || isHighSurrogate u || isLowSurrogate u) eqn:E.
    + by apply parseStringBody_escape.
    + apply orb_false_iff in E as [E _]. apply orb_false_iff in E as [E _].
      apply Z.ltb_ge in E. by apply parseStringBody_plain.
  - intros [Hu%isHighSurrogate_range Hv%isLowSurrogate_range].
    cbn [quoteCodePoint app].
    rewrite !parseStringBody_plain by lia. by rewrite <- app_assoc.
Qed.

Lemma parseStringBody_quoted (cps : list jsstring) (tail acc : jsstring) :
  Forall isCodePoint16 cps →
  parseStringBody (flat_map quoteCodePoint cps ++ [34] ++ tail) acc =
  Some (acc ++ concat cps, tail).
Proof.
  intros H. revert acc. induction H as [|cp cps Hcp _ IH]; intros acc.
  - cbn. by rewrite app_nil_r.
  - cbn [flat_map concat]. rewrite <- app_assoc.
    rewrite parseStringBody_quoteCodePoint by done.
    rewrite IH. by rewrite <- app_assoc.
Qed.

(** The text of a string literal is read back as the string. *)
Lemma parse_quoteJSONString (s tail : jsstring) :
  isString16 s →
  ∃ body, quoteJSONString s ++ tail = 34 :: body ∧
          parseStringBody body [] = Some (s, tail).
Proof.
  intros Hs. unfold quoteJSONString.
  exists (flat_map quoteCodePoint (codePoints s) ++ [34] ++ tail).
  split; [by rewrite <- !app_assoc |].
  rewrite parseStringBody_quoted by by apply codePoints_isCodePoint16.
  by rewrite codePoints_concat.
Qed.

Lemma closedText_quoteCodePoint (cp : jsstring) :
  isCodePoint16 cp → closedText (quoteCodePoint cp).
Proof.
  destruct cp as [|u [|v [|? ?]]]; try done; cbn [isCodePoint16].
  - intros Hu. unfold quoteCodePoint.
    destruct (Z.eqb_spec u 8); [by apply closedText_literal |].
    destruct (Z.eqb_spec u 9); [by apply closedText_literal |].
    destruct (Z.eqb_spec u 10); [by apply closedText_literal |].
    destruct (Z.eqb_spec u 12); [by apply closedText_literal |].
    destruct (Z.eqb_spec u 13); [by apply closedText_literal |].
    destruct (Z.eqb_spec u 34); [by apply closedText_literal |].
    destruct (Z.eqb_spec u 92); [by apply closedText_literal |].
    destruct ((u <? 0x20) || isHighSurrogate u || isLowSurrogate u) eqn:E.
    + apply closedText_low. unfold unicodeEscape.
      change (js "\u") with [92; 117]. cbn [app].
      repeat (apply Forall_cons_2;
              [first [ lia
                     | match goal with
                       | |- _ ≤ hexDigit ?d < _ =>
                         pose proof (hexDigit_range d
                                       ltac:(Z.div_mod_to_equations; lia));
                         lia
                       end ] |]).
      apply Forall_nil_2.
    + apply orb_false_iff in E as [E Hl]. apply orb_false_iff in E as [_ Hh].
      by apply closedText_unit.
  - intros [Hu Hv]. by apply closedText_pair.
Qed.

Lemma closedText_quoteJSONString (s : jsstring) :
  isString16 s → closedText (quoteJSONString s).
Proof.
  intros Hs. unfold quoteJSONString.
  apply closedText_app; [by apply closedText_literal |].
  apply closedText_app; [|by apply closedText_literal].
  rewrite flat_map_concat_map. apply closedText_concat, Forall_fmap.
  eapply Forall_impl; [by apply codePoints_isCodePoint16 |].
  apply closedText_quoteCodePoint.
Qed.

(** *** Numbers *)

Lemma digitsValue_snoc (s : jsstring) (u : Z) :
  digitsValue (s ++ [u]) = 10 * digitsValue s + (u - 48).
Proof. unfold digitsValue. by rewrite fold_left_app. Qed.

(** With enough turns [decimalDigits] puts the decimal digits of [n]
    in front of [acc], without a leading zero. *)
Lemma decimalDigits_spec (fuel : nat) (n : Z) (acc : jsstring) :
  0 ≤ n < 10 ^ Z.of_nat fuel → fuel ≠ 0%nat →
  ∃ u ds,
    decimalDigits fuel n acc = (u :: ds) ++ acc ∧
    forallb isDigit (u :: ds) = true ∧ digitsValue (u :: ds) = n ∧
    (u = 48 → n = 0 ∧ ds = []).
Proof.
  revert n acc. induction fuel as [|fuel IH]; intros n acc Hn Hfuel; [done |].
  cbn [decimalDigits]. destruct (Z.ltb_spec n 10) as [Hlt | Hge].
  - exists (48 + n mod 10), []. rewrite Z.mod_small by lia.
    split; [done |]. split.
    + cbn. rewrite andb_true_r. apply isDigit_range. lia.
    + split; [unfold digitsValue; cbn; lia |]. intros ?. split; [lia | done].
  - rewrite Nat2Z.inj_succ, Z.pow_succ_r in Hn by lia.
    destruct (IH (n / 10) ((48 + n mod 10) :: acc))
      as (u & ds & -> & Hd & Hv & Hz).
    + Z.div_mod_to_equations. lia.
    + intros ->. cbn in Hn. lia.
    + exists u, (ds ++ [48 + n mod 10]).
      split; [cbn [app]; by rewrite <- app_assoc |]. split.
      * change (u :: ds ++ [48 + n mod 10])
          with ((u :: ds) ++ [48 + n mod 10]).
        rewrite forallb_app, Hd. cbn. rewrite andb_true_r.
        apply isDigit_range. Z.div_mod_to_equations. lia.
      * change (u :: ds ++ [48 + n mod 10])
          with ((u :: ds) ++ [48 + n mod 10]).
        rewrite digitsValue_snoc, Hv. split.
        -- Z.div_mod_to_equations. lia.
        -- intros Hu. destruct (Hz Hu) as [H0 _]. exfalso.
           Z.div_mod_to_equations. lia.
Qed.

Lemma Number_toString_spec (n : Z) :
  0 ≤ n →
  ∃ u ds,
    Number_toString n = u :: ds ∧
    forallb isDigit (u :: ds) = true ∧ digitsValue (u :: ds) = n ∧
    (u = 48 → n = 0 ∧ ds = []).
Proof.
  intros Hn. unfold Number_toString. destruct (Z.ltb_spec n 0); [lia |].
  destruct (decimalDigits_spec (S (Z.to_nat (Z.log2 n))) n [])
    as (u & ds & E & Hspec); [| done |].
  - rewrite Nat2Z.inj_succ, Z2Nat.id by apply Z.log2_nonneg.
    split; [done |]. destruct (Z.eq_dec n 0) as [-> | Hne]; [done |].
    pose proof (Z.log2_spec n ltac:(lia)) as [_ Hlog].
    pose proof (Z.pow_le_mono_l 2 10 (Z.succ (Z.log2 n)) ltac:(lia)). lia.
  - exists u, ds. by rewrite E, app_nil_r in *.
Qed.

Lemma parseDigits_app (ds rest : jsstring) (acc : Z) :
  forallb isDigit ds = true →
  match rest with [] => True | c :: _ => isDigit c = false end →
  parseDigits (ds ++ rest) acc =
  (fold_left (λ acc u, 10 * acc + (u - 48)) ds acc, rest).
Proof.
  revert acc. induction ds as [|d ds IH]; intros acc Hd Hrest.
  - cbn. destruct rest as [|c rest]; [done |]. cbn. by rewrite Hrest.
  - cbn [forallb] in Hd. apply andb_true_iff in Hd as [Hd Hds].
    cbn [app parseDigits fold_left]. rewrite Hd. by apply IH.
Qed.

(** The text of a non-negative integer is read back as the integer. *)
Lemma parseNumber_toString (n : Z) (rest : jsstring) :
  0 ≤ n → delimited rest →
  parseNumber (Number_toString n ++ rest) = Some (n, rest).
Proof.
  intros Hn Hrest.
  destruct (Number_toString_spec n Hn) as (u & ds & -> & Hd & Hv & Hz).
  assert (isDigit u = true) as Hu.
  { cbn [forallb] in Hd. by apply andb_true_iff in Hd as [? _]. }
  pose proof (proj1 (isDigit_range u) Hu) as Hur.
  assert (match rest with
          | [] => Some (n, rest)
          | c :: _ =>
            if (c =? 46) || (c =? 101) || (c =? 69) || isDigit c then None
            else Some (n, rest)
          end = Some (n, rest)) as Hend.
  { destruct rest as [|c rest]; [done |]. destruct Hrest as (Hc & H1 & H2 & H3).
    rewrite Hc. destruct (Z.eqb_spec c 46); [done |].
    destruct (Z.eqb_spec c 101); [done |]. by destruct (Z.eqb_spec c 69). }
  unfold parseNumber. cbn [app].
  destruct u as [|p|p]; try lia.
  assert (match Z.pos p :: ds ++ rest with
          | 45 :: rest0 => (true, rest0)
          | _ => (false, Z.pos p :: ds ++ rest)
          end = (false, Z.pos p :: ds ++ rest)) as ->.
  { clear -Hur. do 6 (destruct p as [p|p|]; try done). lia. }
  rewrite Hu. destruct (Z.eqb_spec (Z.pos p) 48) as [Heq | Hne].
  - destruct (Hz Heq) as [-> ->]. exact Hend.
  - change (Z.pos p :: ds ++ rest) with ((Z.pos p :: ds) ++ rest).
    rewrite parseDigits_app; [| done |].
    + fold (digitsValue (Z.pos p :: ds)). rewrite Hv. exact Hend.
    + destruct rest as [|c rest]; [done |]. by destruct Hrest.
Qed.

Lemma closedText_Number_toString (n : Z) :
  0 ≤ n → closedText (Number_toString n).
Proof.
  intros Hn. destruct (Number_toString_spec n Hn) as (u & ds & -> & Hd & _).
  apply closedText_low. apply Forall_forall. intros x Hx.
  rewrite forallb_forall in Hd. apply list_elem_of_In in Hx.
  specialize (Hd x Hx). apply isDigit_range in Hd. lia.
Qed.

End ReferenceJsonAtoms.

(** ** The reference host: JSON values *)

Module ReferenceJson.
Import ReferenceHost ReferenceUtf8 ReferenceJsonAtoms.

(** The text of one member of an object. *)
Lemma stringify_object (props : list (jsstring * JSValue)) :
  stringify (JObject props) =
  js "{"
  ++ joinComma
       ((λ kx, quoteJSONString kx.1 ++ js ":" ++ stringify kx.2) <$> props)
  ++ js "}".
Proof. reflexivity. Qed.

Lemma parsesWith_mono (f1 f2 : nat) (v : JSValue) :
  (f1 ≤ f2)%nat → parsesWith f1 v → parsesWith f2 v.
Proof. intros Hle H fuel rest Hfuel. apply H. lia. Qed.

Lemma parsesWith_string (s : jsstring) :
  isString16 s → parsesWith 1 (JString s).
Proof.
  intros Hs fuel rest Hfuel _. destruct fuel as [|fuel]; [lia |].
  cbn [stringify].
  destruct (parse_quoteJSONString s rest Hs) as (body & -> & Hbody).
  cbn. by rewrite Hbody.
Qed.

Lemma parsesWith_number (n : Z) : 0 ≤ n → parsesWith 1 (JNumber n).
Proof.
  intros Hn fuel rest Hfuel Hrest. destruct fuel as [|fuel]; [lia |].
  cbn [stringify].
  pose proof (parseNumber_toString n rest Hn Hrest) as Hparse.
  destruct (Number_toString_spec n Hn) as (u & ds & E & Hd & _).
  rewrite E in *. cbn [forallb] in Hd.
  apply andb_true_iff in Hd as [Hu%isDigit_range _].
  cbn [app] in *. cbn [parseValue].
  assert (skipWhiteSpace (u :: ds ++ rest) = u :: ds ++ rest) as ->.
  { cbn. unfold isWhiteSpace.
    destruct (Z.eqb_spec u 9); [lia |]. destruct (Z.eqb_spec u 10); [lia |].
    destruct (Z.eqb_spec u 13); [lia |]. by destruct (Z.eqb_spec u 32); [lia |]. }
  destruct (Z.eqb_spec u 123); [lia |]. destruct (Z.eqb_spec u 91); [lia |].
  destruct (Z.eqb_spec u 34); [lia |]. destruct (Z.eqb_spec u 116); [lia |].
  destruct (Z.eqb_spec u 102); [lia |]. destruct (Z.eqb_spec u 110); [lia |].
  by rewrite Hparse.
Qed.

Lemma skipWhiteSpace_other (u : Z) (s : jsstring) :
  isWhiteSpace u = false → skipWhiteSpace (u :: s) = u :: s.
Proof. intros H. cbn [skipWhiteSpace]. by rewrite H. Qed.

(** One turn of [parseMembers] on text that starts with a quote. *)
Lemma parseMembers_step (fuel : nat) (body : jsstring)
    (acc : list (jsstring * JSValue)) :
  parseMembers (S fuel) (34 :: body) acc =
  match parseStringBody body [] with
  | Some (k, rest) =>
    match skipWhiteSpace rest with
    | 58 :: rest =>
      match parseValue fuel rest with
      | Some (v, rest) =>
        match skipWhiteSpace rest with
        | 44 :: rest => parseMembers fuel rest (obj_define k v acc)
        | 125 :: rest => Some (JObject (obj_define k v acc), rest)
        | _ => None
        end
      | None => None
      end
    | _ => None
    end
  | None => None
  end.
Proof. reflexivity. Qed.

Lemma joinComma_cons2 (x y : jsstring) (items : list jsstring) :
  joinComma (x :: y :: items) = x ++ js "," ++ joinComma (y :: items).
Proof. reflexivity. Qed.

Lemma parseMembers_spec (f : nat) (entries : list (jsstring * JSValue)) :
  entries ≠ [] →
  Forall (λ kx, isString16 kx.1 ∧ parsesWith f kx.2) entries →
  ∀ fuel acc rest,
    (length entries + f ≤ fuel)%nat →
    parseMembers fuel
      (joinComma
         ((λ kx, quoteJSONString kx.1 ++ js ":" ++ stringify kx.2) <$> entries)
       ++ js "}" ++ rest) acc =
    Some (JObject (fold_left (λ acc kv, obj_define kv.1 kv.2 acc) entries acc),
          rest).
Proof.
  intros Hne Hall. induction Hall as [|[k x] entries [Hk Hx] Hall IH]; [done |].
  intros fuel acc rest Hfuel. cbn [length] in Hfuel.
  destruct fuel as [|fuel]; [lia |].
  cbn [fst snd] in Hk, Hx. rewrite fmap_cons. cbn [fold_left fst snd].
  destruct entries as [|e entries].
  - rewrite fmap_nil. cbn [joinComma]. rewrite <- !app_assoc.
    destruct (parse_quoteJSONString k (js ":" ++ stringify x ++ js "}" ++ rest) Hk)
      as (body & -> & Hbody).
    rewrite parseMembers_step, Hbody.
    change (js ":" ++ ?t) with (58 :: t).
    rewrite skipWhiteSpace_other by done. cbv beta iota.
    rewrite (Hx fuel (js "}" ++ rest)); [| lia | by repeat split].
    reflexivity.
  - rewrite fmap_cons, joinComma_cons2.
    set (more := joinComma (_ :: _)).
    rewrite <- !app_assoc.
    destruct (parse_quoteJSONString k
                (js ":" ++ stringify x ++ js "," ++ more ++ js "}" ++ rest) Hk)
      as (body & -> & Hbody).
    rewrite parseMembers_step, Hbody.
    change (js ":" ++ ?t) with (58 :: t).
    rewrite skipWhiteSpace_other by done. cbv beta iota.
    rewrite (Hx fuel); [| lia | by repeat split].
    change (js "," ++ ?t) with (44 :: t).
    rewrite skipWhiteSpace_other by done. cbv beta iota.
    subst more. apply IH; [done |]. cbn [length] in *. lia.
Qed.

(** The parser reads the text of an object back when it reads those of
    its members. *)
Lemma parsesWith_object (f : nat) (entries : list (jsstring * JSValue)) :
  isObject entries →
  Forall (λ kx, isString16 kx.1 ∧ parsesWith f kx.2) entries →
  parsesWith (S (length entries + f)) (JObject entries).
Proof.
  intros Hobj Hall fuel rest Hfuel _. destruct fuel as [|fuel]; [lia |].
  rewrite stringify_object. destruct entries as [|e entries].
  - reflexivity.
  - set (members := e :: entries) in *.
    pose proof (parseMembers_spec f members ltac:(done) Hall fuel [] rest
                  ltac:(lia)) as Hparse.
    rewrite (obj_define_rebuild [] members Hobj) in Hparse.
    assert (∃ body,
              joinComma ((λ kx, quoteJSONString kx.1 ++ js ":"
                                ++ stringify kx.2) <$> members)
              ++ js "}" ++ rest = 34 :: body) as [body Hbody].
    { subst members. destruct e as [k x]. cbn [fmap list_fmap fst snd].
      destruct entries; cbn [joinComma]; unfold quoteJSONString;
        rewrite <- !app_assoc; by eexists. }
    rewrite <- !app_assoc. rewrite Hbody in *.
    change (js "{" ++ ?t) with (123 :: t). cbn [parseValue].
    rewrite !skipWhiteSpace_other by done.
    change (123 =? 123) with true. cbv beta iota. exact Hparse.
Qed.

(** *** The text is closed *)

Lemma closedText_joinComma (items : list jsstring) :
  Forall closedText items → closedText (joinComma items).
Proof.
  induction 1 as [|x items Hx Hitems IH]; [apply closedText_nil |].
  destruct items as [|y items]; [done |].
  change (joinComma (x :: y :: items))
    with (x ++ js "," ++ joinComma (y :: items)).
  apply closedText_app; [done |].
  apply closedText_app; [by apply closedText_literal | done].
Qed.

Lemma closedText_object (entries : list (jsstring * JSValue)) :
  Forall (λ kx, isString16 kx.1 ∧ closedText (stringify kx.2)) entries →
  closedText (stringify (JObject entries)).
Proof.
  intros Hall. rewrite stringify_object.
  apply closedText_app; [by apply closedText_literal |].
  apply closedText_app; [|by apply closedText_literal].
  apply closedText_joinComma, Forall_fmap.
  eapply Forall_impl; [exact Hall |]. intros [k x] [Hk Hx].
  cbv beta. cbn [fst snd] in *.
  apply closedText_app; [by apply closedText_quoteJSONString |].
  apply closedText_app; [by apply closedText_literal | done].
Qed.

(** *** The length of the text *)

Lemma joinComma_length (items : list jsstring) :
  Forall (λ x, 1 ≤ length x)%nat items →
  (length items ≤ length (joinComma items))%nat.
Proof.
  induction 1 as [|x items Hx Hitems IH]; [done |].
  destruct items as [|y items]; [cbn; lia |].
  change (joinComma (x :: y :: items))
    with (x ++ js "," ++ joinComma (y :: items)).
  rewrite !length_app. cbn [length] in *. lia.
Qed.

Lemma stringify_object_length (entries : list (jsstring * JSValue)) :
  (length entries + 2 ≤ length (stringify (JObject entries)))%nat.
Proof.
  rewrite stringify_object, !length_app.
  pose proof (joinComma_length
    ((λ kx, quoteJSONString kx.1 ++ js ":" ++ stringify kx.2) <$> entries)) as H.
  rewrite length_fmap in H. cbn [length js] in *.
  assert (length (js "{") = 1%nat) as -> by done.
  assert (length (js "}") = 1%nat) as -> by done.
  cut (length entries ≤ length (joinComma
         ((λ kx, quoteJSONString kx.1 ++ js ":" ++ stringify kx.2) <$> entries)))%nat;
    [lia |].
  apply H, Forall_fmap, Forall_forall. intros [k x] _. cbn.
  unfold quoteJSONString. rewrite !length_app. cbn. lia.
Qed.

End ReferenceJson.

(** ** The reference host carries the metadata record *)

Module ReferenceContract.
Import ReferenceHost ReferenceUtf8 ReferenceJsonAtoms ReferenceJson.

Lemma isString16_literal (s : jsstring) :
  forallb (λ u, (0 <=? u) && (u <? 0x10000)) s = true → isString16 s.
Proof.
  intros H. apply Forall_forall. intros u Hu.
  rewrite forallb_forall in H. apply list_elem_of_In in Hu.
  specialize (H u Hu). apply andb_true_iff in H as [?%Z.leb_le ?%Z.ltb_lt].
  done.
Qed.

Lemma isBitString_isString16 (s : jsstring) : isBitString s → isString16 s.
Proof. intros H. eapply Forall_impl; [exact H |]. intros u [-> | ->]; lia. Qed.

Lemma toJS_keys {A} (f : A → JSValue) (m : JSObject A) :
  Object_keys ((λ kv, (kv.1, f kv.2)) <$> m) = Object_keys m.
Proof.
  unfold Object_keys. rewrite <- list_fmap_compose. by apply list_fmap_ext.
Qed.

Lemma toJS_isObject {A} (f : A → JSValue) (m : JSObject A) :
  isObject m → isObject ((λ kv, (kv.1, f kv.2)) <$> m).
Proof. unfold isObject. by rewrite toJS_keys. Qed.

(** The three keys of the metadata record, in the order of the object
    literal. *)
Lemma metadata_isObject (a b c : JSValue) :
  isObject [(js "codeMap", a); (js "paddingBits", b); (js "frequencyMap", c)].
Proof.
  split.
  - compute_done.
  - repeat (constructor; [| repeat (apply Forall_cons_2; [by vm_compute |]);
                            apply Forall_nil_2]).
    constructor.
Qed.

(** The parser reads the text of a metadata record back, and that text
    is well-formed. *)
Lemma metadata_text (cm : CodeMap) (p : Z) (fm : FrequencyMap) :
  isObject cm → Forall (λ kv, isString16 kv.1 ∧ isString16 kv.2) cm →
  0 ≤ p →
  isObject fm → Forall (λ kv, isString16 kv.1 ∧ 0 ≤ kv.2) fm →
  let md := JObject [ (js "codeMap", CodeMap_toJS cm);
                      (js "paddingBits", JNumber p);
                      (js "frequencyMap", FrequencyMap_toJS fm) ] in
  parsesWith (length (stringify md)) md ∧ closedText (stringify md).
Proof.
  intros Hcm Hcmv Hp Hfm Hfmv md.
  assert (parsesWith (S (length cm + 1)) (CodeMap_toJS cm)
          ∧ closedText (stringify (CodeMap_toJS cm))) as [Hcm1 Hcm2].
  { unfold CodeMap_toJS. split.
    - replace (length cm) with (length ((λ kv, (kv.1, JString kv.2)) <$> cm))
        by by rewrite length_fmap.
      apply parsesWith_object; [by apply toJS_isObject |].
      apply Forall_fmap. eapply Forall_impl; [exact Hcmv |].
      intros [k v] [Hk Hv]. split; [done | by apply parsesWith_string].
    - apply closedText_object, Forall_fmap.
      eapply Forall_impl; [exact Hcmv |]. intros [k v] [Hk Hv].
      split; [done | by apply closedText_quoteJSONString]. }
  assert (parsesWith (S (length fm + 1)) (FrequencyMap_toJS fm)
          ∧ closedText (stringify (FrequencyMap_toJS fm))) as [Hfm1 Hfm2].
  { unfold FrequencyMap_toJS. split.
    - replace (length fm) with (length ((λ kv, (kv.1, JNumber kv.2)) <$> fm))
        by by rewrite length_fmap.
      apply parsesWith_object; [by apply toJS_isObject |].
      apply Forall_fmap. eapply Forall_impl; [exact Hfmv |].
      intros [k v] [Hk Hv]. split; [done | by apply parsesWith_number].
    - apply closedText_object, Forall_fmap.
      eapply Forall_impl; [exact Hfmv |]. intros [k v] [Hk Hv].
      split; [done | by apply closedText_Number_toString]. }
  assert (isString16 (js "codeMap") ∧ isString16 (js "paddingBits")
          ∧ isString16 (js "frequencyMap")) as (K1 & K2 & K3).
  { repeat split; by apply isString16_literal. }
  split.
  - set (f := S (length cm + length fm + 1)).
    eapply parsesWith_mono; cycle 1.
    { apply (parsesWith_object f); [apply metadata_isObject |].
      repeat (apply Forall_cons_2; [split; [done |] |]); [| | | apply Forall_nil_2].
      - eapply parsesWith_mono; [|exact Hcm1]. subst f. lia.
      - eapply parsesWith_mono; [|by apply parsesWith_number]. subst f. lia.
      - eapply parsesWith_mono; [|exact Hfm1]. subst f. lia. }
    subst f md. rewrite stringify_object.
    rewrite !fmap_cons, fmap_nil, !joinComma_cons2. cbn [joinComma fst snd].
    rewrite !length_app.
    pose proof (stringify_object_length ((λ kv, (kv.1, JString kv.2)) <$> cm)) as L1.
    pose proof (stringify_object_length ((λ kv, (kv.1, JNumber kv.2)) <$> fm)) as L2.
    rewrite length_fmap in L1. rewrite length_fmap in L2.
    fold (CodeMap_toJS cm) in L1.
    fold (FrequencyMap_toJS fm) in L2.
    assert (length (js "{") = 1%nat) as -> by done.
    assert (length (js "}") = 1%nat) as -> by done.
    assert (length (js ",") = 1%nat) as -> by done.
    assert (length (js ":") = 1%nat) as -> by done.
    cbn [length]. lia.
  - apply closedText_object.
    repeat (apply Forall_cons_2; [split; [done |] |]); [| | | apply Forall_nil_2].
    + done.
    + by apply closedText_Number_toString.
    + done.
Qed.

(** The metadata record survives [JSON.stringify], [TextEncoder],
    [TextDecoder] and [JSON.parse]. *)
Lemma metadata_roundtrip (cm : CodeMap) (p : Z) (fm : FrequencyMap) :
  isObject cm → Forall (λ kv, isString16 kv.1 ∧ isString16 kv.2) cm →
  0 ≤ p →
  isObject fm → Forall (λ kv, isString16 kv.1 ∧ 0 ≤ kv.2) fm →
  let md := JObject [ (js "codeMap", CodeMap_toJS cm);
                      (js "paddingBits", JNumber p);
                      (js "frequencyMap", FrequencyMap_toJS fm) ] in
  parse (decode (encode (stringify md))) = Ok md.
Proof.
  intros Hcm Hcmv Hp Hfm Hfmv md.
  destruct (metadata_text cm p fm Hcm Hcmv Hp Hfm Hfmv) as [Hparse [Hwf _]].
  fold md in Hparse, Hwf.
  assert (∃ body, stringify md = 123 :: body) as [body Hbody] by by eexists.
  rewrite Hbody in Hwf |- * at 1. rewrite decode_encode by done.
  rewrite <- Hbody. unfold parse.
  rewrite <- (app_nil_r (stringify md)) at 2.
  rewrite Hparse; [done | lia | done].
Qed.

(** *** The record of a compression result *)

Lemma codePoints_isString16 (text : jsstring) :
  isString16 text → Forall isString16 (codePoints text).
Proof.
  intros H. rewrite <- (codePoints_concat text) in H.
  by apply Forall_concat in H.
Qed.

Lemma assignCodes_isObject entries (codes : CodeMap) :
  isObject codes → isObject (assignCodes entries codes).
Proof.
  revert codes. induction entries as [|[c w] entries IH]; intros codes H; [done |].
  apply IH. by apply obj_set_isObject.
Qed.

Lemma compress_metadata `{Host} (text : jsstring) (n n' : Z)
    (result : CompressionResult) :
  isString16 text → compress text n = Ok (result, n') →
  isObject (codeMap result) ∧
  Forall (λ kv, isString16 kv.1 ∧ isString16 kv.2) (codeMap result) ∧
  0 ≤ paddingBits result ∧
  isObject (frequencyMap result) ∧
  Forall (λ kv, isString16 kv.1 ∧ 0 ≤ kv.2) (frequencyMap result).
Proof.
  intros Htext. unfold compress. case_bool_decide as Hne.
  { intros [= <- _]. cbn.
    repeat split; try apply NoDup_nil_2; try constructor; done. }
  destruct (calculateFrequencies_keys text) as [Hnd Hkeys].
  destruct (buildHuffmanTree_nonempty (calculateFrequencies text) n)
    as (root & n1 & Hbuild & Hshape & Hleaves).
  { intros Ek. apply Hne, codePoints_nil.
    destruct (codePoints text) as [|cp cps]; [done |]. exfalso.
    specialize (Hkeys cp). rewrite Ek, elem_of_nil in Hkeys. apply Hkeys. left. }
  rewrite Hbuild. intros [= <- _].
  cbn [codeMap paddingBits frequencyMap].
  assert (∀ k, k ∈ Object_keys (calculateFrequencies text) → isString16 k) as Hk16.
  { intros k Hk%Hkeys.
    by apply (proj1 (Forall_forall _ _) (codePoints_isString16 text Htext)). }
  split; [|split; [|split; [|split]]].
  - unfold generateCodes. rewrite traverse_assignCodes.
    apply assignCodes_isObject, isObject_nil.
  - unfold generateCodes. rewrite traverse_assignCodes.
    apply Forall_forall. intros [k v] Hin. cbn [fst snd].
    apply obj_get_elem_of in Hin; [|apply assignCodes_NoDup, NoDup_nil_2].
    apply assignCodes_get in Hin as [(w0 & Hw0 & ->) | Hin];
      [| done | apply NoDup_nil_2].
    split.
    + apply Hk16. rewrite <- Hleaves. unfold leafChars.
      apply list_elem_of_fmap. by exists (k, w0).
    + apply isBitString_isString16, storedCode_isBitString.
      eapply leafCodes_isBitString; [|exact Hw0]. constructor.
  - apply paddingBits_bounds.
  - apply calculateFrequencies_isObject.
  - apply Forall_forall. intros [k v] Hin. cbn [fst snd]. split.
    + apply Hk16. unfold Object_keys. apply list_elem_of_fmap. by exists (k, v).
    + pose proof (proj1 (Forall_forall _ _)
                    (calculateFrequencies_positive text) _ Hin) as Hpos.
      cbn in Hpos. lia.
Qed.

(** On the reference host the metadata of every compression result
    comes back from the container text unchanged. *)
Lemma reference_contract (text : jsstring) (n n' : Z)
    (result : CompressionResult) :
  isString16 text → compress (H := host) text n = Ok (result, n') →
  JSON_parse (Host := host)
    (TextDecoder_decode
       (TextEncoder_encode (JSON_stringify (metadataOf result))))
  = Ok (metadataOf result).
Proof.
  intros Htext Hcompress.
  destruct (compress_metadata text n n' result Htext Hcompress)
    as (H1 & H2 & H3 & H4 & H5).
  by apply metadata_roundtrip.
Qed.

End ReferenceContract.

(* ================================================================== *)
(** * Part III: the claims                                             *)
(* ================================================================== *)

(** C1.  Round trip: for every non-empty text, [compress] returns a result,
    and [decompress] applied to its payload, tree and padding count returns
    exactly the text, with [success] set. *)
Theorem compress_decompress_roundtrip `{Host} (text : jsstring)
    (nodeIdCounter : Z) :
  text ≠ [] →
  ∃ result nodeIdCounter',
    compress text nodeIdCounter = Ok (result, nodeIdCounter') ∧
    decompress (compressedData result) (tree result) (paddingBits result) =
      Ok {| decompressedText := text; success := true; error := None |}.
Proof.
  intros _.
  destruct (compress_decompress text nodeIdCounter) as (r & n' & E & _ & D).
  by exists r, n'.
Qed.

(** The round trip at the text ["abracadabra"]. *)
Lemma compress_decompress_roundtrip_witness :
  js "abracadabra" ≠ [] ∧
  ∃ result nodeIdCounter',
    compress (H := ReferenceHost.host) (js "abracadabra") 0 =
      Ok (result, nodeIdCounter') ∧
    decompress (compressedData result) (tree result) (paddingBits result) =
      Ok {| decompressedText := js "abracadabra"; success := true;
            error := None |}.
Proof.
  split; [done |].
  apply (@compress_decompress_roundtrip ReferenceHost.host (js "abracadabra") 0).
  done.
Defined.

(** C2.  Prefix-free codes: for every non-empty frequency table the builder
    returns a tree, and in the code table generated from it no symbol's
    code is a prefix of another symbol's code. *)
Theorem generated_codes_prefix_free (frequencies : FrequencyMap)
    (nodeIdCounter : Z) :
  Object_keys frequencies ≠ [] →
  ∃ root nodeIdCounter',
    buildHuffmanTree frequencies nodeIdCounter = Ok (Some root, nodeIdCounter') ∧
    prefixFree (generateCodes (Some root)).
Proof.
  intros Hne.
  destruct (buildHuffmanTree_nonempty frequencies nodeIdCounter Hne)
    as (root & n' & E & _).
  exists root, n'. split; [done | apply generateCodes_prefixFree].
Qed.

(** The code table of a four-symbol frequency table is prefix-free. *)
Lemma generated_codes_prefix_free_witness :
  Object_keys [(js "a", 5); (js "b", 2); (js "c", 1); (js "d", 1)] ≠ [] ∧
  ∃ root nodeIdCounter',
    buildHuffmanTree [(js "a", 5); (js "b", 2); (js "c", 1); (js "d", 1)] 0 =
      Ok (Some root, nodeIdCounter') ∧
    prefixFree (generateCodes (Some root)).
Proof.
  split; [done |].
  apply (generated_codes_prefix_free
           [(js "a", 5); (js "b", 2); (js "c", 1); (js "d", 1)] 0).
  done.
Defined.

(** C4, as the source has it.  After any sequence of [insert] and
    [extractMin] calls the array is an ordered heap, and [extractMin]
    removes and returns its root, a node of minimum frequency among those
    in the queue; on the empty queue it returns [null].  Which of several
    nodes of that frequency is at the root is decided by the moves of
    [bubbleUp] and [bubbleDown], not by the order of insertion. *)
Theorem extractMin_minimum (ops : list HeapOp) :
  let heap := runOps ops in
  heapOrdered heap ∧
  match MinHeap.extractMin heap with
  | (Some node, heap') =>
    heap !! 0%nat = Some node ∧ heap ≡ₚ node :: heap' ∧
    Forall (λ other, freq node ≤ freq other) heap
  | (None, heap') => heap = [] ∧ heap' = []
  end.
Proof.
  intros heap. pose proof (MinHeapOrder.runOps_ordered ops) as Hord.
  fold heap in Hord. split; [done |].
  destruct (decide (heap = [])) as [-> | Hne]; [done |].
  destruct (MinHeapBag.extractMin_perm heap Hne) as (node & heap' & E & Hp).
  pose proof (MinHeapOrder.extractMin_root heap Hne) as Hroot.
  rewrite E in *. cbn [fst] in Hroot. split; [done |]. split; [done |].
  apply Forall_forall. intros other [i Hi]%list_elem_of_lookup.
  pose proof (MinHeapOrder.heapOrdered_root heap i Hord
                (lookup_lt_Some _ _ _ Hi)) as Hle.
  unfold MinHeap.freqAt in Hle. by rewrite <- Hroot, Hi in Hle.
Qed.

(** C4, as the claim has it, fails: [b] and [c] have the same frequency,
    [b] is inserted before [c], both are in the queue after the first
    extraction, and the second extraction returns [c]. *)
Lemma extractMin_ties_not_fifo :
  let a := {| char := Some (js "a"); freq := 1; left := None; right := None;
              id := js "node_0" |} in
  let b := {| char := Some (js "b"); freq := 1; left := None; right := None;
              id := js "node_1" |} in
  let c := {| char := Some (js "c"); freq := 1; left := None; right := None;
              id := js "node_2" |} in
  let heap := runOps [Insert a; Insert b; Insert c; ExtractMin] in
  freq b = freq c ∧ heap = [c; b] ∧
  (MinHeap.extractMin heap).1 = Some c.
Proof. by vm_compute. Qed.

(** C5, as the source has it.  For every text [compress] returns a result
    whose [paddingBits] is an integer from 0 to 7, both included, and
    completes the encoded bits to whole bytes. *)
Theorem compress_paddingBits_range `{Host} (text : jsstring) (nodeIdCounter : Z) :
  ∃ result nodeIdCounter',
    compress text nodeIdCounter = Ok (result, nodeIdCounter') ∧
    0 ≤ paddingBits result ≤ 7 ∧
    (Z.of_nat (length (encodeText (codeMap result) text))
     + paddingBits result) mod 8 = 0.
Proof.
  destruct (compress_decompress text nodeIdCounter) as (r & n' & E & _).
  exists r, n'. split; [done |]. revert E. unfold compress.
  case_bool_decide as Htext.
  - intros [= <- _]. by subst.
  - destruct (buildHuffmanTree _ _) as [[t n1]|]; [|done].
    intros [= <- _]. cbn [paddingBits codeMap].
    set (len := length _). split; [apply paddingBits_bounds |].
    pose proof (padded_length len) as Hp.
    pose proof (paddingBits_bounds len) as [Hp0 _].
    apply (f_equal Z.of_nat) in Hp.
    by rewrite Nat2Z.inj_mod, Nat2Z.inj_add, Z2Nat.id in Hp.
Qed.

(** C5, as the claim has it, fails: the one-character text ["a"] is
    encoded in one bit and padded with seven. *)
Lemma paddingBits_can_be_seven :
  ∃ result nodeIdCounter',
    compress (H := ReferenceHost.host) (js "a") 0 = Ok (result, nodeIdCounter') ∧
    paddingBits result = 7 ∧ ¬ (0 ≤ paddingBits result < 7).
Proof.
  eexists _, _. split; [reflexivity |]. split; [reflexivity |].
  intros [_ Hlt]. vm_compute in Hlt. discriminate Hlt.
Qed.

(** The container round trip on any host: when the host carries the
    metadata record through JSON text and UTF-8 unchanged and the metadata
    fits the 32-bit length field, parsing the container made from a
    compression result returns its payload, padding count and frequency
    map, and the tree rebuilt from that map decodes the payload to the
    text. *)
Lemma container_roundtrip_host `{Host} (text : jsstring)
    (nodeIdCounter nodeIdCounter' nodeIdCounter2 : Z)
    (result : CompressionResult) :
  compress text nodeIdCounter = Ok (result, nodeIdCounter') →
  JSON_parse
    (TextDecoder_decode (TextEncoder_encode (JSON_stringify (metadataOf result))))
  = Ok (metadataOf result) →
  Z.of_nat (length (TextEncoder_encode (JSON_stringify (metadataOf result))))
  < 2 ^ 32 →
  ∃ parsed nodeIdCounter2',
    parseCompressedFile (createCompressedFile result) = Some parsed ∧
    Parsed.frequencyMap parsed = Some (FrequencyMap_toJS (frequencyMap result)) ∧
    Parsed.paddingBits parsed = Some (JNumber (paddingBits result)) ∧
    buildHuffmanTree (frequencyMap result) nodeIdCounter2 =
      Ok (tree result, nodeIdCounter2') ∧
    decompress (Parsed.compressedData parsed) (tree result) (paddingBits result) =
      Ok {| decompressedText := text; success := true; error := None |}.
Proof.
  intros Hcompress Hjson Hlen.
  destruct (compress_decompress text nodeIdCounter) as (r & n' & E & Hb & Hd).
  rewrite E in Hcompress. injection Hcompress as -> ->.
  eexists _, _.
  split; [by apply parseCompressedFile_create |].
  split; [done |]. split; [done |]. split; [exact Hb | exact Hd].
Qed.

(** C3.  Container round trip, on the reference host: for every text (a
    string of 16-bit code units) whose metadata fits the 32-bit length
    field, parsing the container made from [compress text] returns a
    frequency map equal to that of the result, with the payload and the
    padding count, and the tree rebuilt from that map decodes the parsed
    payload to [text]. *)
Theorem container_roundtrip (text : jsstring)
    (nodeIdCounter nodeIdCounter' nodeIdCounter2 : Z)
    (result : CompressionResult) :
  isString16 text →
  compress (H := ReferenceHost.host) text nodeIdCounter
  = Ok (result, nodeIdCounter') →
  Z.of_nat (length (ReferenceHost.encode
                      (ReferenceHost.stringify (metadataOf result)))) < 2 ^ 32 →
  ∃ parsed rebuilt nodeIdCounter2',
    parseCompressedFile (H := ReferenceHost.host)
      (createCompressedFile (H := ReferenceHost.host) result) = Some parsed ∧
    Parsed.frequencyMap parsed = Some (FrequencyMap_toJS (frequencyMap result)) ∧
    Parsed.paddingBits parsed = Some (JNumber (paddingBits result)) ∧
    buildHuffmanTree (frequencyMap result) nodeIdCounter2 =
      Ok (rebuilt, nodeIdCounter2') ∧
    decompress (Parsed.compressedData parsed) rebuilt (paddingBits result) =
      Ok {| decompressedText := text; success := true; error := None |}.
Proof.
  intros Htext Hcompress Hlen.
  destruct (container_roundtrip_host (H := ReferenceHost.host) text
              nodeIdCounter nodeIdCounter' nodeIdCounter2 result Hcompress)
    as (parsed & n2' & Hparse); [| done |].
  - by apply (ReferenceContract.reference_contract text nodeIdCounter
                nodeIdCounter').
  - by exists parsed, (tree result), n2'.
Qed.

(** The container round trip at the text ["aab"]. *)
Lemma container_roundtrip_witness :
  ∃ parsed rebuilt nodeIdCounter2',
    parseCompressedFile (H := ReferenceHost.host)
      (createCompressedFile (H := ReferenceHost.host) aab_result) = Some parsed ∧
    Parsed.frequencyMap parsed =
      Some (FrequencyMap_toJS (frequencyMap aab_result)) ∧
    Parsed.paddingBits parsed = Some (JNumber (paddingBits aab_result)) ∧
    buildHuffmanTree (frequencyMap aab_result) 11 = Ok (rebuilt, nodeIdCounter2') ∧
    decompress (Parsed.compressedData parsed) rebuilt (paddingBits aab_result) =
      Ok {| decompressedText := js "aab"; success := true; error := None |}.
Proof.
  apply (container_roundtrip (js "aab") 0 3 11 aab_result).
  - apply ReferenceContract.isString16_literal. vm_compute. reflexivity.
  - vm_compute. reflexivity.
  - vm_compute. reflexivity.
Defined.

(** C6.  Malformed buffer rejection: a container cut to fewer than four
    bytes, or to fewer bytes than the header and the metadata length it
    announces, is refused by [parseCompressedFile]. *)
Theorem truncated_container_rejected `{Host} (result : CompressionResult)
    (n : nat) (metadataLength : Z) :
  getUint32_0_le (createCompressedFile result) = Ok metadataLength →
  (n < 4)%nat ∨ Z.of_nat n < 4 + metadataLength →
  parseCompressedFile (take n (createCompressedFile result)) = None.
Proof.
  intros Hheader [Hshort | Hcut].
  - apply parseCompressedFile_short. rewrite length_take. lia.
  - by apply (parseCompressedFile_truncated _ _ metadataLength).
Qed.

(** The container of ["aab"], 79 bytes with 74 of metadata, cut to 40
    bytes is refused. *)
Lemma truncated_container_rejected_witness :
  parseCompressedFile (H := ReferenceHost.host)
    (take 40 (createCompressedFile (H := ReferenceHost.host) aab_result)) = None.
Proof.
  apply (@truncated_container_rejected ReferenceHost.host aab_result 40 74).
  - vm_compute. reflexivity.
  - right. lia.
Defined.

(** C7.  Single-symbol case: compressing ["aaaa"] gives the code table
    [{a: "0"}] and a tree that is one leaf under a synthetic root with no
    right child, and decompressing the payload gives ["aaaa"] back. *)
Theorem single_symbol_case `{Host} (nodeIdCounter : Z) :
  ∃ result nodeIdCounter' leaf,
    compress (js "aaaa") nodeIdCounter = Ok (result, nodeIdCounter') ∧
    codeMap result = [(js "a", js "0")] ∧
    tree result =
      Some {| char := None; freq := 4; left := Some leaf; right := None;
              id := js "node_1" |} ∧
    leaf = {| char := Some (js "a"); freq := 4; left := None; right := None;
              id := js "node_0" |} ∧
    decompress (compressedData result) (tree result) (paddingBits result) =
      Ok {| decompressedText := js "aaaa"; success := true; error := None |}.
Proof.
  pose (c := compress (js "aaaa") nodeIdCounter).
  assert (compress (js "aaaa") nodeIdCounter = c) as -> by reflexivity.
  vm_compute in c. subst c.
  eexists _, _, _. repeat split; reflexivity.
Qed.

(** C8.  Known fixture: compressing ["aab"] counts [{a: 2, b: 1}], builds a
    two-leaf tree of root frequency 3, gives [a] and [b] one-bit codes of
    opposite values, encodes the text in 3 bits, pads with 5 and packs one
    byte. *)
Theorem known_fixture_aab `{Host} (nodeIdCounter : Z) :
  ∃ result nodeIdCounter' root l r,
    compress (js "aab") nodeIdCounter = Ok (result, nodeIdCounter') ∧
    frequencyMap result = [(js "a", 2); (js "b", 1)] ∧
    tree result = Some root ∧ freq root = 3 ∧ char root = None ∧
    left root = Some l ∧ right root = Some r ∧
    leafChars l = [js "b"] ∧ leafChars r = [js "a"] ∧
    obj_get (js "a") (codeMap result) = Some (js "1") ∧
    obj_get (js "b") (codeMap result) = Some (js "0") ∧
    length (encodeText (codeMap result) (js "aab")) = 3%nat ∧
    paddingBits result = 5 ∧
    compressedSize result = 1 ∧ compressedData result = [192].
Proof.
  pose (c := compress (js "aab") nodeIdCounter).
  assert (compress (js "aab") nodeIdCounter = c) as -> by reflexivity.
  vm_compute in c. subst c.
  eexists _, _, _, _, _. repeat split; reflexivity.
Qed.

(** C9.  For every frequency table the builder returns a tree or none, and
    on that tree [decompress] returns, for every payload and every
    padding count, a result with [success] set and no [error]: it never
    throws and never reports failure. *)
Theorem decompress_never_fails (frequencies : FrequencyMap)
    (nodeIdCounter : Z) (payload : list Z) (padding : Z) :
  ∃ built nodeIdCounter' text,
    buildHuffmanTree frequencies nodeIdCounter = Ok (built, nodeIdCounter') ∧
    decompress payload built padding =
      Ok {| decompressedText := text; success := true; error := None |}.
Proof.
  destruct (buildHuffmanTree_total frequencies nodeIdCounter)
    as (built & n' & E & Hshape).
  destruct (decompress_succeeds payload built padding Hshape) as [text D].
  by exists built, n', text.
Qed.

(** The tree rebuilt on the decoding side, on any host that carries the
    metadata record through the container unchanged, is the tree of the
    compression result. *)
Lemma rebuilt_tree_host `{Host} (text : jsstring)
    (nodeIdCounter nodeIdCounter' other : Z) (result : CompressionResult) :
  compress text nodeIdCounter = Ok (result, nodeIdCounter') →
  JSON_parse
    (TextDecoder_decode (TextEncoder_encode (JSON_stringify (metadataOf result))))
  = Ok (metadataOf result) →
  Z.of_nat (length (TextEncoder_encode (JSON_stringify (metadataOf result))))
  < 2 ^ 32 →
  ∃ parsed other',
    parseCompressedFile (createCompressedFile result) = Some parsed ∧
    Parsed.frequencyMap parsed = Some (FrequencyMap_toJS (frequencyMap result)) ∧
    buildHuffmanTree (frequencyMap result) other = Ok (tree result, other').
Proof.
  intros Hcompress Hjson Hlen.
  destruct (compress_decompress text nodeIdCounter) as (r & n' & E & Hb & _).
  rewrite E in Hcompress. injection Hcompress as -> ->.
  eexists _, _. split; [by apply parseCompressedFile_create |].
  split; [done | exact Hb].
Qed.

(** The result of [compress] does not depend on the node counter. *)
Lemma compress_result_counter `{Host} (text : jsstring)
    (nodeIdCounter nodeIdCounter' other : Z) (result : CompressionResult) :
  compress text nodeIdCounter = Ok (result, nodeIdCounter') →
  ∃ other', compress text other = Ok (result, other').
Proof.
  intros Hcompress. destruct (decide (text = [])) as [-> | Hne].
  - injection Hcompress as <- _. by eexists.
  - rewrite (compress_counter text other nodeIdCounter Hne). by eexists.
Qed.

(** C10.  Determinism: the value of the node counter before a call changes
    neither the tree [buildHuffmanTree] returns nor the result of
    [compress]; and on the reference host the tree rebuilt from the
    frequency map parsed out of the container is the tree of the
    compression result, node for node. *)
Theorem compression_deterministic (text : jsstring)
    (nodeIdCounter nodeIdCounter' other : Z) (result : CompressionResult) :
  isString16 text →
  compress (H := ReferenceHost.host) text nodeIdCounter
  = Ok (result, nodeIdCounter') →
  Z.of_nat (length (ReferenceHost.encode
                      (ReferenceHost.stringify (metadataOf result)))) < 2 ^ 32 →
  (∃ other', compress (H := ReferenceHost.host) text other = Ok (result, other')) ∧
  (∀ frequencies,
      buildHuffmanTree frequencies other =
      buildHuffmanTree frequencies nodeIdCounter) ∧
  ∃ parsed other',
    parseCompressedFile (H := ReferenceHost.host)
      (createCompressedFile (H := ReferenceHost.host) result) = Some parsed ∧
    Parsed.frequencyMap parsed = Some (FrequencyMap_toJS (frequencyMap result)) ∧
    buildHuffmanTree (frequencyMap result) other = Ok (tree result, other').
Proof.
  intros Htext Hcompress Hlen. split; [|split; [done |]].
  - by apply (compress_result_counter text nodeIdCounter nodeIdCounter').
  - apply (rebuilt_tree_host (H := ReferenceHost.host) text nodeIdCounter
             nodeIdCounter' other result Hcompress); [|done].
    by apply (ReferenceContract.reference_contract text nodeIdCounter
                nodeIdCounter').
Qed.

(** Determinism at the text ["aab"], from two values of the counter. *)
Lemma compression_deterministic_witness :
  (∃ other', compress (H := ReferenceHost.host) (js "aab") 42 =
             Ok (aab_result, other')) ∧
  (∀ frequencies,
      buildHuffmanTree frequencies 42 = buildHuffmanTree frequencies 0) ∧
  ∃ parsed other',
    parseCompressedFile (H := ReferenceHost.host)
      (createCompressedFile (H := ReferenceHost.host) aab_result) = Some parsed ∧
    Parsed.frequencyMap parsed =
      Some (FrequencyMap_toJS (frequencyMap aab_result)) ∧
    buildHuffmanTree (frequencyMap aab_result) 42 = Ok (tree aab_result, other').
Proof.
  apply (compression_deterministic (js "aab") 0 3 42 aab_result).
  - apply ReferenceContract.isString16_literal. vm_compute. reflexivity.
  - vm_compute. reflexivity.
  - vm_compute. reflexivity.
Defined.

(* ================================================================== *)
(** * Part IV: further properties of the code                          *)
(* ================================================================== *)

(** ** The queue as the builder uses it *)

(** On an ordered heap [extractMin] returns a node of least frequency and
    leaves an ordered heap of the other nodes. *)
Lemma extractMin_least (heap : list HuffmanNode) :
  heapOrdered heap → heap ≠ [] →
  ∃ node heap',
    MinHeap.extractMin heap = (Some node, heap') ∧
    heap ≡ₚ node :: heap' ∧
    Forall (λ other, freq node ≤ freq other) heap' ∧
    heapOrdered heap'.
Proof.
  intros Hord Hne.
  destruct (MinHeapBag.extractMin_perm heap Hne) as (node & heap' & E & Hp).
  exists node, heap'. split; [done |]. split; [done |].
  pose proof (MinHeapOrder.extractMin_root heap Hne) as Hroot.
  pose proof (MinHeapOrder.extractMin_ordered heap Hord) as Hord'.
  rewrite E in Hroot, Hord'. cbn [fst snd] in Hroot, Hord'. split; [|done].
  assert (Forall (λ other, freq node ≤ freq other) heap) as Hall.
  { apply Forall_forall. intros other [i Hi]%list_elem_of_lookup.
    pose proof (MinHeapOrder.heapOrdered_root heap i Hord
                  (lookup_lt_Some _ _ _ Hi)) as Hle.
    unfold MinHeap.freqAt in Hle. by rewrite <- Hroot, Hi in Hle. }
  rewrite Hp in Hall. by apply Forall_cons in Hall as [_ Hall].
Qed.

Lemma heapOrdered_nil : heapOrdered [].
Proof. intros i Hi. cbn in Hi. lia. Qed.

(** ** The builder, loop by loop *)

(** The first loop puts one leaf per key into the queue, numbered from the
    counter on. *)
Lemma insertLeaves_leaves frequencies chars heap n :
  heapOrdered heap →
  ∃ heap',
    insertLeaves frequencies chars heap n =
      (heap', n + Z.of_nat (length chars)) ∧
    heap' ≡ₚ heap ++ leavesFrom frequencies chars n ∧
    heapOrdered heap'.
Proof.
  revert heap n. induction chars as [|char chars IH]; intros heap n Hord.
  - exists heap. cbn. by rewrite Z.add_0_r, app_nil_r.
  - cbn [insertLeaves leavesFrom]. unfold generateNodeId at 1.
    destruct (IH (MinHeap.insert heap (leafNode frequencies char n)) (n + 1))
      as (heap' & E & Hp & Hord').
    { by apply MinHeapOrder.insert_ordered. }
    exists heap'. split.
    + unfold leafNode, generateNodeId in E. cbn [fst] in E. rewrite E.
      f_equal. cbn [length]. lia.
    + split; [|done]. rewrite Hp, MinHeapBag.insert_perm.
      cbn [app]. apply Permutation_middle.
Qed.

(** A rule for the merge loop: a property of the queue and the counter
    that does not depend on the order of the array and that survives the
    replacement of two least nodes by their parent holds of the one node
    the loop ends with. *)
Lemma mergeLoop_invariant (I : list HuffmanNode → Z → Prop) :
  (∀ heap heap' n, heap ≡ₚ heap' → I heap n → I heap' n) →
  (∀ l r rest n,
      I (l :: r :: rest) n →
      Forall (λ other, freq l ≤ freq other) (r :: rest) →
      Forall (λ other, freq r ≤ freq other) rest →
      I (parentNode l r n :: rest) (n + 1)) →
  ∀ fuel heap n,
    heap ≠ [] → (length heap ≤ S fuel)%nat → heapOrdered heap → I heap n →
    ∃ root n', mergeLoop fuel heap n = Ok ([root], n') ∧ I [root] n'.
Proof.
  intros Hperm Hstep. induction fuel as [|fuel IH]; intros heap n Hne Hlen Hord HI.
  - destruct heap as [|root [|x heap]]; [done | | cbn in Hlen; lia].
    by exists root, n.
  - cbn [mergeLoop]. unfold MinHeap.size.
    destruct (1 <? length heap)%nat eqn:Hsize.
    + apply Nat.ltb_lt in Hsize.
      destruct (extractMin_least heap Hord Hne) as (l & h1 & -> & Hp1 & Hmin1 & Hord1).
      assert (length heap = S (length h1)) as Hl1 by by rewrite Hp1.
      destruct (extractMin_least h1 Hord1) as (r & h2 & -> & Hp2 & Hmin2 & Hord2).
      { intros ->. cbn in Hl1. lia. }
      assert (length h1 = S (length h2)) as Hl2 by by rewrite Hp2.
      unfold generateNodeId at 1.
      destruct (IH (MinHeap.insert h2 (parentNode l r n)) (n + 1))
        as (root & n' & E & HI').
      * intros Hnil. apply (f_equal length) in Hnil.
        by rewrite MinHeapBag.insert_length in Hnil.
      * rewrite MinHeapBag.insert_length. lia.
      * by apply MinHeapOrder.insert_ordered.
      * apply (Hperm (parentNode l r n :: h2)).
        { by rewrite MinHeapBag.insert_perm. }
        apply Hstep; [| by rewrite <- Hp2 | done].
        apply (Hperm heap); [|done]. by rewrite Hp1, Hp2.
      * exists root, n'. split; [|done].
        unfold parentNode, generateNodeId in E. cbn [fst] in E. exact E.
    + apply Nat.ltb_ge in Hsize.
      destruct heap as [|root [|x heap]]; [done | | cbn in Hsize; lia].
      by exists root, n.
Qed.

(** The same rule for the whole builder: on a table of one key it returns
    the leaf under a synthetic root, on a larger table the node the merge
    loop ends with. *)
Lemma buildHuffmanTree_invariant (I : list HuffmanNode → Z → Prop)
    (frequencies : FrequencyMap) (n : Z) :
  (∀ heap heap' n, heap ≡ₚ heap' → I heap n → I heap' n) →
  (∀ l r rest n,
      I (l :: r :: rest) n →
      Forall (λ other, freq l ≤ freq other) (r :: rest) →
      Forall (λ other, freq r ≤ freq other) rest →
      I (parentNode l r n :: rest) (n + 1)) →
  Object_keys frequencies ≠ [] →
  I (leavesFrom frequencies (Object_keys frequencies) 0)
    (Z.of_nat (length (Object_keys frequencies))) →
  ∃ root n',
    buildHuffmanTree frequencies n = Ok (Some root, n') ∧
    ((∃ k, Object_keys frequencies = [k] ∧ n' = 2 ∧
           root = {| char := None;
                     freq := freq (leafNode frequencies k 0);
                     left := Some (leafNode frequencies k 0);
                     right := None;
                     id := (generateNodeId 1).1 |}) ∨
     ((2 ≤ length (Object_keys frequencies))%nat ∧ I [root] n')).
Proof.
  intros Hperm Hstep Hne HI. unfold buildHuffmanTree.
  destruct (insertLeaves_leaves frequencies (Object_keys frequencies) [] 0
              heapOrdered_nil) as (heap & -> & Hp & Hord).
  cbn [app] in Hp. rewrite Z.add_0_l.
  assert (length heap = length (Object_keys frequencies)) as Hlen.
  { rewrite Hp. clear. generalize 0. induction (Object_keys frequencies); intros z;
      cbn; [done | by rewrite IHl]. }
  replace (length (Object_keys frequencies) =? 0)%nat with false
    by (by destruct (Object_keys frequencies)).
  unfold MinHeap.size. destruct (length heap =? 1)%nat eqn:Hone.
  - apply Nat.eqb_eq in Hone.
    destruct (Object_keys frequencies) as [|k [|k' ks]] eqn:Hkeys;
      [done | | cbn in Hlen; lia].
    cbn [leavesFrom] in Hp. apply Permutation_singleton_r in Hp as ->.
    cbn. eexists _, _. split; [done |]. left. by exists k.
  - apply Nat.eqb_neq in Hone.
    destruct (mergeLoop_invariant I Hperm Hstep (length heap) heap
                (Z.of_nat (length (Object_keys frequencies))))
      as (root & n' & -> & HI').
    + intros ->. by destruct (Object_keys frequencies).
    + lia.
    + done.
    + by apply (Hperm (leavesFrom frequencies (Object_keys frequencies) 0)).
    + exists root, n'. split; [done |]. right. split; [|done].
      destruct (Object_keys frequencies) as [|k [|k' ks]]; cbn in *; [done | lia | lia].
Qed.

(** ** What the built tree holds *)

Lemma leafFreqs_unfold (node : HuffmanNode) :
  leafFreqs node =
  match char node with
  | Some c => [(c, freq node)]
  | None =>
    from_option leafFreqs [] (left node) ++ from_option leafFreqs [] (right node)
  end.
Proof. by destruct node as [c f [l|] [r|] i]. Qed.

Lemma nodeIds_unfold (node : HuffmanNode) :
  nodeIds node =
  id node :: from_option nodeIds [] (left node)
          ++ from_option nodeIds [] (right node).
Proof. by destruct node as [c f [l|] [r|] i]. Qed.

Lemma sumsChildren_unfold (node : HuffmanNode) :
  sumsChildren node ↔
  match char node with
  | Some _ => True
  | None =>
    freq node = from_option freq 0 (left node) + from_option freq 0 (right node) ∧
    from_option sumsChildren True (left node) ∧
    from_option sumsChildren True (right node)
  end.
Proof. by destruct node as [c f [l|] [r|] i]. Qed.

Lemma getTreeDepth_node_unfold (node : HuffmanNode) :
  getTreeDepth_node node =
  S (Nat.max (from_option getTreeDepth_node 0%nat (left node))
             (from_option getTreeDepth_node 0%nat (right node))).
Proof. by destruct node as [c f [l|] [r|] i]. Qed.

Lemma leafFreqs_chars (node : HuffmanNode) : (leafFreqs node).*1 = leafChars node.
Proof.
  induction node as [node IHl IHr] using HuffmanNode_children_ind.
  rewrite leafFreqs_unfold, leafChars_unfold.
  destruct (char node); [done |]. rewrite fmap_app.
  destruct (left node) as [l|], (right node) as [r|]; cbn [from_option];
    by rewrite ?(IHl _ eq_refl), ?(IHr _ eq_refl).
Qed.

(** The leaves the first loop creates. *)
Lemma leavesFrom_leafFreqs frequencies chars n :
  leavesFrom frequencies chars n ≫= leafFreqs =
  (λ k, (k, default 0 (obj_get k frequencies))) <$> chars.
Proof.
  revert n. induction chars as [|c chars IH]; intros n; [done |].
  cbn [leavesFrom]. rewrite bind_cons, IH. done.
Qed.

Lemma leavesFrom_length frequencies chars n :
  length (leavesFrom frequencies chars n) = length chars.
Proof. revert n. induction chars as [|c chars IH]; intros n; cbn; by rewrite ?IH. Qed.

Lemma leavesFrom_nodeIds frequencies chars n :
  leavesFrom frequencies chars n ≫= nodeIds =
  (λ i, (generateNodeId (n + Z.of_nat i)).1) <$> seq 0 (length chars).
Proof.
  revert n. induction chars as [|c chars IH]; intros n; [done |].
  cbn [leavesFrom length seq]. rewrite bind_cons, IH, fmap_cons.
  cbn [nodeIds leafNode left right id app]. rewrite Z.add_0_r. f_equal.
  rewrite <- fmap_S_seq, <- list_fmap_compose. apply list_fmap_ext.
  intros _ i _. unfold compose.
  by replace (n + 1 + Z.of_nat i) with (n + Z.of_nat (S i)) by lia.
Qed.

Lemma leavesFrom_full frequencies chars n :
  Forall full (leavesFrom frequencies chars n).
Proof.
  revert n. induction chars as [|c chars IH]; intros n; constructor; [done | apply IH].
Qed.

Lemma strict_unfold (node : HuffmanNode) :
  strict node ↔
  match char node with
  | Some _ => left node = None ∧ right node = None
  | None =>
    match left node, right node with
    | Some l, Some r => strict l ∧ strict r
    | _, _ => False
    end
  end.
Proof. by destruct node as [c f [l|] [r|] i]. Qed.

Lemma strict_full (node : HuffmanNode) : strict node → full node.
Proof.
  induction node as [node IHl IHr] using HuffmanNode_children_ind.
  rewrite strict_unfold, full_unfold. destruct (char node); [done |].
  destruct (left node) as [l|]; [|done]. destruct (right node) as [r|]; [|done].
  intros [Hl Hr]. split; [by apply IHl | by apply IHr].
Qed.

Lemma leavesFrom_strict frequencies chars n :
  Forall strict (leavesFrom frequencies chars n).
Proof.
  revert n. induction chars as [|c chars IH]; intros n; constructor; [done | apply IH].
Qed.

Lemma leavesFrom_sumsChildren frequencies chars n :
  Forall sumsChildren (leavesFrom frequencies chars n).
Proof.
  revert n. induction chars as [|c chars IH]; intros n; constructor; [done | apply IH].
Qed.

(** A node that carries the sums of its children carries the sum of the
    frequencies of its leaves. *)
Lemma sumsChildren_freq (node : HuffmanNode) :
  full node → sumsChildren node →
  freq node = foldr Z.add 0 (leafFreqs node).*2.
Proof.
  induction node as [node IHl IHr] using HuffmanNode_children_ind.
  rewrite full_unfold, sumsChildren_unfold, leafFreqs_unfold.
  destruct (char node); [cbn; lia |].
  destruct (left node) as [l|]; [|done]. destruct (right node) as [r|]; [|done].
  cbn [from_option]. intros [Hfl Hfr] (-> & Hl & Hr).
  rewrite fmap_app, foldr_app.
  rewrite (IHl l eq_refl Hfl Hl), (IHr r eq_refl Hfr Hr).
  generalize (foldr Z.add 0 (leafFreqs r).*2). intros z.
  induction ((leafFreqs l).*2) as [|x xs IH]; cbn; lia.
Qed.

(** Identifiers of different counter values differ. *)
Lemma generateNodeId_inj (a b : Z) :
  0 ≤ a → 0 ≤ b → (generateNodeId a).1 = (generateNodeId b).1 → a = b.
Proof.
  intros Ha Hb. unfold generateNodeId. cbn [fst]. intros E%app_inv_head.
  destruct (ReferenceJsonAtoms.Number_toString_spec a Ha) as (u & ds & Ea & _ & <- & _).
  destruct (ReferenceJsonAtoms.Number_toString_spec b Hb) as (v & es & Eb & _ & <- & _).
  by rewrite <- Ea, <- Eb, E.
Qed.

Lemma nodeIds_NoDup (k : nat) :
  NoDup ((λ i : nat, (generateNodeId (Z.of_nat i)).1) <$> seq 0 k).
Proof.
  apply NoDup_fmap_2_strong; [|apply NoDup_seq].
  intros i j _ _ E. apply generateNodeId_inj in E; lia.
Qed.

(** Reading every key of an object gives the object back. *)
Lemma obj_get_all {V} (d : V) (o : JSObject V) :
  NoDup (Object_keys o) →
  (λ k, (k, default d (obj_get k o))) <$> Object_keys o = o.
Proof.
  intros Hnd. unfold Object_keys. rewrite <- list_fmap_compose.
  transitivity (Datatypes.id <$> o); [|apply list_fmap_id]. apply list_fmap_ext.
  intros i [k v] Hi. cbn.
  by rewrite (obj_get_elem_of k v o Hnd (list_elem_of_lookup_2 _ _ _ Hi)).
Qed.

Lemma builderState_perm frequencies heap heap' n :
  heap ≡ₚ heap' → builderState frequencies heap n → builderState frequencies heap' n.
Proof.
  intros Hp (H1 & H2 & H2' & H3 & (k & Hk & H4) & H5).
  split; [by rewrite <- Hp |]. split; [by rewrite <- Hp |].
  split; [by rewrite <- Hp |].
  split; [by rewrite <- Hp |]. split; [|by rewrite <- Hp].
  exists k. by rewrite <- Hp.
Qed.

Lemma builderState_merge frequencies l r rest n :
  builderState frequencies (l :: r :: rest) n →
  builderState frequencies (parentNode l r n :: rest) (n + 1).
Proof.
  intros (H1 & H2 & H2' & H3 & (k & -> & H4) & H5).
  apply Forall_cons in H2 as [Hfl [Hfr H2]%Forall_cons].
  apply Forall_cons in H2' as [Htl [Htr H2']%Forall_cons].
  apply Forall_cons in H3 as [Hsl [Hsr H3]%Forall_cons].
  split; [|split; [|split; [|split; [|split]]]].
  - rewrite <- H1, !bind_cons, (leafFreqs_unfold (parentNode l r _)). cbn.
    by rewrite <- app_assoc.
  - constructor; [|done]. by rewrite full_unfold.
  - constructor; [|done]. by rewrite strict_unfold.
  - constructor; [|done]. by rewrite sumsChildren_unfold.
  - exists (S k). split; [lia |]. rewrite seq_S, fmap_app. cbn [fmap list_fmap].
    rewrite bind_cons, (nodeIds_unfold (parentNode l r _)).
    cbn [parentNode id left right from_option Nat.add].
    rewrite !bind_cons in H4. rewrite <- H4.
    rewrite <- Permutation_cons_append. cbn [app]. by rewrite <- app_assoc.
  - cbn [length] in *. lia.
Qed.

Lemma builderState_leaves frequencies :
  builderState frequencies
    (leavesFrom frequencies (Object_keys frequencies) 0)
    (Z.of_nat (length (Object_keys frequencies))).
Proof.
  split; [by rewrite leavesFrom_leafFreqs |].
  split; [apply leavesFrom_full |]. split; [apply leavesFrom_strict |].
  split; [apply leavesFrom_sumsChildren |].
  split; [|rewrite leavesFrom_length; lia].
  eexists. split; [done |]. rewrite leavesFrom_nodeIds.
  erewrite list_fmap_ext; [done |]. intros _ i _. by rewrite Z.add_0_l.
Qed.

(** The structure of the tree the builder returns for a table with a key. *)
Lemma buildHuffmanTree_structure (frequencies : FrequencyMap) (n : Z) :
  Object_keys frequencies ≠ [] →
  ∃ root n',
    buildHuffmanTree frequencies n = Ok (Some root, n') ∧
    builtShape root ∧
    leafFreqs root ≡ₚ
      (λ k, (k, default 0 (obj_get k frequencies))) <$> Object_keys frequencies ∧
    ((2 ≤ length (Object_keys frequencies))%nat → strict root) ∧
    sumsChildren root ∧
    (∃ k : nat, n' = Z.of_nat k ∧
       nodeIds root ≡ₚ
         (λ i : nat, (generateNodeId (Z.of_nat i)).1) <$> seq 0 k) ∧
    n' = (if bool_decide (length (Object_keys frequencies) = 1%nat) then 2
          else 2 * Z.of_nat (length (Object_keys frequencies)) - 1).
Proof.
  intros Hne.
  destruct (buildHuffmanTree_invariant (builderState frequencies) frequencies n)
    as (root & n' & E & H); [| | done | |].
  - intros heap heap' m. apply builderState_perm.
  - intros l r rest m H _ _. by apply builderState_merge.
  - apply builderState_leaves.
  - exists root, n'. split; [done |].
    destruct H as [(k & Hk & -> & ->)
                  | [Hlen (H1 & H2 & H2' & H3 & (k & -> & H4) & H5)]].
    + rewrite Hk. split.
      { left. split; [done |]. split; [done |]. by eexists _, _. }
      split; [done |]. split; [cbn; lia |].
      split; [by rewrite sumsChildren_unfold; cbn; lia |].
      split; [|done]. exists 2%nat. split; [done |]. cbn. apply perm_swap.
    + apply Forall_cons in H2 as [Hfull _]. apply Forall_cons in H2' as [Hstrict _].
      apply Forall_cons in H3 as [Hsums _].
      rewrite bind_cons in H1. rewrite bind_cons in H4.
      cbn [mbind list_bind] in H1, H4. rewrite app_nil_r in H1, H4.
      assert (char root = None) as Hchar.
      { destruct (char root) as [c|] eqn:Hc; [|done]. exfalso.
        apply Permutation_length in H1. rewrite leafFreqs_unfold, Hc in H1.
        rewrite length_fmap in H1. cbn in H1. lia. }
      split; [by right |]. split; [done |]. split; [done |]. split; [done |].
      split; [by exists k |]. case_bool_decide; cbn [length] in *; lia.
Qed.

(** ** Weighted path length: the exchange argument

    A candidate code is a list of leaves, each a depth and a weight, whose
    depths are those of a binary tree. *)

Lemma weightedDepth_cons (d : nat) (w : Z) (l : list (nat * Z)) :
  weightedDepth ((d, w) :: l) = Z.of_nat d * w + weightedDepth l.
Proof. reflexivity. Qed.

Lemma weightedDepth_app (l1 l2 : list (nat * Z)) :
  weightedDepth (l1 ++ l2) = weightedDepth l1 + weightedDepth l2.
Proof.
  induction l1 as [|[d w] l1 IH]; [done |].
  cbn [app]. rewrite !weightedDepth_cons, IH. lia.
Qed.

Lemma weightedDepth_perm (l1 l2 : list (nat * Z)) :
  l1 ≡ₚ l2 → weightedDepth l1 = weightedDepth l2.
Proof.
  induction 1 as [|[d w] l1 l2 _ IH|[d1 w1] [d2 w2] l|l1 l2 l3 _ IH1 _ IH2];
    rewrite ?weightedDepth_cons; lia.
Qed.

Lemma fmap_perm_inv {A B} (f : A → B) (l1 : list B) (l2 : list A) :
  l1 ≡ₚ f <$> l2 → ∃ l3, l1 = f <$> l3 ∧ l2 ≡ₚ l3.
Proof.
  intros Hp. destruct (Permutation_map_inv f (l1 := l1) l2) as (l3 & E & Hp').
  - replace (map f l2) with (f <$> l2); [done |]. clear.
    induction l2; cbn; by f_equal.
  - exists l3. split; [|done]. rewrite E. clear.
    induction l3; cbn; by f_equal.
Qed.

(** A list of depths of a tree is one depth, that of the root, or has two
    entries or more. *)
Lemma TreeDepths_cases d ds :
  TreeDepths d ds → ds = [d] ∨ (2 ≤ length ds)%nat.
Proof.
  induction 1 as [d|d ds1 ds2 _ IH1 _ IH2|d ds ds' _ IH Hp].
  - by left.
  - right. rewrite length_app. destruct IH1 as [-> | ?], IH2 as [-> | ?]; cbn; lia.
  - destruct IH as [-> | Hlen].
    + left. by apply Permutation_singleton_l in Hp.
    + right. by rewrite <- Hp.
Qed.

(** Two leaves of greatest depth are children of one node: they can be
    replaced by one leaf a level higher. *)
Lemma TreeDepths_deepest d ds :
  TreeDepths d ds → (2 ≤ length ds)%nat →
  ∃ D rest,
    (d ≤ D)%nat ∧ ds ≡ₚ S D :: S D :: rest ∧
    Forall (λ x, x ≤ S D)%nat rest ∧ TreeDepths d (D :: rest).
Proof.
  induction 1 as [d|d ds1 ds2 H1 IH1 H2 IH2|d ds ds' _ IH Hp]; intros Hlen.
  - cbn in Hlen. lia.
  - destruct (TreeDepths_cases _ _ H1) as [-> | Hl1],
             (TreeDepths_cases _ _ H2) as [-> | Hl2].
    + exists d, []. split; [done |]. split; [done |]. split; [done |]. constructor.
    + destruct (IH2 Hl2) as (D & rest & HD & Hp & Hle & Ht).
      exists D, (S d :: rest). split; [lia |]. split.
      { cbn [app]. rewrite Hp. apply (Permutation_middle [S D; S D] rest (S d)). }
      split; [constructor; [lia | done] |].
      apply (TreeDepths_perm d ([S d] ++ D :: rest)); [|apply perm_swap].
      constructor; [constructor | done].
    + destruct (IH1 Hl1) as (D & rest & HD & Hp & Hle & Ht).
      exists D, (rest ++ [S d]). split; [lia |]. split; [by rewrite Hp |].
      split; [apply Forall_app; split; [done | constructor; [lia | done]] |].
      apply (TreeDepths_node d (D :: rest) [S d]); [done | constructor].
    + destruct (IH1 Hl1) as (D1 & rest1 & HD1 & Hp1 & Hle1 & Ht1).
      destruct (IH2 Hl2) as (D2 & rest2 & HD2 & Hp2 & Hle2 & Ht2).
      destruct (decide (D2 ≤ D1)%nat) as [Hle | Hgt].
      * exists D1, (rest1 ++ ds2). split; [lia |]. split; [by rewrite Hp1 |].
        split; [|by apply (TreeDepths_node d (D1 :: rest1) ds2)].
        apply Forall_app. split; [done |]. rewrite Hp2.
        apply Forall_cons_2; [lia |]. apply Forall_cons_2; [lia |].
        eapply Forall_impl; [exact Hle2 |]. cbn. lia.
      * exists D2, (ds1 ++ rest2). split; [lia |]. split.
        { rewrite Hp2. rewrite <- !Permutation_middle. done. }
        split.
        { apply Forall_app. split; [|done]. rewrite Hp1.
          apply Forall_cons_2; [lia |]. apply Forall_cons_2; [lia |].
          eapply Forall_impl; [exact Hle1 |]. cbn. lia. }
        apply (TreeDepths_perm d (ds1 ++ D2 :: rest2)); [by constructor |].
        by rewrite <- Permutation_middle.
  - rewrite <- Hp in Hlen. destruct (IH Hlen) as (D & rest & HD & Hp' & Hle & Ht).
    exists D, rest. by rewrite <- Hp.
Qed.

(** Moving a least weight to a deepest leaf does not lengthen the path. *)
Lemma weightedDepth_exchange (d0 : nat) (x a : Z) (rest : list (nat * Z)) :
  Forall (λ dw, dw.1 ≤ d0)%nat rest →
  a ∈ x :: rest.*2 → Forall (λ w, a ≤ w) (x :: rest.*2) →
  ∃ rest',
    rest'.*1 = rest.*1 ∧ a :: rest'.*2 ≡ₚ x :: rest.*2 ∧
    weightedDepth ((d0, a) :: rest') ≤ weightedDepth ((d0, x) :: rest).
Proof.
  intros Hdepth Hin Hmin. apply elem_of_cons in Hin as [-> | Hin].
  - by exists rest.
  - apply list_elem_of_fmap in Hin as ([d a'] & -> & Hin). cbn [snd] in *.
    apply list_elem_of_split in Hin as (l1 & l2 & ->).
    exists (l1 ++ (d, x) :: l2). split; [by rewrite !fmap_app |]. split.
    + rewrite !fmap_app. cbn [fmap list_fmap snd].
      rewrite <- !Permutation_middle. apply perm_swap.
    + rewrite !weightedDepth_cons, !weightedDepth_app, !weightedDepth_cons.
      apply Forall_app in Hdepth as [_ [Hd _]%Forall_cons]. cbn [fst] in Hd.
      apply Forall_cons in Hmin as [Hax _]. nia.
Qed.

(** The step of the greedy argument: in any candidate the two least
    weights can be made children of one node without lengthening the
    path, and merged into one leaf, which shortens it by their sum. *)
Lemma weightedDepth_merge_least (l : list (nat * Z)) (a b : Z) (R : list Z) :
  TreeDepths 0 l.*1 → l.*2 ≡ₚ a :: b :: R →
  Forall (λ w, a ≤ w) (b :: R) → Forall (λ w, b ≤ w) R →
  ∃ l',
    TreeDepths 0 l'.*1 ∧ l'.*2 ≡ₚ (a + b) :: R ∧
    weightedDepth l' + a + b ≤ weightedDepth l.
Proof.
  intros Ht Hw Ha Hb.
  assert (2 ≤ length l.*1)%nat as Hlen.
  { rewrite length_fmap, <- (length_fmap snd), Hw. cbn. lia. }
  destruct (TreeDepths_deepest 0 _ Ht Hlen) as (D & restD & _ & Hp & Hle & Ht').
  symmetry in Hp. apply fmap_perm_inv in Hp as (l3 & E & Hp3).
  destruct l3 as [|[d1 x] [|[d2 y] rest]]; [done | done |].
  cbn [fmap list_fmap fst] in E. injection E as <- <- ->.
  rewrite (weightedDepth_perm l _ Hp3). rewrite Hp3 in Hw.
  cbn [fmap list_fmap snd] in Hw.
  destruct (weightedDepth_exchange (S D) x a ((S D, y) :: rest))
    as (rest1 & E1 & Hp1 & Hc1).
  { constructor; [done |]. by apply Forall_fmap in Hle. }
  { cbn [fmap list_fmap snd]. rewrite Hw. left. }
  { cbn [fmap list_fmap snd]. rewrite Hw. constructor; [lia | done]. }
  destruct rest1 as [|[d2 y'] rest1]; [done |].
  cbn [fmap list_fmap fst snd] in E1, Hp1. injection E1 as -> E1.
  assert (y' :: rest1.*2 ≡ₚ b :: R) as Hw1.
  { apply (Permutation_cons_inv (a := a)). by rewrite Hp1, Hw. }
  destruct (weightedDepth_exchange (S D) y' b rest1) as (rest2 & E2 & Hp2 & Hc2).
  { rewrite <- E1 in Hle. by apply Forall_fmap in Hle. }
  { rewrite Hw1. left. }
  { rewrite Hw1. constructor; [lia | done]. }
  exists ((D, a + b) :: rest2). split; [|split].
  - cbn [fmap list_fmap fst]. by rewrite E2, E1.
  - cbn [fmap list_fmap snd]. apply perm_skip.
    apply (Permutation_cons_inv (a := b)). by rewrite Hp2, Hw1.
  - rewrite !weightedDepth_cons in *. lia.
Qed.

(** ** The path length of the built tree *)

Lemma leafDepths_unfold (node : HuffmanNode) (d : nat) :
  leafDepths node d =
  match char node with
  | Some _ => [(d, freq node)]
  | None =>
    from_option (λ l, leafDepths l (S d)) [] (left node) ++
    from_option (λ r, leafDepths r (S d)) [] (right node)
  end.
Proof. by destruct node as [c f [l|] [r|] i]. Qed.

Lemma leafDepths_weights (node : HuffmanNode) (d : nat) :
  (leafDepths node d).*2 = (leafFreqs node).*2.
Proof.
  revert d. induction node as [node IHl IHr] using HuffmanNode_children_ind.
  intros d. rewrite leafDepths_unfold, leafFreqs_unfold.
  destruct (char node); [done |]. rewrite !fmap_app.
  destruct (left node) as [l|], (right node) as [r|]; cbn [from_option];
    by rewrite ?(IHl _ eq_refl), ?(IHr _ eq_refl).
Qed.

Lemma leafDepths_S (node : HuffmanNode) (d : nat) :
  leafDepths node (S d) = (λ dw, (S dw.1, dw.2)) <$> leafDepths node d.
Proof.
  revert d. induction node as [node IHl IHr] using HuffmanNode_children_ind.
  intros d. rewrite !leafDepths_unfold.
  destruct (char node); [done |]. rewrite !fmap_app.
  destruct (left node) as [l|], (right node) as [r|]; cbn [from_option];
    by rewrite ?(IHl _ eq_refl), ?(IHr _ eq_refl).
Qed.

Lemma weightedDepth_S (l : list (nat * Z)) :
  weightedDepth ((λ dw, (S dw.1, dw.2)) <$> l) =
  weightedDepth l + foldr Z.add 0 l.*2.
Proof.
  induction l as [|[d w] l IH]; [done |].
  cbn [fmap list_fmap fst snd foldr]. rewrite !weightedDepth_cons, IH. lia.
Qed.

(** Hanging two nodes under a parent lengthens every path by one: the
    path length grows by the two frequencies. *)
Lemma pathLength_parent (l r : HuffmanNode) (n : Z) :
  full l → full r → sumsChildren l → sumsChildren r →
  pathLength (parentNode l r n) = pathLength l + pathLength r + freq l + freq r.
Proof.
  intros Hfl Hfr Hsl Hsr. unfold pathLength.
  rewrite (leafDepths_unfold (parentNode l r n)). cbn [parentNode char left right from_option].
  rewrite weightedDepth_app, !leafDepths_S, !weightedDepth_S, !leafDepths_weights.
  rewrite <- (sumsChildren_freq l), <- (sumsChildren_freq r) by done. lia.
Qed.

(** The leaves of a full node sit at the depths of a tree. *)
Lemma leafDepths_TreeDepths (node : HuffmanNode) (d : nat) :
  full node → TreeDepths d (leafDepths node d).*1.
Proof.
  revert d. induction node as [node IHl IHr] using HuffmanNode_children_ind.
  intros d. rewrite full_unfold, leafDepths_unfold.
  destruct (char node); [intros _; constructor |].
  destruct (left node) as [l|]; [|done]. destruct (right node) as [r|]; [|done].
  intros [Hl Hr]. cbn [from_option]. rewrite fmap_app.
  constructor; [by apply IHl | by apply IHr].
Qed.

(** ** The merge loop is greedy *)

Lemma mergeState_perm weights heap heap' n :
  heap ≡ₚ heap' → mergeState weights heap n → mergeState weights heap' n.
Proof.
  intros Hp (Hf & Hs & H). split; [by rewrite <- Hp |]. split; [by rewrite <- Hp |].
  intros cand Ht Hw. destruct (H cand Ht Hw) as (cand' & Ht' & Hw' & Hle).
  exists cand'. split; [done |]. split; [by rewrite <- Hp |].
  assert (foldr (λ t acc, pathLength t + acc) 0 heap' =
          foldr (λ t acc, pathLength t + acc) 0 heap) as ->; [|done].
  clear -Hp. induction Hp; cbn; lia.
Qed.

Lemma mergeState_merge weights l r rest n :
  mergeState weights (l :: r :: rest) n →
  Forall (λ other, freq l ≤ freq other) (r :: rest) →
  Forall (λ other, freq r ≤ freq other) rest →
  mergeState weights (parentNode l r n :: rest) (n + 1).
Proof.
  intros (Hf & Hs & H) Hl Hr.
  apply Forall_cons in Hf as [Hfl [Hfr Hf]%Forall_cons].
  apply Forall_cons in Hs as [Hsl [Hsr Hs]%Forall_cons].
  split; [constructor; [by rewrite full_unfold | done] |].
  split; [constructor; [by rewrite sumsChildren_unfold | done] |].
  intros cand Ht Hw. destruct (H cand Ht Hw) as (cand' & Ht' & Hw' & Hle).
  destruct (weightedDepth_merge_least cand' (freq l) (freq r) (freq <$> rest))
    as (cand'' & Ht'' & Hw'' & Hle''); [done | done | | |].
  - by apply Forall_fmap in Hl.
  - by apply Forall_fmap in Hr.
  - exists cand''. split; [done |]. split; [done |].
    cbn [foldr] in *. rewrite pathLength_parent by done. lia.
Qed.

Lemma mergeState_leaves frequencies chars n :
  mergeState (freq <$> leavesFrom frequencies chars n)
    (leavesFrom frequencies chars n)
    (Z.of_nat (length chars)).
Proof.
  split; [apply leavesFrom_full |]. split; [apply leavesFrom_sumsChildren |].
  intros cand Ht Hw. exists cand. split; [done |]. split; [done |].
  assert (foldr (λ t acc, pathLength t + acc) 0 (leavesFrom frequencies chars n) = 0)
    as ->; [|lia].
  clear. revert n. induction chars as [|c chars IH]; intros n; [done |].
  cbn [leavesFrom foldr]. rewrite IH. unfold pathLength. cbn. lia.
Qed.

Lemma leavesFrom_freq frequencies chars n :
  freq <$> leavesFrom frequencies chars n =
  (λ k, default 0 (obj_get k frequencies)) <$> chars.
Proof.
  revert n. induction chars as [|c chars IH]; intros n; [done |].
  cbn [leavesFrom fmap list_fmap]. by rewrite <- (IH (n + 1)).
Qed.

(** The tree built for a table of two keys or more has the least weighted
    path length among the candidates for the frequencies of the table. *)
Lemma buildHuffmanTree_least_path (frequencies : FrequencyMap) (n : Z) :
  (2 ≤ length (Object_keys frequencies))%nat →
  ∃ root n',
    buildHuffmanTree frequencies n = Ok (Some root, n') ∧
    ∀ cand : list (nat * Z),
      TreeDepths 0 cand.*1 →
      cand.*2 ≡ₚ (λ k, default 0 (obj_get k frequencies)) <$> Object_keys frequencies →
      pathLength root ≤ weightedDepth cand.
Proof.
  intros Hlen.
  destruct (buildHuffmanTree_invariant
              (mergeState ((λ k, default 0 (obj_get k frequencies))
                             <$> Object_keys frequencies))
              frequencies n) as (root & n' & E & H).
  - intros heap heap' m. apply mergeState_perm.
  - intros l r rest m. apply mergeState_merge.
  - intros E. rewrite E in Hlen. cbn in Hlen. lia.
  - rewrite <- (leavesFrom_freq frequencies _ 0). apply mergeState_leaves.
  - exists root, n'. split; [done |].
    destruct H as [(k & Hk & _) | [_ (Hf & Hs & H)]].
    { rewrite Hk in Hlen. cbn in Hlen. lia. }
    intros cand Ht Hw. destruct (H cand Ht Hw) as (cand' & Ht' & Hw' & Hle).
    cbn [foldr fmap list_fmap] in Hw', Hle.
    pose proof (Permutation_length Hw') as Hl'. rewrite length_fmap in Hl'.
    destruct cand' as [|[d w] [|? ?]]; [done | | done].
    cbn in Ht'. destruct (TreeDepths_cases _ _ Ht') as [[= ->] | Hl];
      [|cbn in Hl; lia].
    rewrite weightedDepth_cons in Hle. cbn in Hle. lia.
Qed.

(** ** Prefix-free bit codes are candidates

    A list of bit strings none of which is a prefix of another is read as
    a binary tree, level by level: the codes that start with ['0'] on one
    side, those that start with ['1'] on the other. *)

Lemma listBits_cons (d : nat) (c : jsstring) (w : Z) (codes : list (jsstring * Z)) :
  listBits d ((c, w) :: codes) = Z.of_nat (d + length c) * w + listBits d codes.
Proof. reflexivity. Qed.

Lemma listBits_app (d : nat) (l1 l2 : list (jsstring * Z)) :
  listBits d (l1 ++ l2) = listBits d l1 + listBits d l2.
Proof.
  induction l1 as [|[c w] l1 IH]; [done |].
  cbn [app]. rewrite !listBits_cons, IH. lia.
Qed.

Lemma listBits_perm (d : nat) (l1 l2 : list (jsstring * Z)) :
  l1 ≡ₚ l2 → listBits d l1 = listBits d l2.
Proof.
  induction 1 as [|[c w] l1 l2 _ IH|[c1 w1] [c2 w2] l|l1 l2 l3 _ IH1 _ IH2];
    rewrite ?listBits_cons; lia.
Qed.

Lemma listBits_bit (d : nat) (b : Z) (l : list (jsstring * Z)) :
  listBits d ((λ tw, (b :: tw.1, tw.2)) <$> l) = listBits (S d) l.
Proof.
  induction l as [|[c w] l IH]; [done |].
  cbn [fmap list_fmap fst snd]. rewrite !listBits_cons, IH. cbn [length].
  by replace (d + S (length c))%nat with (S d + length c)%nat by lia.
Qed.

Lemma listBits_S (d : nat) (l : list (jsstring * Z)) :
  Forall (λ cw, 0 ≤ cw.2) l → listBits d l ≤ listBits (S d) l.
Proof.
  induction 1 as [|[c w] l Hw _ IH]; [done |].
  rewrite !listBits_cons. cbn in Hw. nia.
Qed.

Lemma tailsWith_cons (b : Z) (c : jsstring) (w : Z) (codes : list (jsstring * Z)) :
  tailsWith b ((c, w) :: codes) =
  match c with
  | u :: t => if u =? b then (t, w) :: tailsWith b codes else tailsWith b codes
  | [] => tailsWith b codes
  end.
Proof. unfold tailsWith. cbn. destruct c as [|u t]; [done |]. by destruct (u =? b). Qed.

Lemma tailsWith_elem (b : Z) (t : jsstring) (w : Z) (codes : list (jsstring * Z)) :
  (t, w) ∈ tailsWith b codes ↔ (b :: t, w) ∈ codes.
Proof.
  induction codes as [|[c w'] codes IH]; [by rewrite !elem_of_nil |].
  rewrite tailsWith_cons, elem_of_cons. destruct c as [|u t'].
  - rewrite IH. split; [tauto |]. by intros [[=] | ?].
  - destruct (Z.eqb_spec u b) as [-> | Hne].
    + rewrite elem_of_cons, IH. split; (intros [[=] | ?]; [left; congruence | by right]).
    + rewrite IH. split; [tauto |]. intros [[=] | ?]; [congruence | done].
Qed.

(** The codes of a list of bit strings that are not empty fall into the
    two halves. *)
Lemma tailsWith_split (codes : list (jsstring * Z)) :
  Forall (λ cw, isBitString cw.1 ∧ cw.1 ≠ []) codes →
  codes ≡ₚ ((λ tw, (48 :: tw.1, tw.2)) <$> tailsWith 48 codes)
         ++ ((λ tw, (49 :: tw.1, tw.2)) <$> tailsWith 49 codes).
Proof.
  induction 1 as [|[c w] codes [Hbits Hne] _ IH]; [done |].
  rewrite !tailsWith_cons. destruct c as [|u t]; [done |].
  apply Forall_cons in Hbits as [[-> | ->] _]; cbn [Z.eqb Pos.eqb].
  - cbn [fmap list_fmap app fst snd]. by apply perm_skip.
  - cbn [fmap list_fmap fst snd]. rewrite <- Permutation_middle. by apply perm_skip.
Qed.

Lemma tailsWith_prefixFree (b : Z) (codes : list (jsstring * Z)) :
  prefixFreeList codes → prefixFreeList (tailsWith b codes).
Proof.
  induction codes as [|[c w] codes IH]; [done |].
  intros [Hall Hrest]. rewrite tailsWith_cons.
  destruct c as [|u t]; [by apply IH |].
  destruct (Z.eqb_spec u b) as [-> | Hne]; [|by apply IH].
  split; [|by apply IH]. apply Forall_forall. intros [t' w'] Hin.
  apply tailsWith_elem in Hin. rewrite Forall_forall in Hall.
  destruct (Hall _ Hin) as [H1 H2]. cbn [fst] in *.
  split; intros [k Hk]; [apply H1 | apply H2]; exists k; cbn; by rewrite Hk.
Qed.

Lemma tailsWith_lengths (b : Z) (n : nat) (codes : list (jsstring * Z)) :
  Forall (λ cw, (length cw.1 ≤ S n)%nat ∧ isBitString cw.1 ∧ 0 ≤ cw.2) codes →
  Forall (λ cw, (length cw.1 ≤ n)%nat ∧ isBitString cw.1 ∧ 0 ≤ cw.2)
         (tailsWith b codes).
Proof.
  intros H. apply Forall_forall. intros [t w] Hin%tailsWith_elem.
  rewrite Forall_forall in H. destruct (H _ Hin) as (Hl & Hb & Hw).
  cbn [fst snd length] in *. apply Forall_cons in Hb as [_ Hb].
  split; [lia | done].
Qed.

(** In a prefix-free list of two codes or more no code is empty. *)
Lemma prefixFreeList_nonempty (codes : list (jsstring * Z)) :
  prefixFreeList codes → (2 ≤ length codes)%nat →
  Forall (λ cw, cw.1 ≠ []) codes.
Proof.
  destruct codes as [|[c1 w1] [|[c2 w2] codes]]; [cbn; lia | cbn; lia |].
  intros [[[H12 H21] Hall]%Forall_cons [Hall2 Hrest]] _. cbn [fst] in *.
  apply Forall_cons_2.
  { cbn. intros ->. apply H12, prefix_nil. }
  apply Forall_cons_2.
  { cbn. intros ->. apply H21, prefix_nil. }
  apply Forall_forall. intros [c w] Hin. cbn. intros ->.
  rewrite Forall_forall in Hall. destruct (Hall _ Hin) as [_ H]. apply H, prefix_nil.
Qed.

(** A prefix-free list of bit codes with weights that are not negative
    spends at least the weighted path length of some candidate for those
    weights. *)
Lemma prefixFreeList_candidate (n : nat) (codes : list (jsstring * Z)) (d : nat) :
  Forall (λ cw, (length cw.1 ≤ n)%nat ∧ isBitString cw.1 ∧ 0 ≤ cw.2) codes →
  prefixFreeList codes → codes ≠ [] →
  ∃ cand : list (nat * Z),
    TreeDepths d cand.*1 ∧ cand.*2 ≡ₚ codes.*2 ∧
    weightedDepth cand ≤ listBits d codes.
Proof.
  revert codes d. induction n as [|n IH]; intros codes d Hall Hpf Hne.
  - destruct codes as [|[c w] [|cw2 codes]]; [done | |].
    + exists [(d, w)]. split; [constructor |]. split; [done |].
      apply Forall_cons in Hall as [(_ & _ & Hw) _]. cbn in Hw.
      rewrite weightedDepth_cons, listBits_cons. cbn. nia.
    + exfalso. pose proof (prefixFreeList_nonempty _ Hpf) as Hnonempty.
      apply Forall_cons in Hall as [(Hl & _) _].
      apply Forall_cons in Hnonempty as [Hc _]; [|cbn; lia].
      cbn in Hl, Hc. destruct c; [done | cbn in Hl; lia].
  - destruct codes as [|[c w] [|cw2 codes]]; [done | |].
    + exists [(d, w)]. split; [constructor |]. split; [done |].
      apply Forall_cons in Hall as [(_ & _ & Hw) _]. cbn in Hw.
      rewrite weightedDepth_cons, listBits_cons. cbn. nia.
    + set (L := (c, w) :: cw2 :: codes) in *.
      assert (2 ≤ length L)%nat as Hlen by (cbn; lia).
      pose proof (prefixFreeList_nonempty _ Hpf Hlen) as Hnonempty.
      assert (Forall (λ cw, isBitString cw.1 ∧ cw.1 ≠ []) L) as Hsplit.
      { apply Forall_forall. intros cw Hin. rewrite Forall_forall in Hall, Hnonempty.
        split; [apply Hall, Hin | apply Hnonempty, Hin]. }
      pose proof (tailsWith_split L Hsplit) as Hp.
      pose proof (tailsWith_lengths 48 n L Hall) as Hall0.
      pose proof (tailsWith_lengths 49 n L Hall) as Hall1.
      pose proof (tailsWith_prefixFree 48 L Hpf) as Hpf0.
      pose proof (tailsWith_prefixFree 49 L Hpf) as Hpf1.
      assert (Forall (λ cw, 0 ≤ cw.2) (tailsWith 48 L)) as Hw0
        by (eapply Forall_impl; [exact Hall0 | cbn; tauto]).
      assert (Forall (λ cw, 0 ≤ cw.2) (tailsWith 49 L)) as Hw1
        by (eapply Forall_impl; [exact Hall1 | cbn; tauto]).
      assert (listBits d L = listBits (S d) (tailsWith 48 L)
                             + listBits (S d) (tailsWith 49 L)) as Hbits.
      { rewrite (listBits_perm d _ _ Hp), listBits_app. by rewrite !listBits_bit. }
      assert (L.*2 ≡ₚ (tailsWith 48 L).*2 ++ (tailsWith 49 L).*2) as Hweights.
      { rewrite Hp at 1. rewrite fmap_app, <- !list_fmap_compose. done. }
      clearbody L. clear Hne.
      destruct (decide (tailsWith 48 L = [])) as [E0 | Hne0];
        [|destruct (decide (tailsWith 49 L = [])) as [E1 | Hne1]].
      * assert (tailsWith 49 L ≠ []) as Hne1.
        { intros E1. rewrite E0, E1 in Hp. cbn in Hp.
          apply Permutation_nil_r in Hp. subst L. cbn in Hlen. lia. }
        destruct (IH _ d Hall1 Hpf1 Hne1) as (cand & Ht & Hw & Hle).
        exists cand. split; [done |]. split; [by rewrite Hweights, E0 |].
        rewrite Hbits, E0. cbn [listBits foldr].
        pose proof (listBits_S d _ Hw1). fold (listBits (S d) (tailsWith 49 L)). lia.
      * destruct (IH _ d Hall0 Hpf0 Hne0) as (cand & Ht & Hw & Hle).
        exists cand. split; [done |]. split; [by rewrite Hweights, E1, app_nil_r |].
        rewrite Hbits, E1. cbn [listBits foldr].
        pose proof (listBits_S d _ Hw0). fold (listBits (S d) (tailsWith 48 L)). lia.
      * destruct (IH _ (S d) Hall0 Hpf0 Hne0) as (cand0 & Ht0 & Hwt0 & Hle0).
        destruct (IH _ (S d) Hall1 Hpf1 Hne1) as (cand1 & Ht1 & Hwt1 & Hle1).
        exists (cand0 ++ cand1). rewrite !fmap_app. split; [by constructor |].
        split; [by rewrite Hweights, Hwt0, Hwt1 |].
        rewrite weightedDepth_app. lia.
Qed.

(** ** From the tree to the code table and the bit count *)

Lemma leafEntries_unfold (node : HuffmanNode) (code : jsstring) :
  leafEntries node code =
  match char node with
  | Some c => [(c, freq node, code)]
  | None =>
    from_option (λ l, leafEntries l (code ++ js "0")) [] (left node) ++
    from_option (λ r, leafEntries r (code ++ js "1")) [] (right node)
  end.
Proof. by destruct node as [c f [l|] [r|] i]. Qed.

Lemma leafEntries_codes (node : HuffmanNode) (code : jsstring) :
  (λ e, (e.1.1, e.2)) <$> leafEntries node code = leafCodes node code.
Proof.
  revert code. induction node as [node IHl IHr] using HuffmanNode_children_ind.
  intros code. rewrite leafEntries_unfold, leafCodes_unfold.
  destruct (char node); [done |]. rewrite !fmap_app.
  destruct (left node) as [l|], (right node) as [r|]; cbn [from_option];
    by rewrite ?(IHl _ eq_refl), ?(IHr _ eq_refl).
Qed.

Lemma leafEntries_freqs (node : HuffmanNode) (code : jsstring) :
  fst <$> leafEntries node code = leafFreqs node.
Proof.
  revert code. induction node as [node IHl IHr] using HuffmanNode_children_ind.
  intros code. rewrite leafEntries_unfold, leafFreqs_unfold.
  destruct (char node); [done |]. rewrite !fmap_app.
  destruct (left node) as [l|], (right node) as [r|]; cbn [from_option];
    by rewrite ?(IHl _ eq_refl), ?(IHr _ eq_refl).
Qed.

Lemma leafEntries_depths (node : HuffmanNode) (code : jsstring) :
  (λ e, (length e.2, e.1.2)) <$> leafEntries node code =
  leafDepths node (length code).
Proof.
  revert code. induction node as [node IHl IHr] using HuffmanNode_children_ind.
  intros code. rewrite leafEntries_unfold, leafDepths_unfold.
  destruct (char node); [done |]. rewrite !fmap_app.
  assert (∀ b, length (code ++ js b) = S (length code) ∨ True) as _ by (by right).
  destruct (left node) as [l|], (right node) as [r|]; cbn [from_option];
    rewrite ?(IHl _ eq_refl), ?(IHr _ eq_refl), ?length_app; cbn [length js];
    by rewrite ?Nat.add_1_r.
Qed.

(** The table [generateCodes] fills holds, for every leaf of a tree with
    distinct symbols, the code of that leaf. *)
Lemma generateCodes_lookup (root : HuffmanNode) (c : jsstring) (f : Z)
    (w : jsstring) :
  NoDup (leafChars root) → c ≠ js "__proto__" →
  (c, f, w) ∈ leafEntries root [] →
  obj_get c (generateCodes (Some root)) = Some (storedCode w).
Proof.
  intros Hnd Hproto Hin. unfold generateCodes. rewrite traverse_assignCodes.
  apply assignCodes_lookup; [by rewrite leafCodes_chars | apply NoDup_nil_2 | done |].
  rewrite <- leafEntries_codes. apply list_elem_of_fmap. by exists (c, f, w).
Qed.

Lemma encodedBits_cons (codes : CodeMap) (k : jsstring) (v : Z)
    (frequencies : FrequencyMap) :
  encodedBits codes ((k, v) :: frequencies) =
  v * codeLength codes k + encodedBits codes frequencies.
Proof. reflexivity. Qed.

Lemma encodedBits_perm (codes : CodeMap) (f1 f2 : FrequencyMap) :
  f1 ≡ₚ f2 → encodedBits codes f1 = encodedBits codes f2.
Proof.
  induction 1 as [|[k v] l1 l2 _ IH|[k1 v1] [k2 v2] l|l1 l2 l3 _ IH1 _ IH2];
    rewrite ?encodedBits_cons; lia.
Qed.

(** The bits the table of a tree spends are the weighted path length of
    the tree, when the root is not a leaf and the symbols are distinct. *)
Lemma encodedBits_pathLength (root : HuffmanNode) :
  char root = None → NoDup (leafChars root) →
  js "__proto__" ∉ leafChars root →
  encodedBits (generateCodes (Some root)) (leafFreqs root) = pathLength root.
Proof.
  intros Hchar Hnd Hproto. unfold pathLength.
  change 0%nat with (length ([] : jsstring)).
  rewrite <- leafEntries_depths, <- (leafEntries_freqs root []).
  assert (Forall (λ e, codeLength (generateCodes (Some root)) e.1.1
                       = Z.of_nat (length e.2)) (leafEntries root [])) as Hall.
  { apply Forall_forall. intros [[c f] w] Hin. cbn [fst snd].
    assert ((c, w) ∈ leafCodes root []) as Hcw.
    { rewrite <- leafEntries_codes. apply list_elem_of_fmap. by exists (c, f, w). }
    unfold codeLength. rewrite (generateCodes_lookup root c f w); [| done | | done].
    - cbn [default]. rewrite storedCode_id; [done |].
      by apply (leafCodes_internal_nonempty root c).
    - intros ->. apply Hproto. rewrite <- (leafCodes_chars root []).
      apply list_elem_of_fmap. by exists (js "__proto__", w). }
  induction Hall as [|[[c f] w] es Hc _ IH]; [done |].
  cbn [fmap list_fmap fst snd] in *.
  rewrite encodedBits_cons, weightedDepth_cons, IH, Hc. lia.
Qed.

(** The weighted codes a code table gives to the keys of a frequency
    table. *)
Lemma listBits_encodedBits (codes : CodeMap) (frequencies : FrequencyMap) :
  listBits 0
    ((λ kv, (default (js "undefined") (obj_get kv.1 codes), kv.2))
       <$> frequencies)
  = encodedBits codes frequencies.
Proof.
  induction frequencies as [|[k v] fs IH]; [done |].
  cbn [fmap list_fmap fst snd]. rewrite listBits_cons, encodedBits_cons, IH.
  unfold codeLength. cbn [Nat.add]. lia.
Qed.

Lemma prefixFree_prefixFreeList (codes : CodeMap) (frequencies : FrequencyMap) :
  NoDup (Object_keys frequencies) →
  (∀ k, k ∈ Object_keys frequencies → is_Some (obj_get k codes)) →
  prefixFree codes →
  prefixFreeList
    ((λ kv, (default (js "undefined") (obj_get kv.1 codes), kv.2))
       <$> frequencies).
Proof.
  intros Hnd Hsome Hpf. induction frequencies as [|[k v] fs IH]; [done |].
  cbn in Hnd. apply NoDup_cons in Hnd as [Hk Hnd].
  cbn [fmap list_fmap fst snd prefixFreeList]. split.
  - apply Forall_fmap, Forall_forall. intros [k' v'] Hin. cbn.
    assert (k' ∈ Object_keys fs) as Hk'
      by (apply list_elem_of_fmap; by exists (k', v')).
    destruct (Hsome k) as [w Hw]; [left |].
    destruct (Hsome k') as [w' Hw']; [by right |].
    rewrite Hw, Hw'. cbn [default].
    assert (k ≠ k') as Hne by (by intros ->).
    split; [by apply (Hpf k k') | by apply (Hpf k' k)].
  - apply IH; [done |]. intros k' Hk'. apply Hsome. by right.
Qed.

(** A prefix-free table of bit codes spends at least the weighted path
    length of some candidate for the frequencies. *)
Lemma prefixFree_candidate (codes : CodeMap) (frequencies : FrequencyMap) :
  NoDup (Object_keys frequencies) → frequencies ≠ [] →
  Forall (λ kv, 0 ≤ kv.2) frequencies →
  (∀ k, k ∈ Object_keys frequencies →
        ∃ w, obj_get k codes = Some w ∧ isBitString w) →
  prefixFree codes →
  ∃ cand : list (nat * Z),
    TreeDepths 0 cand.*1 ∧ cand.*2 ≡ₚ frequencies.*2 ∧
    weightedDepth cand ≤ encodedBits codes frequencies.
Proof.
  intros Hnd Hne Hpos Hcodes Hpf.
  set (L := (λ kv, (default (js "undefined") (obj_get kv.1 codes), kv.2))
              <$> frequencies).
  destruct (prefixFreeList_candidate (length (concat L.*1)) L 0)
    as (cand & Ht & Hw & Hle).
  - apply Forall_forall. intros [c w] Hin.
    pose proof Hin as Hin'. unfold L in Hin'.
    apply list_elem_of_fmap in Hin' as ([k v] & [= -> ->] & Hkv). cbn [fst snd].
    split; [|split].
    + apply list_elem_of_split in Hin as (l1 & l2 & ->).
      rewrite fmap_app, concat_app, length_app. cbn. rewrite length_app. lia.
    + destruct (Hcodes k) as (w & -> & Hbits); [|done].
      apply list_elem_of_fmap. by exists (k, v).
    + rewrite Forall_forall in Hpos. by apply (Hpos (k, v)).
  - apply prefixFree_prefixFreeList; [done | | done].
    intros k Hk. destruct (Hcodes k Hk) as (w & -> & _). by eexists.
  - unfold L. by destruct frequencies.
  - exists cand. split; [done |]. split.
    + rewrite Hw. unfold L. by rewrite <- list_fmap_compose.
    + by rewrite <- listBits_encodedBits.
Qed.

(** ** Counting symbols *)

(** A sum over the entries of a frequency table, each frequency weighted
    by a function of its key, and what one turn of the counting loop adds
    to it. *)
Lemma weightedSum_perm (g : jsstring → Z) (f1 f2 : FrequencyMap) :
  f1 ≡ₚ f2 →
  foldr (λ kv acc, kv.2 * g kv.1 + acc) 0 f1 =
  foldr (λ kv acc, kv.2 * g kv.1 + acc) 0 f2.
Proof. induction 1; cbn; lia. Qed.

Lemma weightedSum_update (g : jsstring → Z) (k : jsstring) (v old : Z)
    (f : FrequencyMap) :
  obj_get k f = Some old →
  foldr (λ kv acc, kv.2 * g kv.1 + acc) 0 (obj_update k v f) =
  foldr (λ kv acc, kv.2 * g kv.1 + acc) 0 f + (v - old) * g k.
Proof.
  induction f as [|[k' v'] f IH]; [done |]. cbn [obj_get obj_update].
  case_bool_decide as Hk.
  - intros [= ->]. subst k'. cbn. lia.
  - intros Hget. cbn. rewrite (IH Hget). lia.
Qed.

Lemma weightedSum_count (g : jsstring → Z) (char : jsstring) (f : FrequencyMap) :
  NoDup (Object_keys f) → char ≠ js "__proto__" →
  foldr (λ kv acc, kv.2 * g kv.1 + acc) 0
        (obj_set char (default 0 (obj_get char f) + 1) f) =
  foldr (λ kv acc, kv.2 * g kv.1 + acc) 0 f + g char.
Proof.
  intros Hnd Hproto. rewrite obj_set_define by done.
  destruct (obj_get char f) as [old|] eqn:Hget.
  - unfold obj_define, obj_has.
    rewrite bool_decide_eq_true_2 by (apply obj_get_is_Some; by eexists).
    rewrite (weightedSum_update g char _ old) by done. cbn. lia.
  - apply obj_get_None in Hget.
    rewrite (weightedSum_perm g _ _ (obj_define_fresh_perm _ _ _ Hget)). cbn. lia.
Qed.

Lemma calculateFrequencies_weightedSum (g : jsstring → Z) (text : jsstring) :
  foldr (λ kv acc, kv.2 * g kv.1 + acc) 0 (calculateFrequencies text) =
  foldr (λ cp acc, g cp + acc) 0 (codePoints text).
Proof.
  unfold calculateFrequencies.
  pose proof (codePoints_length text) as Hlen.
  set (step := λ (frequencies : FrequencyMap) (char : jsstring), _).
  cut (∀ cps (f : FrequencyMap),
         Forall (λ cp, length cp = 1 ∨ length cp = 2)%nat cps →
         NoDup (Object_keys f) →
         foldr (λ kv acc, kv.2 * g kv.1 + acc) 0 (fold_left step cps f) =
         foldr (λ kv acc, kv.2 * g kv.1 + acc) 0 f
         + foldr (λ cp acc, g cp + acc) 0 cps).
  { intros H. rewrite (H (codePoints text) [] Hlen); [done | constructor]. }
  clear. induction cps as [|cp cps IH]; intros f Hlen Hnd; cbn [fold_left foldr].
  - lia.
  - apply Forall_cons in Hlen as [Hcp Hlen].
    rewrite IH; [| done | by apply obj_set_NoDup].
    unfold step. rewrite weightedSum_count; [lia | done |].
    by apply codePoint_not_proto.
Qed.

(** The value the counting loop leaves at a key. *)
Lemma calculateFrequencies_count (char : jsstring) (text : jsstring) :
  default 0 (obj_get char (calculateFrequencies text)) = occurrences char text.
Proof.
  unfold calculateFrequencies, occurrences.
  pose proof (codePoints_length text) as Hlen.
  set (step := λ (frequencies : FrequencyMap) (c : jsstring), _).
  cut (∀ cps (f : FrequencyMap),
         Forall (λ cp, length cp = 1 ∨ length cp = 2)%nat cps →
         NoDup (Object_keys f) →
         default 0 (obj_get char (fold_left step cps f)) =
         default 0 (obj_get char f)
         + Z.of_nat (length (filter (λ cp, cp = char) cps))).
  { intros H. rewrite (H (codePoints text) [] Hlen); [done | constructor]. }
  clear. induction cps as [|cp cps IH]; intros f Hlen Hnd; cbn [fold_left].
  - cbn. lia.
  - apply Forall_cons in Hlen as [Hcp Hlen].
    rewrite IH; [| done | by apply obj_set_NoDup].
    unfold step. rewrite obj_set_define by by apply codePoint_not_proto.
    rewrite obj_get_define by done. rewrite filter_cons.
    destruct (decide (cp = char)) as [-> | Hne].
    + rewrite bool_decide_eq_true_2 by done.
      set (old := default 0 (obj_get char f)). cbn [default length].
      unfold Datatypes.id. lia.
    + rewrite bool_decide_eq_false_2 by congruence. lia.
Qed.

(** ** The code table is optimal *)

(** The bits of the encoded text are the bits the table spends on the
    frequencies of the text. *)
Lemma encodeText_bits (codes : CodeMap) (text : jsstring) :
  Z.of_nat (length (encodeText codes text)) =
  encodedBits codes (calculateFrequencies text).
Proof.
  unfold encodedBits.
  rewrite (calculateFrequencies_weightedSum (codeLength codes) text).
  rewrite encodeText_concat. induction (codePoints text) as [|cp cps IH]; [done |].
  cbn [fmap list_fmap concat foldr]. rewrite length_app, Nat2Z.inj_add, IH.
  done.
Qed.

Lemma keys_nil {V} (o : JSObject V) : Object_keys o = [] → o = [].
Proof. by destruct o. Qed.

(** The structure and the least path length of the tree built for an
    object of two keys or more. *)
Lemma buildHuffmanTree_large (frequencies : FrequencyMap) (n : Z) :
  NoDup (Object_keys frequencies) →
  (2 ≤ length (Object_keys frequencies))%nat →
  ∃ root n',
    buildHuffmanTree frequencies n = Ok (Some root, n') ∧
    char root = None ∧ full root ∧ strict root ∧
    leafFreqs root ≡ₚ frequencies ∧
    NoDup (leafChars root) ∧
    ∀ cand : list (nat * Z),
      TreeDepths 0 cand.*1 → cand.*2 ≡ₚ frequencies.*2 →
      pathLength root ≤ weightedDepth cand.
Proof.
  intros Hnd Hlen.
  destruct (buildHuffmanTree_least_path frequencies n Hlen)
    as (root & n' & E & Hleast).
  destruct (buildHuffmanTree_structure frequencies n)
    as (root' & n'' & E' & Hshape & Hleaves & Hstrict & _).
  { intros Hnil. rewrite Hnil in Hlen. cbn in Hlen. lia. }
  rewrite E in E'. injection E' as <- <-.
  rewrite (obj_get_all 0 frequencies Hnd) in Hleaves.
  exists root, n'. split; [done |].
  assert (leafChars root ≡ₚ Object_keys frequencies) as Hchars.
  { rewrite <- leafFreqs_chars. unfold Object_keys. by rewrite Hleaves. }
  assert (char root = None ∧ full root) as [Hchar Hfull].
  { destruct Hshape as [(Hc & Hr & l & c & Hl & Hcl) | [Hc Hf]]; [|done].
    exfalso. apply Permutation_length in Hchars.
    rewrite leafChars_unfold, Hc, Hl, Hr in Hchars. cbn [from_option] in Hchars.
    rewrite leafChars_unfold, Hcl in Hchars. cbn in Hchars. lia. }
  split; [done |]. split; [done |]. split; [by apply Hstrict |].
  split; [done |]. split; [by rewrite Hchars |].
  intros cand Ht Hw. apply Hleast; [done |]. rewrite Hw.
  rewrite <- (obj_get_all 0 frequencies Hnd) at 1.
  by rewrite <- list_fmap_compose.
Qed.

(** No prefix-free table of bit codes spends fewer bits on a frequency
    table than the table generated from the built tree. *)
Lemma generateCodes_optimal (frequencies : FrequencyMap) (n : Z)
    (codes' : CodeMap) :
  NoDup (Object_keys frequencies) →
  js "__proto__" ∉ Object_keys frequencies →
  Forall (λ kv, 0 ≤ kv.2) frequencies →
  (∀ k, k ∈ Object_keys frequencies →
        ∃ w, obj_get k codes' = Some w ∧ w ≠ [] ∧ isBitString w) →
  prefixFree codes' →
  ∃ tree n',
    buildHuffmanTree frequencies n = Ok (tree, n') ∧
    encodedBits (generateCodes tree) frequencies ≤ encodedBits codes' frequencies.
Proof.
  intros Hnd Hproto Hpos Hcodes Hpf.
  destruct (Object_keys frequencies) as [|k1 [|k2 ks]] eqn:Hkeys.
  - apply keys_nil in Hkeys as ->. by eexists _, _.
  - destruct frequencies as [|[k v] [|kv fs]]; [done | | done].
    injection Hkeys as ->.
    destruct (buildHuffmanTree_structure [(k1, v)] n)
      as (root & n' & E & Hshape & Hleaves & _); [done |].
    exists (Some root), n'. split; [done |].
    cbn in Hleaves. apply Permutation_singleton_r in Hleaves.
    destruct Hshape as [(Hc & Hr & l & c & Hl & Hcl) | [Hc Hf]].
    2:{ exfalso. rewrite leafFreqs_unfold, Hc in Hleaves.
        rewrite full_unfold, Hc in Hf.
        destruct (left root) as [l|]; [|done].
        destruct (right root) as [r|]; [|done]. destruct Hf as [Hl Hr].
        apply (f_equal (fmap fst)) in Hleaves. rewrite fmap_app in Hleaves.
        cbn [from_option] in Hleaves. rewrite !leafFreqs_chars in Hleaves.
        apply (f_equal length) in Hleaves. rewrite length_app in Hleaves.
        apply full_leafChars_length in Hl, Hr. cbn in Hleaves. lia. }
    rewrite leafFreqs_unfold, Hc, Hl, Hr in Hleaves. cbn [from_option] in Hleaves.
    rewrite app_nil_r, leafFreqs_unfold, Hcl in Hleaves.
    injection Hleaves as -> Hfreq.
    rewrite !encodedBits_cons. cbn [encodedBits foldr].
    assert (codeLength (generateCodes (Some root)) k1 = 1) as ->.
    { unfold codeLength.
      rewrite (generateCodes_lookup root k1 (freq l) (js "0")); [done | | | ].
      - rewrite leafChars_unfold, Hc, Hl, Hr. cbn [from_option].
        rewrite leafChars_unfold, Hcl. cbn. apply NoDup_singleton.
      - intros ->. apply Hproto. left.
      - rewrite leafEntries_unfold, Hc, Hl, Hr. cbn [from_option].
        rewrite leafEntries_unfold, Hcl. cbn. left. }
    destruct (Hcodes k1) as (w & Hw & Hne & _); [left |].
    unfold codeLength. rewrite Hw. cbn [default].
    apply Forall_cons in Hpos as [Hv _]. cbn in Hv.
    destruct w; [done |]. unfold Datatypes.id. cbn [length]. nia.
  - rewrite <- Hkeys in *.
    destruct (buildHuffmanTree_large frequencies n Hnd)
      as (root & n' & E & Hchar & Hfull & _ & Hleaves & Hndl & Hleast).
    { rewrite Hkeys. cbn. lia. }
    exists (Some root), n'. split; [done |].
    destruct (prefixFree_candidate codes' frequencies Hnd)
      as (cand & Ht & Hw & Hle); [| done | | done |].
    + intros ->. by rewrite Hkeys in *.
    + intros k Hk. destruct (Hcodes k Hk) as (w & ? & _ & ?). by exists w.
    + rewrite <- (encodedBits_perm _ _ _ Hleaves).
      rewrite encodedBits_pathLength; [| done | done |].
      * specialize (Hleast cand Ht Hw). lia.
      * rewrite <- leafFreqs_chars, Hleaves. exact Hproto.
Qed.

(** In the table generated from the built tree a symbol that is more
    frequent than another never has the longer code. *)
Lemma generateCodes_monotone (frequencies : FrequencyMap) (n : Z)
    (k1 k2 : jsstring) (f1 f2 : Z) :
  NoDup (Object_keys frequencies) →
  js "__proto__" ∉ Object_keys frequencies →
  obj_get k1 frequencies = Some f1 → obj_get k2 frequencies = Some f2 →
  f1 < f2 →
  ∃ tree n',
    buildHuffmanTree frequencies n = Ok (tree, n') ∧
    codeLength (generateCodes tree) k2 ≤ codeLength (generateCodes tree) k1.
Proof.
  intros Hnd Hproto H1 H2 Hlt.
  assert (k1 ≠ k2) as Hne by (intros ->; rewrite H1 in H2; injection H2; lia).
  apply obj_get_Some in H1, H2.
  destruct (buildHuffmanTree_large frequencies n Hnd)
    as (root & n' & E & Hchar & Hfull & _ & Hleaves & Hndl & Hleast).
  { apply list_elem_of_split in H1 as (l1 & l2 & ->).
    rewrite elem_of_app, elem_of_cons in H2.
    unfold Object_keys. rewrite fmap_app, length_app. cbn [fmap list_fmap length].
    destruct H2 as [H2 | [[=] | H2]]; [| congruence |];
      apply list_elem_of_split in H2 as (? & ? & ->);
      rewrite ?fmap_app, ?length_app; cbn; lia. }
  exists (Some root), n'. split; [done |].
  assert (∀ k f, (k, f) ∈ frequencies →
            ∃ w, (k, f, w) ∈ leafEntries root [] ∧
                 codeLength (generateCodes (Some root)) k = Z.of_nat (length w))
    as Hentry.
  { intros k f Hin. rewrite <- Hleaves, <- (leafEntries_freqs root []) in Hin.
    apply list_elem_of_fmap in Hin as ([[k' f'] w] & [= <- <-] & Hin).
    exists w. split; [done |]. unfold codeLength.
    rewrite (generateCodes_lookup root k f w); [| done | | done].
    - cbn [default]. rewrite storedCode_id; [done |].
      apply (leafCodes_internal_nonempty root k); [done |].
      rewrite <- leafEntries_codes. apply list_elem_of_fmap. by exists (k, f, w).
    - intros ->. apply Hproto.
      assert (js "__proto__" ∈ leafChars root) as Hin'.
      { rewrite <- (leafCodes_chars root []), <- leafEntries_codes.
        rewrite <- list_fmap_compose. apply list_elem_of_fmap.
        by exists (js "__proto__", f, w). }
      rewrite <- leafFreqs_chars, Hleaves in Hin'. exact Hin'. }
  destruct (Hentry k1 f1 H1) as (w1 & Hin1 & ->).
  destruct (Hentry k2 f2 H2) as (w2 & Hin2 & ->).
  apply elem_of_Permutation in Hin1 as [rest1 Hp1].
  assert ((k2, f2, w2) ∈ rest1) as Hin2'.
  { rewrite Hp1 in Hin2. apply elem_of_cons in Hin2 as [[=] | ?]; [congruence | done]. }
  apply elem_of_Permutation in Hin2' as [rest Hp2]. rewrite Hp2 in Hp1.
  set (g := λ e : jsstring * Z * jsstring, (length e.2, e.1.2)).
  assert (leafDepths root 0 ≡ₚ (length w1, f1) :: (length w2, f2) :: (g <$> rest))
    as Hdepths.
  { change 0%nat with (length ([] : jsstring)).
    rewrite <- leafEntries_depths. fold g. by rewrite Hp1. }
  specialize (Hleast ((length w1, f2) :: (length w2, f1) :: (g <$> rest))).
  unfold pathLength in Hleast. rewrite (weightedDepth_perm _ _ Hdepths) in Hleast.
  rewrite !weightedDepth_cons in Hleast.
  assert (length w2 ≤ length w1)%nat; [|lia].
  destruct (decide (length w2 ≤ length w1)%nat) as [|Hgt]; [done |]. exfalso.
  assert (Z.of_nat (length w1) * f1 + (Z.of_nat (length w2) * f2 + weightedDepth (g <$> rest))
          ≤ Z.of_nat (length w1) * f2 + (Z.of_nat (length w2) * f1 + weightedDepth (g <$> rest)));
    [|nia].
  apply Hleast.
  - apply (TreeDepths_perm 0 (leafDepths root 0).*1).
    + by apply leafDepths_TreeDepths.
    + by rewrite Hdepths.
  - cbn [fmap list_fmap snd]. rewrite perm_swap.
    rewrite <- Hleaves, <- (leafDepths_weights root 0), Hdepths. done.
Qed.

(** ** Emptying the queue *)

Lemma drain_sorted (heap : list HuffmanNode) :
  heapOrdered heap →
  drain (length heap) heap ≡ₚ heap ∧
  StronglySorted (λ a b, freq a ≤ freq b) (drain (length heap) heap).
Proof.
  remember (length heap) as fuel eqn:Hfuel. revert heap Hfuel.
  induction fuel as [|fuel IH]; intros heap Hfuel Hord.
  - destruct heap; [|done]. split; [done | constructor].
  - assert (heap ≠ []) as Hne by (by intros ->).
    destruct (extractMin_least heap Hord Hne) as (node & heap' & E & Hp & Hmin & Hord').
    cbn [drain]. rewrite E.
    destruct (IH heap') as [Hp' Hs']; [| done |].
    { apply Permutation_length in Hp. cbn in Hp. lia. }
    split; [by rewrite Hp' |]. constructor; [done |]. by rewrite Hp'.
Qed.

(** ** The keys and the codes of the generated table *)

Lemma assignCodes_keys entries (codes : CodeMap) (c : jsstring) :
  c ∈ Object_keys (assignCodes entries codes) ↔
  c ∈ Object_keys codes ∨ (c ∈ entries.*1 ∧ c ≠ js "__proto__").
Proof.
  revert codes. induction entries as [|[c0 w0] entries IH]; intros codes.
  - cbn. rewrite elem_of_nil. tauto.
  - cbn [assignCodes fold_left fst snd].
    fold (assignCodes entries (obj_set c0 (storedCode w0) codes)).
    rewrite IH. cbn [fmap list_fmap fst]. rewrite elem_of_cons.
    unfold obj_set. destruct (bool_decide (c0 = js "__proto__") && _) eqn:Hcase.
    + apply andb_true_iff in Hcase as [Hc0%bool_decide_eq_true _]. subst c0.
      split; [tauto |]. intros [? | [[-> | ?] ?]]; tauto.
    + rewrite obj_define_keys_perm.
      apply andb_false_iff in Hcase as [Hc0%bool_decide_eq_false | Hhas].
      * case_bool_decide; [|rewrite elem_of_cons].
        -- split; [tauto |]. intros [? | [[-> | ?] ?]]; tauto.
        -- split; [intros [[-> | ?] | ?]; tauto |].
           intros [? | [[-> | ?] ?]]; tauto.
      * apply negb_false_iff in Hhas. unfold obj_has in Hhas.
        rewrite Hhas. apply bool_decide_eq_true in Hhas.
        split; [tauto |]. intros [? | [[-> | ?] ?]]; tauto.
Qed.

Lemma generateCodes_keys (root : HuffmanNode) (c : jsstring) :
  c ∈ Object_keys (generateCodes (Some root)) ↔
  c ∈ leafChars root ∧ c ≠ js "__proto__".
Proof.
  unfold generateCodes. rewrite traverse_assignCodes, assignCodes_keys.
  rewrite leafCodes_chars. cbn. rewrite elem_of_nil. tauto.
Qed.

Lemma generateCodes_bits (root : HuffmanNode) (c w : jsstring) :
  obj_get c (generateCodes (Some root)) = Some w →
  isBitString w ∧ w ≠ [].
Proof.
  unfold generateCodes. rewrite traverse_assignCodes. intros Hget.
  apply assignCodes_get in Hget as [(w0 & Hin & ->) | Hget];
    [| done | apply NoDup_nil_2].
  split; [|apply storedCode_nonempty].
  apply storedCode_isBitString.
  apply (leafCodes_isBitString root [] c); [constructor | done].
Qed.

(** ** The depth of the tree *)

(** No code is longer than the tree is deep, and in a tree whose
    childless nodes are leaves some code is that long. *)
Lemma leafCodes_depth (node : HuffmanNode) (code : jsstring) :
  Forall (λ cw, (S (length cw.2) ≤ length code + getTreeDepth_node node)%nat)
         (leafCodes node code).
Proof.
  revert code. induction node as [node IHl IHr] using HuffmanNode_children_ind.
  intros code. rewrite leafCodes_unfold, getTreeDepth_node_unfold.
  destruct (char node); [constructor; [cbn; lia | done] |].
  apply Forall_app. split.
  - destruct (left node) as [l|]; [|done]. cbn [from_option].
    eapply Forall_impl; [apply (IHl l eq_refl) |]. intros [c w]. cbn.
    rewrite length_app. cbn. lia.
  - destruct (right node) as [r|]; [|done]. cbn [from_option].
    eapply Forall_impl; [apply (IHr r eq_refl) |]. intros [c w]. cbn.
    rewrite length_app. cbn. lia.
Qed.

Lemma leafCodes_deepest (node : HuffmanNode) (code : jsstring) :
  strict node →
  ∃ c w, (c, w) ∈ leafCodes node code ∧
         S (length w) = (length code + getTreeDepth_node node)%nat.
Proof.
  revert code. induction node as [node IHl IHr] using HuffmanNode_children_ind.
  intros code. rewrite strict_unfold, leafCodes_unfold, getTreeDepth_node_unfold.
  destruct (char node) as [c|].
  { intros [-> ->]. exists c, code. split; [left |]. cbn. lia. }
  destruct (left node) as [l|]; [|done]. destruct (right node) as [r|]; [|done].
  intros [Hl Hr]. cbn [from_option].
  destruct (decide (getTreeDepth_node r ≤ getTreeDepth_node l)%nat) as [Hle | Hgt].
  - destruct (IHl l eq_refl (code ++ js "0") Hl) as (c & w & Hin & Hlen).
    exists c, w. split; [apply elem_of_app; by left |].
    rewrite length_app in Hlen. cbn in Hlen. lia.
  - destruct (IHr r eq_refl (code ++ js "1") Hr) as (c & w & Hin & Hlen).
    exists c, w. split; [apply elem_of_app; by right |].
    rewrite length_app in Hlen. cbn in Hlen. lia.
Qed.

(** A strict tree is no deeper than it has leaves, and has no more
    leaves than its depth allows. *)
Lemma strict_depth_bounds (node : HuffmanNode) :
  strict node →
  (getTreeDepth_node node ≤ length (leafChars node))%nat ∧
  Z.of_nat (length (leafChars node)) ≤ 2 ^ (Z.of_nat (getTreeDepth_node node) - 1).
Proof.
  induction node as [node IHl IHr] using HuffmanNode_children_ind.
  rewrite strict_unfold, leafChars_unfold, getTreeDepth_node_unfold.
  destruct (char node).
  { intros [-> ->]. cbn. lia. }
  destruct (left node) as [l|]; [|done]. destruct (right node) as [r|]; [|done].
  intros [Hl Hr]. cbn [from_option]. rewrite length_app.
  destruct (IHl l eq_refl Hl) as [Hl1 Hl2]. destruct (IHr r eq_refl Hr) as [Hr1 Hr2].
  pose proof (full_leafChars_length l (strict_full l Hl)).
  pose proof (full_leafChars_length r (strict_full r Hr)).
  split; [lia |].
  set (dl := getTreeDepth_node l) in *. set (dr := getTreeDepth_node r) in *.
  assert (1 ≤ dl)%nat by (subst dl; rewrite getTreeDepth_node_unfold; lia).
  assert (1 ≤ dr)%nat by (subst dr; rewrite getTreeDepth_node_unfold; lia).
  replace (Z.of_nat (S (dl `max` dr)) - 1) with (Z.succ (Z.of_nat (dl `max` dr) - 1))
    by lia.
  rewrite Z.pow_succ_r by lia.
  assert (2 ^ (Z.of_nat dl - 1) ≤ 2 ^ (Z.of_nat (dl `max` dr) - 1))
    by (apply Z.pow_le_mono_r; lia).
  assert (2 ^ (Z.of_nat dr - 1) ≤ 2 ^ (Z.of_nat (dl `max` dr) - 1))
    by (apply Z.pow_le_mono_r; lia).
  lia.
Qed.

(** ** Codes of a fixed length

    The table that numbers the keys in binary on [m] bits is prefix-free;
    the generated table is measured against it. *)

Lemma fixedCode_length (m : nat) (i : Z) : length (fixedCode m i) = m.
Proof.
  revert i. induction m as [|m IH]; intros i; [done |].
  cbn [fixedCode]. rewrite length_app, IH. cbn. lia.
Qed.

Lemma fixedCode_isBitString (m : nat) (i : Z) : isBitString (fixedCode m i).
Proof.
  revert i. induction m as [|m IH]; intros i; [constructor |].
  cbn [fixedCode]. apply isBitString_app. split; [apply IH |].
  constructor; [|constructor].
  pose proof (Z.mod_pos_bound i 2). lia.
Qed.

Lemma fixedCode_inj (m : nat) (i j : Z) :
  0 ≤ i < 2 ^ Z.of_nat m → 0 ≤ j < 2 ^ Z.of_nat m →
  fixedCode m i = fixedCode m j → i = j.
Proof.
  revert i j. induction m as [|m IH]; intros i j Hi Hj.
  - cbn in Hi, Hj. lia.
  - cbn [fixedCode]. intros [E1 E2]%app_inj_tail.
    rewrite Nat2Z.inj_succ, Z.pow_succ_r in Hi, Hj by lia.
    apply IH in E1; [| split | split];
      try (apply Z.div_pos; lia);
      try (apply Z.div_lt_upper_bound; lia).
    rewrite (Z.div_mod i 2), (Z.div_mod j 2) by lia. lia.
Qed.

Lemma fixedCodes_keys (m : nat) (keys : list jsstring) (i : Z) :
  Object_keys (fixedCodes m keys i) = keys.
Proof.
  revert i. induction keys as [|k keys IH]; intros i; [done |].
  cbn. by rewrite <- (IH (i + 1)) at 2.
Qed.

Lemma fixedCodes_get (m : nat) (keys : list jsstring) (i : Z) (k w : jsstring) :
  obj_get k (fixedCodes m keys i) = Some w →
  ∃ idx : nat, keys !! idx = Some k ∧ w = fixedCode m (i + Z.of_nat idx).
Proof.
  revert i. induction keys as [|k0 keys IH]; intros i; [done |].
  cbn [fixedCodes obj_get]. case_bool_decide as Hk.
  - intros [= <-]. subst k0. exists 0%nat. split; [done |]. by rewrite Z.add_0_r.
  - intros Hget. destruct (IH _ Hget) as (idx & Hidx & ->).
    exists (S idx). split; [done |]. f_equal. lia.
Qed.

Lemma fixedCodes_prefixFree (m : nat) (keys : list jsstring) :
  NoDup keys → Z.of_nat (length keys) ≤ 2 ^ Z.of_nat m →
  prefixFree (fixedCodes m keys 0).
Proof.
  intros Hnd Hlen c1 c2 w1 w2 Hne H1 H2 Hpre.
  apply fixedCodes_get in H1 as (i1 & Hi1 & ->).
  apply fixedCodes_get in H2 as (i2 & Hi2 & ->).
  assert (fixedCode m (0 + Z.of_nat i1) = fixedCode m (0 + Z.of_nat i2)) as E.
  { destruct Hpre as [rest Hrest].
    assert (rest = []) as ->.
    { apply (f_equal length) in Hrest.
      rewrite length_app, !fixedCode_length in Hrest. destruct rest; [done |].
      cbn in Hrest. lia. }
    by rewrite app_nil_r in Hrest. }
  pose proof (lookup_lt_Some _ _ _ Hi1). pose proof (lookup_lt_Some _ _ _ Hi2).
  apply fixedCode_inj in E; [| lia | lia].
  assert (i1 = i2) as -> by lia. congruence.
Qed.

Lemma fixedCodes_codeLength (m : nat) (keys : list jsstring) (i : Z)
    (k : jsstring) :
  k ∈ keys → codeLength (fixedCodes m keys i) k = Z.of_nat m.
Proof.
  intros Hin. unfold codeLength.
  destruct (obj_get k (fixedCodes m keys i)) as [w|] eqn:Hget.
  - apply fixedCodes_get in Hget as (idx & _ & ->).
    change (default (js "undefined") (Some ?x)) with x.
    by rewrite fixedCode_length.
  - apply obj_get_None in Hget. by rewrite fixedCodes_keys in Hget.
Qed.

Lemma fixedCodes_bits (m : nat) (frequencies : FrequencyMap) :
  encodedBits (fixedCodes m (Object_keys frequencies) 0) frequencies =
  Z.of_nat m * totalFrequency frequencies.
Proof.
  unfold encodedBits, totalFrequency.
  assert (∀ kv, kv ∈ frequencies →
                codeLength (fixedCodes m (Object_keys frequencies) 0) kv.1
                = Z.of_nat m) as Hall.
  { intros [k v] Hin. apply fixedCodes_codeLength.
    apply list_elem_of_fmap. by exists (k, v). }
  revert Hall. generalize (fixedCodes m (Object_keys frequencies) 0). intros codes.
  induction frequencies as [|[k v] fs IH]; intros Hall; [cbn; lia |].
  cbn [foldr fmap list_fmap fst snd].
  pose proof (Hall (k, v) ltac:(left)) as Hk. cbn [fst] in Hk. rewrite Hk.
  rewrite IH; [lia |]. intros kv Hin. apply Hall. by right.
Qed.

(** The generated table never spends more bits than a fixed-length code
    that is long enough for the keys. *)
Lemma generateCodes_fixed_length (frequencies : FrequencyMap) (n : Z) (m : nat) :
  NoDup (Object_keys frequencies) →
  js "__proto__" ∉ Object_keys frequencies →
  Forall (λ kv, 0 ≤ kv.2) frequencies →
  (1 ≤ m)%nat → Z.of_nat (length (Object_keys frequencies)) ≤ 2 ^ Z.of_nat m →
  ∃ tree n',
    buildHuffmanTree frequencies n = Ok (tree, n') ∧
    encodedBits (generateCodes tree) frequencies
    ≤ Z.of_nat m * totalFrequency frequencies.
Proof.
  intros Hnd Hproto Hpos Hm Hlen.
  destruct (generateCodes_optimal frequencies n
              (fixedCodes m (Object_keys frequencies) 0))
    as (tree & n' & E & Hle); [done | done | done | | |].
  - intros k Hk.
    pose proof (fixedCodes_codeLength m (Object_keys frequencies) 0 k Hk) as Hcl.
    unfold codeLength in Hcl.
    destruct (obj_get k (fixedCodes m (Object_keys frequencies) 0)) as [w|] eqn:Hget.
    + exists w. split; [done |].
      change (default (js "undefined") (Some ?x)) with x in Hcl.
      apply fixedCodes_get in Hget as (idx & _ & ->).
      split; [|apply fixedCode_isBitString].
      intros Hnil. rewrite Hnil in Hcl. cbn in Hcl. lia.
    + apply obj_get_None in Hget. by rewrite fixedCodes_keys in Hget.
  - by apply fixedCodes_prefixFree.
  - exists tree, n'. split; [done |]. by rewrite <- fixedCodes_bits.
Qed.

(** The sum of the frequencies of a text is its number of symbols. *)
Lemma calculateFrequencies_total (text : jsstring) :
  totalFrequency (calculateFrequencies text) = Z.of_nat (length (codePoints text)).
Proof.
  pose proof (calculateFrequencies_weightedSum (λ _, 1) text) as H.
  unfold totalFrequency.
  transitivity (foldr (λ (kv : jsstring * Z) acc, kv.2 * 1 + acc) 0
                      (calculateFrequencies text)).
  - clear. induction (calculateFrequencies text) as [|[k v] fs IH]; [done |].
    cbn [fmap list_fmap foldr snd]. rewrite IH. lia.
  - rewrite H. clear. induction (codePoints text) as [|cp cps IH]; [done |].
    cbn [foldr length]. rewrite IH. lia.
Qed.

(** ** The compression result, field by field *)

Lemma compress_fields `{Host} (text : jsstring) (n n' : Z)
    (result : CompressionResult) :
  text ≠ [] → compress text n = Ok (result, n') →
  let bits := encodeText (codeMap result) text in
  frequencyMap result = calculateFrequencies text ∧
  buildHuffmanTree (calculateFrequencies text) n = Ok (tree result, n') ∧
  codeMap result = generateCodes (tree result) ∧
  paddingBits result = (8 - Z.of_nat (length bits) mod 8) mod 8 ∧
  compressedData result =
    packBytes (padEnd0 bits (length bits + Z.to_nat (paddingBits result))) ∧
  compressedSize result = Z.of_nat (length (compressedData result)) ∧
  originalSize result = Z.of_nat (length (TextEncoder_encode text)) ∧
  compressionRatio result =
    if 0 <? originalSize result
    then (inject_Z (originalSize result - compressedSize result)
          / inject_Z (originalSize result) * inject_Z 100)%Q
    else 0%Q.
Proof.
  intros Hne. unfold compress. rewrite bool_decide_eq_false_2 by done.
  destruct (buildHuffmanTree _ _) as [[t n1]|]; [|done].
  intros [= <- <-]. cbn. done.
Qed.

(** The frequency table of a text is an object whose keys are symbols of
    the text and whose values are positive. *)
Lemma calculateFrequencies_table (text : jsstring) :
  NoDup (Object_keys (calculateFrequencies text)) ∧
  (js "__proto__" ∉ Object_keys (calculateFrequencies text)) ∧
  Forall (λ kv, 0 ≤ kv.2) (calculateFrequencies text).
Proof.
  destruct (calculateFrequencies_keys text) as [Hnd Hkeys].
  split; [done |]. split.
  - rewrite Hkeys. intros Hin.
    pose proof (codePoints_length text) as Hlen. rewrite Forall_forall in Hlen.
    by apply (codePoint_not_proto _ (Hlen _ Hin)).
  - eapply Forall_impl; [apply calculateFrequencies_positive |]. cbn. lia.
Qed.

(** The bytes of the payload: as many as the padded bits need, each a
    byte. *)
Lemma packBytes_range (s : jsstring) : Forall (λ b, 0 ≤ b < 256) (packBytes s).
Proof.
  unfold packBytes. apply Forall_fmap, Forall_forall. intros i _. apply byte_range.
Qed.

Lemma padEnd0_length (s : jsstring) (n : nat) :
  length (padEnd0 s (length s + n)) = (length s + n)%nat.
Proof. rewrite padEnd0_replicate, length_app, length_replicate. done. Qed.

(** ** What the decoder does with any bits *)

(** A turn of the decoding loop keeps what was decoded and may add one
    symbol. *)
Lemma decodeStep_extends tree node result bit :
  builtShape tree → builtShape node →
  ∃ node' result',
    decodeStep tree (node, result) bit = Ok (node', result') ∧
    builtShape node' ∧ result `prefix_of` result'.
Proof.
  intros Htree [(Hc & Hr & l & c & Hl & Hcl) | [Hc Hfull]].
  - exists node, (result ++ c). unfold decodeStep, isSingleCharacterRoot.
    rewrite Hl, Hr, Hcl. split; [done |]. split; [|by exists c].
    left. split; [done |]. split; [done |]. by exists l, c.
  - unfold decodeStep. rewrite (full_not_single node Hfull Hc).
    rewrite full_unfold, Hc in Hfull.
    destruct (left node) as [l|]; [|done]. destruct (right node) as [r|]; [|done].
    destruct Hfull as [Hl Hr].
    destruct (bool_decide (bit = js "0")).
    + destruct (char l) as [c|] eqn:Hcl; eexists _, _; (split; [done |]).
      * split; [done | by exists c].
      * split; [by right | done].
    + destruct (char r) as [c|] eqn:Hcr; eexists _, _; (split; [done |]).
      * split; [done | by exists c].
      * split; [by right | done].
Qed.

Lemma decodeLoop_extends tree bits node result :
  builtShape tree → builtShape node →
  ∃ node' result',
    decodeLoop tree bits (node, result) = Ok (node', result') ∧
    builtShape node' ∧ result `prefix_of` result'.
Proof.
  intros Htree. revert node result.
  induction bits as [|bit bits IH]; intros node result Hnode; cbn [decodeLoop].
  - by exists node, result.
  - destruct (decodeStep_extends tree node result bit Htree Hnode)
      as (node1 & result1 & -> & Hnode1 & Hpre1).
    destruct (IH node1 result1 Hnode1) as (node' & result' & E & Hnode' & Hpre').
    exists node', result'. split; [done |]. split; [done |]. by etrans.
Qed.

(** The bits of a payload: eight per byte, of the two bit characters. *)
Lemma byte_bits (b : Z) :
  0 ≤ b < 256 →
  length (padStart0 (Number_toString2 b) 8) = 8%nat ∧
  isBitString (padStart0 (Number_toString2 b) 8).
Proof.
  intros Hb. destruct b as [|p|p]; [| |lia].
  - split; [done |]. repeat constructor.
  - do 8 (try (destruct p as [p|p|]; try lia));
      (split; [reflexivity |]); repeat (constructor; [by auto |]); constructor.
Qed.

Lemma unpackBytes_bits (payload : list Z) :
  Forall (λ b, 0 ≤ b < 256) payload →
  length (unpackBytes payload) = (8 * length payload)%nat ∧
  isBitString (unpackBytes payload).
Proof.
  rewrite unpackBytes_concat. induction 1 as [|b payload Hb _ [IH1 IH2]];
    [split; [done | constructor] |].
  destruct (byte_bits b Hb) as [Hl Hbits].
  cbn [fmap list_fmap concat length]. rewrite length_app, Hl, IH1.
  split; [lia |]. apply isBitString_app. by split.
Qed.

Lemma sliceDropLast_length (s : jsstring) (n : Z) :
  0 < n →
  length (sliceDropLast s n) = Z.to_nat (Z.max (Z.of_nat (length s) - n) 0).
Proof. intros Hn. unfold sliceDropLast. rewrite length_take. lia. Qed.

(** What [compress] packs: the bits of the codes of the text, then the
    padding; the tree decodes the bits of the codes to the text. *)
Lemma compress_bits `{Host} (text : jsstring) (n n' : Z)
    (result : CompressionResult) :
  text ≠ [] → compress text n = Ok (result, n') →
  let enc := encodeText (codeMap result) text in
  ∃ root,
    tree result = Some root ∧ builtShape root ∧
    isBitString enc ∧ enc ≠ [] ∧
    0 ≤ paddingBits result ≤ 7 ∧
    compressedData result ≠ [] ∧
    unpackBytes (compressedData result) =
      enc ++ replicate (Z.to_nat (paddingBits result)) 48 ∧
    decodeLoop root ((λ u, [u]) <$> enc) (root, []) = Ok (root, text).
Proof.
  intros Htext Hcompress enc.
  destruct (compress_fields text n n' result Htext Hcompress)
    as (Hfreq & Hbuild & Hcodes & Hpad & Hdata & _).
  destruct (calculateFrequencies_keys text) as [Hnd Hkeys].
  destruct (buildHuffmanTree_nonempty (calculateFrequencies text) n)
    as (root & n1 & Hbuild' & Hshape & Hleaves).
  { intros Ek. apply Htext, codePoints_nil.
    destruct (codePoints text) as [|cp cps]; [done |]. exfalso.
    specialize (Hkeys cp). rewrite Ek, elem_of_nil in Hkeys. apply Hkeys. left. }
  rewrite Hbuild in Hbuild'. injection Hbuild' as Htree _.
  exists root. split; [done |]. split; [done |].
  destruct (built_tree_codes root (codePoints text)) as [Hcode Hdecode].
  { done. }
  { by rewrite Hleaves. }
  { apply Forall_forall. intros cp Hcp. split.
    - rewrite Hleaves. by apply Hkeys.
    - apply codePoint_not_proto.
      by apply (proj1 (Forall_forall _ _) (codePoints_length text)). }
  rewrite <- encodeText_concat, codePoints_concat in Hdecode.
  rewrite <- Htree, <- Hcodes in Hdecode, Hcode. fold enc in Hdecode.
  assert (isBitString enc) as Hbits.
  { unfold enc. rewrite encodeText_concat. apply concat_isBitString.
    apply Forall_fmap. eapply Forall_impl; [exact Hcode |]. by intros cp [? _]. }
  assert (enc ≠ []) as Hne.
  { unfold enc. rewrite encodeText_concat.
    destruct (codePoints text) as [|cp cps] eqn:Ecp.
    - by apply codePoints_nil in Ecp.
    - apply Forall_cons in Hcode as [[_ Hcp] _]. cbn.
      destruct (default _ _); [done | discriminate]. }
  split; [done |]. split; [done |]. fold enc in Hpad, Hdata.
  pose proof (paddingBits_bounds (length enc)) as Hrange. rewrite <- Hpad in Hrange.
  split; [done |].
  rewrite padEnd0_replicate in Hdata.
  assert (Nat.modulo
            (length (enc ++ replicate (Z.to_nat (paddingBits result)) 48)) 8
          = 0%nat) as Hmod.
  { rewrite length_app, length_replicate, Hpad. apply padded_length. }
  split.
  - rewrite Hdata. intros Hnil. apply (f_equal length) in Hnil.
    rewrite packBytes_length in Hnil. change (length (@nil Z)) with 0%nat in Hnil.
    pose proof (Nat.div_mod_eq
                  (length (enc ++ replicate (Z.to_nat (paddingBits result)) 48)) 8)
      as Hdm.
    rewrite length_app in *. destruct enc; [done |]. cbn [length] in *. lia.
  - split; [|done]. rewrite Hdata. apply unpack_pack; [|done].
    apply isBitString_app. split; [done | apply isBitString_replicate].
Qed.

(** ** The framing of the container *)

Lemma getUint32_app (data extra : list Z) (m : Z) :
  getUint32_0_le data = Ok m → getUint32_0_le (data ++ extra) = Ok m.
Proof. by destruct data as [|b0 [|b1 [|b2 [|b3 rest]]]]. Qed.

(** ** The display of a symbol *)

(** The four control characters and the space have pictograms; the other
    control characters are written as a two-digit hexadecimal escape;
    every other symbol stands for itself. *)
Lemma getDisplayChar_control (u : Z) :
  0 ≤ u < 32 → u ≠ 9 → u ≠ 10 → u ≠ 13 →
  getDisplayChar [u] =
  [92; 120; 48 + u / 16;
   if u mod 16 <? 10 then 48 + u mod 16 else 87 + u mod 16].
Proof.
  intros Hu H9 H10 H13.
  assert (u ∈ seqZ 0 32) as Hin by (apply elem_of_seqZ; lia).
  cbv in Hin.
  repeat (apply elem_of_cons in Hin as [-> | Hin]; [try done; reflexivity |]).
  by apply elem_of_nil in Hin.
Qed.

Lemma getDisplayChar_unit (u : Z) :
  32 < u → u < 0x10000 → getDisplayChar [u] = [u].
Proof.
  intros Hlo Hhi. unfold getDisplayChar.
  rewrite !bool_decide_eq_false_2 by (intros [=]; lia).
  cbn [charCodeAt lookup list_lookup]. by destruct (Z.ltb_spec u 32); [lia |].
Qed.

Lemma getDisplayChar_pair (u v : Z) :
  isHighSurrogate u = true → getDisplayChar [u; v] = [u; v].
Proof.
  intros Hu%ReferenceUtf8.isHighSurrogate_range. unfold getDisplayChar.
  rewrite !bool_decide_eq_false_2 by (intros [=]; lia).
  cbn [charCodeAt lookup list_lookup]. by destruct (Z.ltb_spec u 32); [lia |].
Qed.

(** The cases of [getDisplayChar] on a symbol of a text. *)
Lemma getDisplayChar_cases (char : jsstring) :
  isCodePoint16 char →
  (char = js " " ∧ getDisplayChar char = [0x2423]) ∨
  (char = [10] ∧ getDisplayChar char = [0x21B5]) ∨
  (char = [9] ∧ getDisplayChar char = [0x2192]) ∨
  (char = [13] ∧ getDisplayChar char = [0x23CE]) ∨
  (∃ u, char = [u] ∧ 0 ≤ u < 32 ∧
        getDisplayChar char =
        [92; 120; 48 + u / 16;
         if u mod 16 <? 10 then 48 + u mod 16 else 87 + u mod 16]) ∨
  (getDisplayChar char = char ∧ Forall (λ u, 32 < u) char).
Proof.
  destruct char as [|u [|v [|w char]]]; [done | | | done]; cbn [isCodePoint16].
  - intros Hu.
    destruct (decide (u = 32)) as [-> | H32]; [by left |].
    destruct (decide (u = 10)) as [-> | H10]; [by right; left |].
    destruct (decide (u = 9)) as [-> | H9]; [by right; right; left |].
    destruct (decide (u = 13)) as [-> | H13]; [by right; right; right; left |].
    destruct (decide (u < 32)) as [Hlt | Hge].
    + do 4 right. left. exists u. split; [done |]. split; [lia |].
      by apply getDisplayChar_control; [lia | ..].
    + do 5 right. rewrite getDisplayChar_unit by lia.
      split; [done |]. constructor; [lia | done].
  - intros [Hu Hv]. do 5 right. rewrite getDisplayChar_pair by done.
    apply ReferenceUtf8.isHighSurrogate_range in Hu.
    apply ReferenceUtf8.isLowSurrogate_range in Hv.
    split; [done |]. constructor; [lia |]. constructor; [lia | done].
Qed.

(** ** The rows of the code table *)

Lemma Array_sort_insert_perm {A} (compare : A → A → Z) (x : A) (l : list A) :
  Array_sort_insert compare x l ≡ₚ x :: l.
Proof.
  induction l as [|y l IH]; [done |]. cbn [Array_sort_insert].
  destruct (_ <=? _); [done |]. rewrite IH. apply perm_swap.
Qed.

Lemma Array_sort_perm {A} (compare : A → A → Z) (l : list A) :
  Array_sort compare l ≡ₚ l.
Proof.
  induction l as [|x l IH]; [done |]. cbn [Array_sort foldr].
  fold (Array_sort compare l). by rewrite Array_sort_insert_perm, IH.
Qed.

Lemma Array_sort_insert_sorted {A} (compare : A → A → Z) (g : A → Z) (x : A)
    (l : list A) :
  (∀ a b, compare a b = g b - g a) →
  StronglySorted (λ a b, g b ≤ g a) l →
  StronglySorted (λ a b, g b ≤ g a) (Array_sort_insert compare x l).
Proof.
  intros Hcmp. induction 1 as [|y l Hs IH Hall]; [repeat constructor |].
  cbn [Array_sort_insert]. rewrite Hcmp.
  destruct (Z.leb_spec (g y - g x) 0) as [Hle | Hgt].
  - constructor; [by constructor |]. constructor; [lia |].
    eapply Forall_impl; [exact Hall |]. cbn. lia.
  - constructor; [done |]. rewrite Array_sort_insert_perm.
    constructor; [lia | done].
Qed.

Lemma Array_sort_sorted {A} (compare : A → A → Z) (g : A → Z) (l : list A) :
  (∀ a b, compare a b = g b - g a) →
  StronglySorted (λ a b, g b ≤ g a) (Array_sort compare l).
Proof.
  intros Hcmp. induction l as [|x l IH]; [constructor |].
  cbn [Array_sort foldr]. by apply (Array_sort_insert_sorted compare g).
Qed.

Lemma StronglySorted_lookup {A} (R : A → A → Prop) (l : list A) (i j : nat)
    (x y : A) :
  StronglySorted R l → (i < j)%nat → l !! i = Some x → l !! j = Some y → R x y.
Proof.
  intros Hs. revert i j. induction Hs as [|z l Hs IH Hall]; intros i j Hij Hi Hj.
  - done.
  - destruct j as [|j]; [lia |]. destruct i as [|i].
    + injection Hi as ->. rewrite Forall_forall in Hall.
      apply Hall. cbn in Hj. by apply list_elem_of_lookup_2 in Hj.
    + apply (IH i j); [lia | done | done].
Qed.

(** ** The compressed text *)

(** The value at a key of the frequency table of a text. *)
Lemma calculateFrequencies_get (char text : jsstring) :
  obj_get char (calculateFrequencies text) =
  if bool_decide (char ∈ codePoints text) then Some (occurrences char text)
  else None.
Proof.
  destruct (calculateFrequencies_keys text) as [_ Hkeys].
  pose proof (calculateFrequencies_count char text) as Hcount.
  case_bool_decide as Hin.
  - apply Hkeys, obj_get_is_Some in Hin as [v Hv]. rewrite Hv in Hcount |- *.
    cbn in Hcount. by rewrite Hcount.
  - apply obj_get_None. by rewrite Hkeys.
Qed.

Lemma occurrences_pos (char text : jsstring) :
  0 < occurrences char text ↔ char ∈ codePoints text.
Proof.
  unfold occurrences. split.
  - intros Hpos. destruct (filter _ _) as [|c l] eqn:E; [cbn in Hpos; lia |].
    assert (c ∈ filter (λ cp, cp = char) (codePoints text)) as Hin
      by (rewrite E; left).
    apply list_elem_of_filter in Hin as [-> Hin]. done.
  - intros Hin.
    assert (char ∈ filter (λ cp, cp = char) (codePoints text)) as Hin'
      by (by apply list_elem_of_filter).
    destruct (filter _ _); [by apply elem_of_nil in Hin' | cbn; lia].
Qed.

(** [compress] returns for every text; its fields when the text is not
    empty. *)
Lemma compress_returns `{Host} (text : jsstring) (n : Z) :
  ∃ result n', compress text n = Ok (result, n').
Proof.
  destruct (compress_decompress text n) as (result & n' & E & _).
  by exists result, n'.
Qed.

(** A symbol that occurs more often than another never has the longer
    code. *)
Lemma compress_monotone `{Host} (text : jsstring) (n : Z) (c1 c2 : jsstring) :
  0 < occurrences c1 text < occurrences c2 text →
  ∃ result n',
    compress text n = Ok (result, n') ∧
    codeLength (codeMap result) c2 ≤ codeLength (codeMap result) c1.
Proof.
  intros [H1 H2]. destruct (compress_returns text n) as (result & n' & E).
  exists result, n'. split; [done |].
  assert (c1 ∈ codePoints text) as Hin1 by by apply occurrences_pos.
  assert (c2 ∈ codePoints text) as Hin2 by (apply occurrences_pos; lia).
  assert (text ≠ []) as Htext by (intros ->; by apply elem_of_nil in Hin1).
  destruct (compress_fields text n n' result Htext E)
    as (Hfreq & Hbuild & Hcm & _).
  destruct (calculateFrequencies_table text) as (Hnd & Hproto & _).
  destruct (generateCodes_monotone (calculateFrequencies text) n c1 c2
              (occurrences c1 text) (occurrences c2 text))
    as (tree' & n'' & E' & Hle); [done | done | | | lia |].
  - by rewrite calculateFrequencies_get, bool_decide_eq_true_2.
  - by rewrite calculateFrequencies_get, bool_decide_eq_true_2.
  - rewrite Hbuild in E'. injection E' as <- <-. by rewrite Hcm.
Qed.

(** With [2^m] different symbols or fewer the text takes at most [m] bits
    a symbol. *)
Lemma compress_fixed_length `{Host} (text : jsstring) (n : Z) (m : nat) :
  (1 ≤ m)%nat →
  Z.of_nat (length (Object_keys (calculateFrequencies text))) ≤ 2 ^ Z.of_nat m →
  ∃ result n',
    compress text n = Ok (result, n') ∧
    (length (encodeText (codeMap result) text)
     ≤ m * length (codePoints text))%nat.
Proof.
  intros Hm Hk. destruct (compress_returns text n) as (result & n' & E).
  exists result, n'. split; [done |].
  destruct (decide (text = [])) as [-> | Htext].
  { injection E as <- _. cbn. lia. }
  destruct (compress_fields text n n' result Htext E)
    as (Hfreq & Hbuild & Hcm & _).
  destruct (calculateFrequencies_table text) as (Hnd & Hproto & Hpos).
  destruct (generateCodes_fixed_length (calculateFrequencies text) n m)
    as (tree' & n'' & E' & Hle); [done.. |].
  rewrite Hbuild in E'. injection E' as <- <-.
  rewrite <- Hcm, <- encodeText_bits, calculateFrequencies_total in Hle. lia.
Qed.

(** The size of the payload. *)
Lemma compress_payload `{Host} (text : jsstring) (n n' : Z)
    (result : CompressionResult) :
  compress text n = Ok (result, n') →
  let bits := Z.of_nat (length (encodeText (codeMap result) text)) in
  compressedSize result = Z.of_nat (length (compressedData result)) ∧
  8 * compressedSize result = bits + paddingBits result ∧
  Forall (λ b, 0 ≤ b < 256) (compressedData result) ∧
  Z.of_nat (length (codePoints text)) ≤ bits.
Proof.
  intros E bits. destruct (decide (text = [])) as [-> | Htext].
  { injection E as <- _. subst bits. cbn. split; [done |]. split; [done |].
    split; [constructor | lia]. }
  destruct (compress_fields text n n' result Htext E)
    as (Hfreq & Hbuild & Hcm & Hpad & Hdata & Hsize & _).
  destruct (compress_bits text n n' result Htext E)
    as (root & Htree & Hshape & Hbits & Hne & Hrange & _).
  split; [done |]. split; [|split].
  - rewrite Hsize, Hdata, packBytes_length, padEnd0_length.
    pose proof (padded_length (length (encodeText (codeMap result) text))) as Hmod.
    rewrite <- Hpad in Hmod.
    pose proof (Nat.div_mod_eq
                  (length (encodeText (codeMap result) text)
                   + Z.to_nat (paddingBits result)) 8) as Hdm.
    subst bits. lia.
  - rewrite Hdata. apply packBytes_range.
  - subst bits. rewrite encodeText_concat.
    destruct (calculateFrequencies_keys text) as [Hnd Hkeys].
    destruct (buildHuffmanTree_nonempty (calculateFrequencies text) n)
      as (root' & n1 & Hbuild' & _ & Hleaves).
    { intros Ek. apply Htext, codePoints_nil.
      destruct (codePoints text) as [|cp cps]; [done |]. exfalso.
      specialize (Hkeys cp). rewrite Ek, elem_of_nil in Hkeys. apply Hkeys. left. }
    rewrite Hbuild, Htree in Hbuild'. injection Hbuild' as <- _.
    destruct (built_tree_codes root (codePoints text)) as [Hcode _].
    { done. }
    { by rewrite Hleaves. }
    { apply Forall_forall. intros cp Hcp. split.
      - rewrite Hleaves. by apply Hkeys.
      - apply codePoint_not_proto.
        by apply (proj1 (Forall_forall _ _) (codePoints_length text)). }
    rewrite <- Htree, <- Hcm in Hcode. clear -Hcode.
    induction Hcode as [|cp cps [_ Hcp] _ IH]; [done |].
    cbn [fmap list_fmap concat length]. rewrite length_app.
    destruct (default _ _); [done |]. cbn [length] in *. lia.
Qed.

(** ** The size of the text in UTF-8 *)

Lemma encode_length (text : jsstring) :
  (length (codePoints text) ≤ length (ReferenceHost.encode text))%nat.
Proof.
  unfold ReferenceHost.encode. induction (codePoints text) as [|cp cps IH]; [done |].
  cbn [flat_map length]. rewrite length_app.
  assert (1 ≤ length (ReferenceHost.utf8Bytes (ReferenceHost.scalarValue cp)))%nat;
    [|lia].
  unfold ReferenceHost.utf8Bytes. repeat destruct (_ <? _); cbn; lia.
Qed.

(** The ratio of a size that did not grow is not negative. *)
Lemma ratio_nonneg (originalSize compressedSize : Z) :
  0 < originalSize → compressedSize ≤ originalSize →
  (0 <= inject_Z (originalSize - compressedSize) / inject_Z originalSize
        * inject_Z 100)%Q.
Proof.
  intros Hpos Hle. apply Qmult_le_0_compat; [|done].
  apply Qle_shift_div_l; [unfold Qlt; cbn; lia |].
  rewrite Qmult_0_l. unfold Qle. cbn. lia.
Qed.

(** ** The three cases of the builder *)

Lemma buildHuffmanTree_cases (frequencies : FrequencyMap) (n : Z) :
  match Object_keys frequencies with
  | [] => buildHuffmanTree frequencies n = Ok (None, 0)
  | [k] =>
    buildHuffmanTree frequencies n =
    Ok (Some {| char := None;
                freq := default 0 (obj_get k frequencies);
                left := Some (leafNode frequencies k 0);
                right := None;
                id := (generateNodeId 1).1 |}, 2)
  | _ =>
    ∃ root n',
      buildHuffmanTree frequencies n = Ok (Some root, n') ∧
      char root = None ∧ strict root ∧
      leafChars root ≡ₚ Object_keys frequencies
  end.
Proof.
  destruct (Object_keys frequencies) as [|k1 [|k2 ks]] eqn:Hkeys.
  - unfold buildHuffmanTree. by rewrite Hkeys.
  - destruct (buildHuffmanTree_invariant (λ _ _, True) frequencies n)
      as (root & n' & E & Hroot); [done | done | by rewrite Hkeys | done |].
    destruct Hroot as [(k & Hk & -> & ->) | [Hlen _]].
    + rewrite Hkeys in Hk. by injection Hk as <-.
    + rewrite Hkeys in Hlen. cbn in Hlen. lia.
  - destruct (buildHuffmanTree_structure frequencies n)
      as (root & n' & E & Hshape & Hleaves & Hstrict & _); [by rewrite Hkeys |].
    rewrite Hkeys in Hstrict. specialize (Hstrict ltac:(cbn; lia)).
    exists root, n'. split; [done |].
    assert (leafChars root ≡ₚ k1 :: k2 :: ks) as Hchars.
    { rewrite <- leafFreqs_chars, Hleaves, <- list_fmap_compose, <- Hkeys.
      assert (∀ l : list jsstring,
                fst ∘ (λ k, (k, default 0 (obj_get k frequencies))) <$> l = l)
        as Hid by (induction l; cbn; by f_equal).
      by rewrite Hid. }
    split; [|done].
    destruct (char root) as [c|] eqn:Hc; [|done]. exfalso.
    apply Permutation_length in Hchars. rewrite leafChars_unfold, Hc in Hchars.
    cbn in Hchars. lia.
Qed.

(** ** Literals *)

Lemma isBitString_literal (s : jsstring) :
  forallb (λ u, (u =? 48) || (u =? 49)) s = true → isBitString s.
Proof.
  intros H. apply Forall_forall. intros u Hu.
  rewrite forallb_forall in H. apply list_elem_of_In in Hu.
  specialize (H u Hu). apply orb_true_iff in H as [H%Z.eqb_eq | H%Z.eqb_eq]; auto.
Qed.

Lemma bytes_literal (bytes : list Z) :
  forallb (λ b, (0 <=? b) && (b <? 256)) bytes = true →
  Forall (λ b, 0 ≤ b < 256) bytes.
Proof.
  intros H. apply Forall_forall. intros b Hb.
  rewrite forallb_forall in H. apply list_elem_of_In in Hb.
  specialize (H b Hb). apply andb_true_iff in H as [H1%Z.leb_le H2%Z.ltb_lt]. lia.
Qed.


(* ================================================================== *)
(** * Part V: the further properties                                   *)
(* ================================================================== *)

(** ** The queue *)

(** X1.  Whatever [insert] and [extractMin] calls came before, emptying
    the queue with [extractMin] returns the nodes it holds, each once, in
    order of frequency, the least first. *)
Theorem extractMin_drains_in_order (ops : list HeapOp) :
  let heap := runOps ops in
  drain (length heap) heap ≡ₚ heap ∧
  StronglySorted (λ a b, freq a ≤ freq b) (drain (length heap) heap).
Proof. intros heap. apply drain_sorted, MinHeapOrder.runOps_ordered. Qed.

(** ** The frequency table *)

(** X2.  [calculateFrequencies] gives every symbol of the text the number
    of its occurrences, and no other key. *)
Theorem calculateFrequencies_counts (text char : jsstring) :
  obj_get char (calculateFrequencies text) =
  if bool_decide (char ∈ codePoints text) then Some (occurrences char text)
  else None.
Proof. apply calculateFrequencies_get. Qed.

(** X3.  The keys of the frequency table are the symbols of the text, each
    once; the frequencies are positive and add up to the number of
    symbols of the text. *)
Theorem calculateFrequencies_total_count (text : jsstring) :
  NoDup (Object_keys (calculateFrequencies text)) ∧
  (∀ k, k ∈ Object_keys (calculateFrequencies text) ↔ k ∈ codePoints text) ∧
  Forall (λ kv, 0 < kv.2) (calculateFrequencies text) ∧
  totalFrequency (calculateFrequencies text) = Z.of_nat (length (codePoints text)).
Proof.
  destruct (calculateFrequencies_keys text) as [Hnd Hkeys].
  split; [done |]. split; [done |].
  split; [apply calculateFrequencies_positive | apply calculateFrequencies_total].
Qed.

(** ** The tree *)

(** X4.  [buildHuffmanTree] never throws; it returns [null] exactly for a
    table without keys, and otherwise a tree with one leaf for every key,
    which carries the key and the frequency read at that key. *)
Theorem buildHuffmanTree_leaves (frequencies : FrequencyMap) (nodeIdCounter : Z) :
  match buildHuffmanTree frequencies nodeIdCounter with
  | Ok (Some root, _) =>
    Object_keys frequencies ≠ [] ∧
    leafFreqs root ≡ₚ
      (λ k, (k, default 0 (obj_get k frequencies))) <$> Object_keys frequencies
  | Ok (None, _) => Object_keys frequencies = []
  | Throw _ => False
  end.
Proof.
  destruct (decide (Object_keys frequencies = [])) as [E | Hne].
  - unfold buildHuffmanTree. by rewrite E.
  - destruct (buildHuffmanTree_structure frequencies nodeIdCounter Hne)
      as (root & n' & -> & _ & Hleaves & _).
    done.
Qed.


(** X6.  The identifiers of the nodes of the tree are [node_0], [node_1],
    ... up to the number of nodes, each used once; the counter is left at
    the number of nodes, which is two for a table of one key and
    [2 k - 1] for a table of [k] keys. *)
Theorem buildHuffmanTree_node_ids (frequencies : FrequencyMap) (nodeIdCounter : Z) :
  match buildHuffmanTree frequencies nodeIdCounter with
  | Ok (Some root, nodeIdCounter') =>
    NoDup (nodeIds root) ∧
    nodeIds root ≡ₚ
      (λ i : nat, js "node_" ++ Number_toString (Z.of_nat i))
        <$> seq 0 (length (nodeIds root)) ∧
    nodeIdCounter' = Z.of_nat (length (nodeIds root)) ∧
    nodeIdCounter' =
      (if bool_decide (length (Object_keys frequencies) = 1%nat) then 2
       else 2 * Z.of_nat (length (Object_keys frequencies)) - 1)
  | _ => True
  end.
Proof.
  destruct (decide (Object_keys frequencies = [])) as [E | Hne].
  - unfold buildHuffmanTree. by rewrite E.
  - destruct (buildHuffmanTree_structure frequencies nodeIdCounter Hne)
      as (root & n' & -> & _ & _ & _ & _ & (k & -> & Hids) & Hcount).
    assert (length (nodeIds root) = k) as Hlen
      by by rewrite Hids, length_fmap, length_seq.
    rewrite Hlen. split; [|done].
    rewrite Hids. apply nodeIds_NoDup.
Qed.

(** X7.  The depth [getTreeDepth] measures on the tree that is returned:
    none for no tree, two for a table of one key, and for a table of [k]
    keys, two or more, at most [k] and enough for [k] leaves. *)
Theorem getTreeDepth_of_built_tree (frequencies : FrequencyMap)
    (nodeIdCounter : Z) :
  match buildHuffmanTree frequencies nodeIdCounter with
  | Ok (tree, _) =>
    let k := length (Object_keys frequencies) in
    let depth := getTreeDepth tree in
    (k = 0%nat → depth = 0%nat) ∧
    (k = 1%nat → depth = 2%nat) ∧
    ((2 ≤ k)%nat → (depth ≤ k)%nat ∧ Z.of_nat k ≤ 2 ^ (Z.of_nat depth - 1))
  | Throw _ => False
  end.
Proof.
  pose proof (buildHuffmanTree_cases frequencies nodeIdCounter) as H.
  destruct (Object_keys frequencies) as [|k1 [|k2 ks]] eqn:Hkeys.
  - rewrite H. cbn. split; [done |]. split; [done | lia].
  - rewrite H. cbn. split; [done |]. split; [done | lia].
  - destruct H as (root & n' & -> & Hchar & Hstrict & Hleaves).
    split; [done |]. split; [done |]. intros _.
    destruct (strict_depth_bounds root Hstrict) as [H1 H2].
    rewrite Hleaves in H1, H2. done.
Qed.

(** ** The code table *)

(** X8.  The table [generateCodes] fills from the built tree has the keys
    of the frequency table, except that the key ["__proto__"] gets no
    code; every code is a string of ['0'] and ['1'] that is not empty. *)
Theorem generateCodes_keys_and_bits (frequencies : FrequencyMap)
    (nodeIdCounter : Z) :
  match buildHuffmanTree frequencies nodeIdCounter with
  | Ok (tree, _) =>
    (∀ c, c ∈ Object_keys (generateCodes tree) ↔
          c ∈ Object_keys frequencies ∧ c ≠ js "__proto__") ∧
    (∀ c w, obj_get c (generateCodes tree) = Some w → isBitString w ∧ w ≠ [])
  | Throw _ => False
  end.
Proof.
  pose proof (buildHuffmanTree_spec frequencies nodeIdCounter) as H.
  destruct (Object_keys frequencies) as [|k ks] eqn:Hkeys.
  - rewrite H. split; [|done]. intros c. cbn. rewrite elem_of_nil. tauto.
  - destruct H as (root & n' & -> & _ & Hleaves). split.
    + intros c. by rewrite generateCodes_keys, Hleaves.
    + apply generateCodes_bits.
Qed.

(** X9.  For an object without the key ["__proto__"] the longest code of
    the table is one bit shorter than the depth [getTreeDepth] measures:
    no code has more bits and some code has that many. *)
Theorem longest_code_and_depth (frequencies : FrequencyMap) (nodeIdCounter : Z) :
  NoDup (Object_keys frequencies) →
  js "__proto__" ∉ Object_keys frequencies →
  Object_keys frequencies ≠ [] →
  ∃ tree nodeIdCounter',
    buildHuffmanTree frequencies nodeIdCounter = Ok (tree, nodeIdCounter') ∧
    (∀ c w, obj_get c (generateCodes tree) = Some w →
            (length w < getTreeDepth tree)%nat) ∧
    ∃ c w, obj_get c (generateCodes tree) = Some w ∧
           S (length w) = getTreeDepth tree.
Proof.
  intros Hnd Hproto Hne.
  destruct (buildHuffmanTree_structure frequencies nodeIdCounter Hne)
    as (root & n' & E & Hshape & Hleaves & _).
  exists (Some root), n'. split; [done |].
  assert (char root = None) as Hchar by (by destruct Hshape as [[? _] | [? _]]).
  assert (leafChars root ≡ₚ Object_keys frequencies) as Hchars.
  { rewrite <- leafFreqs_chars, Hleaves, <- list_fmap_compose.
    assert (∀ l : list jsstring,
              fst ∘ (λ k, (k, default 0 (obj_get k frequencies))) <$> l = l)
      as Hid by (induction l; cbn; by f_equal).
    by rewrite Hid. }
  split.
  - intros c w Hget. unfold generateCodes in Hget.
    rewrite traverse_assignCodes in Hget.
    apply assignCodes_get in Hget as [(w0 & Hin & ->) | Hget];
      [| done | apply NoDup_nil_2].
    rewrite storedCode_id by by apply (leafCodes_internal_nonempty root c).
    pose proof (leafCodes_depth root []) as Hdepth.
    rewrite Forall_forall in Hdepth. specialize (Hdepth _ Hin). cbn in Hdepth.
    cbn [getTreeDepth]. lia.
  - pose proof (buildHuffmanTree_cases frequencies nodeIdCounter) as Hcases.
    assert (∃ c w, (c, w) ∈ leafCodes root [] ∧
                   S (length w) = getTreeDepth_node root) as (c & w & Hin & Hlen).
    { destruct (Object_keys frequencies) as [|k1 [|k2 ks]]; [done | |].
      - rewrite E in Hcases. injection Hcases as ->.
        exists k1, (js "0"). split; [left | done].
      - destruct Hcases as (root' & n'' & E' & _ & Hstrict & _).
        rewrite E in E'. injection E' as <- _.
        by apply (leafCodes_deepest root []). }
    exists c, w. split; [|done].
    rewrite <- leafEntries_codes in Hin.
    apply list_elem_of_fmap in Hin as ([[c' f] w'] & [= -> ->] & Hin).
    rewrite (generateCodes_lookup root c' f w'); [| by rewrite Hchars | | done].
    + rewrite storedCode_id; [done |].
      apply (leafCodes_internal_nonempty root c'); [done |].
      rewrite <- leafEntries_codes. apply list_elem_of_fmap. by exists (c', f, w').
    + intros ->. apply Hproto. rewrite <- Hchars, <- (leafCodes_chars root []).
      rewrite <- leafEntries_codes, <- list_fmap_compose.
      apply list_elem_of_fmap. by exists (js "__proto__", f, w').
Qed.

Lemma longest_code_and_depth_witness :
  ∃ tree nodeIdCounter',
    buildHuffmanTree [(js "a", 5); (js "b", 2); (js "c", 1); (js "d", 1)] 0 =
      Ok (tree, nodeIdCounter') ∧
    (∀ c w, obj_get c (generateCodes tree) = Some w →
            (length w < getTreeDepth tree)%nat) ∧
    ∃ c w, obj_get c (generateCodes tree) = Some w ∧
           S (length w) = getTreeDepth tree.
Proof.
  apply (longest_code_and_depth
           [(js "a", 5); (js "b", 2); (js "c", 1); (js "d", 1)] 0).
  - compute_done.
  - compute_done.
  - done.
Defined.

(** ** The code table is optimal *)



(** X11.  No prefix-free table of bit codes that has a code for every
    symbol of the text encodes the text in fewer bits than the code table
    [compress] returns. *)
Theorem compress_least_bits `{Host} (text : jsstring) (nodeIdCounter : Z)
    (codes' : CodeMap) :
  (∀ c, c ∈ codePoints text →
        ∃ w, obj_get c codes' = Some w ∧ w ≠ [] ∧ isBitString w) →
  prefixFree codes' →
  ∃ result nodeIdCounter',
    compress text nodeIdCounter = Ok (result, nodeIdCounter') ∧
    (length (encodeText (codeMap result) text)
     ≤ length (encodeText codes' text))%nat.
Proof.
  intros Hcodes Hpf. destruct (compress_returns text nodeIdCounter) as (result & nodeIdCounter' & E).
  exists result, nodeIdCounter'. split; [done |].
  destruct (decide (text = [])) as [-> | Htext].
  { injection E as <- _. cbn. lia. }
  destruct (compress_fields text nodeIdCounter nodeIdCounter' result Htext E)
    as (Hfreq & Hbuild & Hcm & _).
  destruct (calculateFrequencies_table text) as (Hnd & Hproto & Hpos).
  destruct (calculateFrequencies_keys text) as [_ Hkeys].
  destruct (generateCodes_optimal (calculateFrequencies text) nodeIdCounter codes')
    as (tree' & n'' & E' & Hle); [done | done | done | | done |].
  { intros k Hk. apply Hcodes. by apply Hkeys. }
  rewrite Hbuild in E'. injection E' as <- <-.
  rewrite <- Hcm, <- !encodeText_bits in Hle. lia.
Qed.

Lemma compress_least_bits_witness :
  ∃ result nodeIdCounter',
    compress (H := ReferenceHost.host) (js "abracadabra") 0 =
      Ok (result, nodeIdCounter') ∧
    (length (encodeText (codeMap result) (js "abracadabra"))
     ≤ length (encodeText
                 (fixedCodes 3 [js "a"; js "b"; js "r"; js "c"; js "d"] 0)
                 (js "abracadabra")))%nat.
Proof.
  apply (@compress_least_bits ReferenceHost.host (js "abracadabra") 0
           (fixedCodes 3 [js "a"; js "b"; js "r"; js "c"; js "d"] 0)).
  - intros c Hc. vm_compute in Hc.
    repeat (apply elem_of_cons in Hc as [-> | Hc];
            [eexists; split; [vm_compute; reflexivity |];
             split; [done | by apply isBitString_literal] |]).
    by apply elem_of_nil in Hc.
  - apply fixedCodes_prefixFree; [compute_done | cbn; lia].
Defined.

(** X12.  In the code table [compress] returns, a symbol that occurs more
    often in the text than another symbol of the text never has the
    longer code. *)
Theorem frequent_symbol_shorter_code `{Host} (text : jsstring)
    (nodeIdCounter : Z) (c1 c2 : jsstring) :
  0 < occurrences c1 text < occurrences c2 text →
  ∃ result nodeIdCounter',
    compress text nodeIdCounter = Ok (result, nodeIdCounter') ∧
    codeLength (codeMap result) c2 ≤ codeLength (codeMap result) c1.
Proof. apply compress_monotone. Qed.

Lemma frequent_symbol_shorter_code_witness :
  ∃ result nodeIdCounter',
    compress (H := ReferenceHost.host) (js "abracadabra") 0 =
      Ok (result, nodeIdCounter') ∧
    codeLength (codeMap result) (js "a") ≤ codeLength (codeMap result) (js "r").
Proof.
  apply (@frequent_symbol_shorter_code ReferenceHost.host (js "abracadabra") 0
           (js "r") (js "a")).
  vm_compute. split; reflexivity.
Defined.

(** X13.  A text with [2^m] different symbols or fewer is encoded in at
    most [m] bits a symbol: the code table is never worse than a code of
    fixed length. *)
Theorem compress_beats_fixed_length `{Host} (text : jsstring)
    (nodeIdCounter : Z) (m : nat) :
  (1 ≤ m)%nat →
  Z.of_nat (length (Object_keys (calculateFrequencies text))) ≤ 2 ^ Z.of_nat m →
  ∃ result nodeIdCounter',
    compress text nodeIdCounter = Ok (result, nodeIdCounter') ∧
    (length (encodeText (codeMap result) text)
     ≤ m * length (codePoints text))%nat.
Proof. apply compress_fixed_length. Qed.

Lemma compress_beats_fixed_length_witness :
  ∃ result nodeIdCounter',
    compress (H := ReferenceHost.host) (js "abracadabra") 0 =
      Ok (result, nodeIdCounter') ∧
    (length (encodeText (codeMap result) (js "abracadabra"))
     ≤ 3 * length (codePoints (js "abracadabra")))%nat.
Proof.
  apply (@compress_beats_fixed_length ReferenceHost.host (js "abracadabra") 0 3).
  - lia.
  - vm_compute. discriminate.
Defined.

(** X14.  On the reference host a text with 256 different symbols or fewer
    is never made larger: the payload has no more bytes than the text has
    in UTF-8, and the ratio the metrics view tests for a size increase is
    not negative. *)
Theorem compress_not_larger (text : jsstring) (nodeIdCounter : Z) :
  (length (Object_keys (calculateFrequencies text)) ≤ 256)%nat →
  ∃ result nodeIdCounter',
    compress (H := ReferenceHost.host) text nodeIdCounter =
      Ok (result, nodeIdCounter') ∧
    compressedSize result ≤ originalSize result ∧
    (0 <= compressionRatio result)%Q.
Proof.
  intros Hk.
  destruct (compress_fixed_length (H := ReferenceHost.host) text nodeIdCounter 8)
    as (result & nodeIdCounter' & E & Hbits); [lia | cbn; lia |].
  exists result, nodeIdCounter'. split; [done |].
  destruct (decide (text = [])) as [-> | Htext].
  { injection E as <- _. cbn. split; [lia | done]. }
  destruct (compress_fields text nodeIdCounter nodeIdCounter' result Htext E)
    as (_ & _ & _ & _ & _ & _ & Horig & Hratio).
  destruct (compress_payload text nodeIdCounter nodeIdCounter' result E) as (_ & Hsize & _ & _).
  pose proof (encode_length text) as Henc. cbn [TextEncoder_encode ReferenceHost.host] in Horig.
  assert (0 ≤ paddingBits result ≤ 7) as Hpad.
  { destruct (compress_bits text nodeIdCounter nodeIdCounter' result Htext E) as (_ & _ & _ & _ & _ & Hp & _).
    exact Hp. }
  assert (compressedSize result ≤ originalSize result) as Hle by lia.
  split; [done |]. rewrite Hratio.
  destruct (Z.ltb_spec 0 (originalSize result)); [|done].
  by apply ratio_nonneg.
Qed.

Lemma compress_not_larger_witness :
  ∃ result nodeIdCounter',
    compress (H := ReferenceHost.host) (js "aab") 0 = Ok (result, nodeIdCounter') ∧
    compressedSize result ≤ originalSize result ∧
    (0 <= compressionRatio result)%Q.
Proof.
  apply (compress_not_larger (js "aab") 0).
  assert (length (Object_keys (calculateFrequencies (js "aab"))) = 2%nat) as ->
    by (vm_compute; reflexivity).
  lia.
Defined.

(** ** The payload *)

(** X15.  The payload [compress] returns has [compressedSize] bytes, each
    from 0 to 255, which hold exactly the encoded bits and the padding;
    the encoded bits are at least one for every symbol of the text. *)
Theorem compress_payload_size `{Host} (text : jsstring) (nodeIdCounter : Z) :
  ∃ result nodeIdCounter',
    compress text nodeIdCounter = Ok (result, nodeIdCounter') ∧
    let bits := Z.of_nat (length (encodeText (codeMap result) text)) in
    compressedSize result = Z.of_nat (length (compressedData result)) ∧
    8 * compressedSize result = bits + paddingBits result ∧
    Forall (λ b, 0 ≤ b < 256) (compressedData result) ∧
    Z.of_nat (length (codePoints text)) ≤ bits.
Proof.
  destruct (compress_returns text nodeIdCounter) as (result & n' & E).
  exists result, n'. split; [done |]. by apply (compress_payload text nodeIdCounter n').
Qed.

(** ** Decompression *)

(** X16.  With the tree of a table of one key, [decompress] returns the
    key once for every bit of the payload that is left after the padding
    is removed, whatever the bits are. *)
Theorem decompress_single_symbol (k : jsstring) (v : Z) (nodeIdCounter : Z)
    (payload : list Z) (padding : Z) :
  Forall (λ b, 0 ≤ b < 256) payload →
  ∃ tree nodeIdCounter',
    buildHuffmanTree [(k, v)] nodeIdCounter = Ok (Some tree, nodeIdCounter') ∧
    decompress payload (Some tree) padding =
    Ok {| decompressedText :=
            concat (replicate
                      (if 0 <? padding
                       then Z.to_nat (Z.max (8 * Z.of_nat (length payload) - padding) 0)
                       else (8 * length payload)%nat)
                      k);
          success := true; error := None |}.
Proof.
  intros Hbytes.
  destruct (buildHuffmanTree_invariant (λ _ _, True) [(k, v)] nodeIdCounter)
    as (tree & nodeIdCounter' & E & Hroot); [done | done | done | done |].
  assert (isSingleCharacterRoot tree = Some k) as Hsingle.
  { destruct Hroot as [(k' & [= <-] & _ & ->) | [Hlen _]]; [done |].
    cbn in Hlen. lia. }
  clear Hroot. exists tree, nodeIdCounter'. split; [done |].
  unfold decompress. destruct payload as [|b payload].
  { cbn [length Nat.eqb]. do 2 f_equal.
    destruct (Z.ltb_spec 0 padding); [|done].
    by replace (Z.to_nat (Z.max (8 * Z.of_nat 0 - padding) 0)) with 0%nat by lia. }
  replace (length (b :: payload) =? 0)%nat with false by done.
  destruct (unpackBytes_bits (b :: payload) Hbytes) as [Hlen Hbits].
  set (bits := if 0 <? padding then _ else _).
  assert (isBitString bits ∧
          length bits =
          (if 0 <? padding
           then Z.to_nat (Z.max (8 * Z.of_nat (length (b :: payload)) - padding) 0)
           else (8 * length (b :: payload))%nat)) as [Hb Hl].
  { unfold bits. destruct (Z.ltb_spec 0 padding) as [Hp | Hp]; [|done].
    split.
    - unfold sliceDropLast. by apply Forall_take.
    - rewrite sliceDropLast_length by done. rewrite Hlen. f_equal. lia. }
  rewrite codePoints_units by by apply isBitString_no_surrogate.
  rewrite (decodeLoop_single _ k); [|done].
  do 2 f_equal. rewrite app_nil_l. rewrite <- Hl. clear.
  generalize bits. clear. intros bits.
  induction bits as [|u bits IH]; [done |]. cbn. by rewrite IH.
Qed.

Lemma decompress_single_symbol_witness :
  ∃ tree nodeIdCounter',
    buildHuffmanTree [(js "a", 4)] 0 = Ok (Some tree, nodeIdCounter') ∧
    decompress [165; 15] (Some tree) 3 =
    Ok {| decompressedText := concat (replicate 13 (js "a"));
          success := true; error := None |}.
Proof.
  apply (decompress_single_symbol (js "a") 4 0 [165; 15] 3).
  by apply bytes_literal.
Defined.

(** X17.  A padding count other than the one [compress] returned is not
    noticed by [decompress]: with a larger count it returns the text less
    some symbols at the end, with a smaller count the text and symbols
    decoded from the padding after it. *)
Theorem decompress_other_padding `{Host} (text : jsstring)
    (nodeIdCounter nodeIdCounter' : Z) (result : CompressionResult)
    (padding : Z) :
  compress text nodeIdCounter = Ok (result, nodeIdCounter') →
  ∃ text',
    decompress (compressedData result) (tree result) padding =
      Ok {| decompressedText := text'; success := true; error := None |} ∧
    (paddingBits result ≤ padding → text' `prefix_of` text) ∧
    (padding ≤ paddingBits result → text `prefix_of` text').
Proof.
  intros Hcompress. destruct (decide (text = [])) as [-> | Htext].
  { injection Hcompress as <- _. by exists []. }
  destruct (compress_bits text nodeIdCounter nodeIdCounter' result Htext Hcompress)
    as (root & Htree & Hshape & Hbits & Hne & Hpad & Hdata & Hunpack & Hdecode).
  set (enc := encodeText (codeMap result) text) in *.
  rewrite Htree. unfold decompress.
  replace (length (compressedData result) =? 0)%nat with false
    by (by destruct (compressedData result)).
  rewrite Hunpack.
  set (p := Z.to_nat (paddingBits result)) in *.
  set (bits := if 0 <? padding then _ else _).
  assert ((paddingBits result ≤ padding → ∃ rest, enc = bits ++ rest) ∧
          (padding ≤ paddingBits result → ∃ zeros, bits = enc ++ zeros ∧ isBitString zeros))
    as [Hlarger Hsmaller].
  { unfold bits. destruct (Z.ltb_spec 0 padding) as [Hp | Hp].
    - unfold sliceDropLast. rewrite length_app, length_replicate. split.
      + intros Hle. exists (drop (length enc - (Z.to_nat padding - p)) enc).
        rewrite take_app_le by lia.
        replace (Z.to_nat (Z.max (Z.of_nat (length enc + p) - padding) 0))
          with (length enc - (Z.to_nat padding - p))%nat by lia.
        by rewrite take_drop.
      + intros Hle. exists (replicate (p - Z.to_nat padding) 48).
        split; [|apply isBitString_replicate].
        replace (Z.to_nat (Z.max (Z.of_nat (length enc + p) - padding) 0))
          with (length enc + (p - Z.to_nat padding))%nat by lia.
        rewrite take_app_add, take_replicate. do 2 f_equal. lia.
    - split; [intros Hle | intros _].
      + exists []. assert (p = 0%nat) as -> by lia. cbn. by rewrite !app_nil_r.
      + exists (replicate p 48). split; [done | apply isBitString_replicate]. }
  assert (isBitString bits) as Hbb.
  { unfold bits. destruct (0 <? padding).
    - unfold sliceDropLast. apply Forall_take. apply isBitString_app.
      split; [done | apply isBitString_replicate].
    - apply isBitString_app. split; [done | apply isBitString_replicate]. }
  rewrite codePoints_units by by apply isBitString_no_surrogate.
  destruct (decodeLoop_extends root ((λ u, [u]) <$> bits) root [] Hshape Hshape)
    as (node' & text' & E & Hnode' & _).
  rewrite E. exists text'. split; [done |]. split.
  - intros Hle. destruct (Hlarger Hle) as [rest Hrest].
    rewrite Hrest, fmap_app, decodeLoop_app, E in Hdecode.
    destruct (decodeLoop_extends root ((λ u, [u]) <$> rest) node' text' Hshape Hnode')
      as (node'' & text'' & E' & _ & Hpre).
    rewrite E' in Hdecode. by injection Hdecode as _ <-.
  - intros Hle. destruct (Hsmaller Hle) as (zeros & Hz & _).
    rewrite Hz, fmap_app, decodeLoop_app, Hdecode in E.
    destruct (decodeLoop_extends root ((λ u, [u]) <$> zeros) root text Hshape Hshape)
      as (node'' & text'' & E' & _ & Hpre).
    rewrite E' in E. by injection E as _ <-.
Qed.

Lemma decompress_other_padding_witness :
  ∃ text',
    decompress (compressedData aab_result) (tree aab_result) 6 =
      Ok {| decompressedText := text'; success := true; error := None |} ∧
    (paddingBits aab_result ≤ 6 → text' `prefix_of` js "aab") ∧
    (6 ≤ paddingBits aab_result → js "aab" `prefix_of` text').
Proof.
  apply (@decompress_other_padding ReferenceHost.host (js "aab") 0 3 aab_result 6).
  vm_compute. reflexivity.
Defined.

(** ** The container *)

(** X18.  The container has no length field for the payload: bytes added
    after a container that parses are returned as more payload, with the
    same metadata. *)
Theorem parseCompressedFile_trailing_bytes `{Host} (data extra : list Z)
    (parsed : Parsed.t) :
  parseCompressedFile data = Some parsed →
  parseCompressedFile (data ++ extra) =
  Some {| Parsed.compressedData := Parsed.compressedData parsed ++ extra;
          Parsed.codeMap := Parsed.codeMap parsed;
          Parsed.paddingBits := Parsed.paddingBits parsed;
          Parsed.frequencyMap := Parsed.frequencyMap parsed |}.
Proof.
  unfold parseCompressedFile, parseCompressedFile_try.
  destruct (getUint32_0_le data) as [m|] eqn:Hm; [|done].
  rewrite (getUint32_app data extra m Hm).
  unfold Uint8Array_view. rewrite length_app.
  destruct (Nat.ltb_spec (length data) (4 + Z.to_nat m)) as [|Hlen]; [done |].
  destruct (Nat.ltb_spec (length data + length extra) (4 + Z.to_nat m));
    [lia |].
  rewrite drop_app_le by lia. rewrite take_app_le by (rewrite length_drop; lia).
  destruct (JSON_parse _) as [metadata|]; [|done].
  destruct (Nat.ltb_spec (length data) (4 + Z.to_nat m)); [lia |].
  destruct (Nat.ltb_spec (length data + length extra) (4 + Z.to_nat m));
    [lia |].
  rewrite (drop_app_le data) by lia.
  destruct (getProperty metadata (js "codeMap")) as [c|]; [|done].
  destruct (getProperty metadata (js "paddingBits")) as [p|]; [|done].
  destruct (getProperty metadata (js "frequencyMap")) as [f|]; [|done].
  by intros [= <-].
Qed.

Lemma parseCompressedFile_trailing_bytes_witness :
  parseCompressedFile (H := ReferenceHost.host)
    (createCompressedFile (H := ReferenceHost.host) aab_result ++ [7; 7]) =
  Some {| Parsed.compressedData := [192; 7; 7];
          Parsed.codeMap := Some (CodeMap_toJS (codeMap aab_result));
          Parsed.paddingBits := Some (JNumber 5);
          Parsed.frequencyMap :=
            Some (FrequencyMap_toJS (frequencyMap aab_result)) |}.
Proof.
  apply (@parseCompressedFile_trailing_bytes ReferenceHost.host
           (createCompressedFile (H := ReferenceHost.host) aab_result) [7; 7]
           {| Parsed.compressedData := [192];
              Parsed.codeMap := Some (CodeMap_toJS (codeMap aab_result));
              Parsed.paddingBits := Some (JNumber 5);
              Parsed.frequencyMap :=
                Some (FrequencyMap_toJS (frequencyMap aab_result)) |}).
  vm_compute. reflexivity.
Defined.

(** X19.  A header, metadata bytes and a payload are split again as they
    were joined, whatever they hold: [parseCompressedFile] returns the
    payload and the three properties it reads on the metadata, [undefined]
    when the metadata is not an object or lacks the key, and [null] only
    when the metadata is not JSON text or is the JSON value [null]. *)
Theorem parseCompressedFile_frame `{Host} (metadataBytes payload : list Z) :
  Z.of_nat (length metadataBytes) < 2 ^ 32 →
  parseCompressedFile
    (Uint32_bytes (Z.of_nat (length metadataBytes)) ++ metadataBytes ++ payload)
  = match JSON_parse (TextDecoder_decode metadataBytes) with
    | Ok metadata =>
      match getProperty metadata (js "codeMap"),
            getProperty metadata (js "paddingBits"),
            getProperty metadata (js "frequencyMap") with
      | Ok c, Ok p, Ok f =>
        Some {| Parsed.compressedData := payload;
                Parsed.codeMap := c;
                Parsed.paddingBits := p;
                Parsed.frequencyMap := f |}
      | _, _, _ => None
      end
    | Throw _ => None
    end.
Proof.
  intros Hlen. unfold parseCompressedFile, parseCompressedFile_try.
  rewrite getUint32_bytes. rewrite Z.mod_small by lia. rewrite Nat2Z.id.
  unfold Uint8Array_view.
  rewrite !length_app, Uint32_bytes_length.
  destruct (Nat.ltb_spec (4 + (length metadataBytes + length payload))
                         (4 + length metadataBytes)); [lia |].
  rewrite (drop_app_length' (Uint32_bytes (Z.of_nat (length metadataBytes)))
             (metadataBytes ++ payload) 4)
    by reflexivity.
  rewrite take_app_length.
  destruct (JSON_parse _) as [metadata|]; [|done].
  replace (drop (4 + length metadataBytes)
             (Uint32_bytes (Z.of_nat (length metadataBytes))
              ++ metadataBytes ++ payload)) with payload.
  2:{ rewrite app_assoc. rewrite drop_app_length'; [done |].
      by rewrite length_app, Uint32_bytes_length. }
  destruct (getProperty metadata (js "codeMap")) as [c|]; [|done].
  destruct (getProperty metadata (js "paddingBits")) as [p|]; [|done].
  by destruct (getProperty metadata (js "frequencyMap")) as [f|].
Qed.

Lemma parseCompressedFile_frame_witness :
  parseCompressedFile (H := ReferenceHost.host)
    (Uint32_bytes 1 ++ [53] ++ [1; 2; 3]) =
  Some {| Parsed.compressedData := [1; 2; 3];
          Parsed.codeMap := None;
          Parsed.paddingBits := None;
          Parsed.frequencyMap := None |}.
Proof.
  apply (@parseCompressedFile_frame ReferenceHost.host [53] [1; 2; 3]).
  cbn. lia.
Defined.

(** ** The display of symbols *)

(** X20.  What [getDisplayChar] returns for a symbol of a text holds no
    code unit up to 32: none of the control characters below the space,
    and no space. *)
Theorem getDisplayChar_printable (char : jsstring) :
  isCodePoint16 char → Forall (λ u, 32 < u) (getDisplayChar char).
Proof.
  intros Hchar.
  destruct (getDisplayChar_cases char Hchar)
    as [[_ ->] | [[_ ->] | [[_ ->] | [[_ ->] | [(u & _ & Hu & ->) | [-> H]]]]]];
    try done; try (constructor; [lia | done]).
  assert (0 ≤ u / 16 < 2) by (split; [apply Z.div_pos | apply Z.div_lt_upper_bound]; lia).
  pose proof (Z.mod_pos_bound u 16).
  repeat (constructor; [try lia |]); [|done].
  destruct (_ <? _); lia.
Qed.

Lemma getDisplayChar_printable_witness :
  Forall (λ u, 32 < u) (getDisplayChar [7]).
Proof. apply (getDisplayChar_printable [7]). cbn. lia. Defined.

(** X21.  Two symbols of a text are displayed alike only when they are the
    same symbol or the display is one of the four pictograms, which stands
    both for a white-space character and for itself. *)
Theorem getDisplayChar_collision (c1 c2 : jsstring) :
  isCodePoint16 c1 → isCodePoint16 c2 →
  getDisplayChar c1 = getDisplayChar c2 →
  c1 = c2 ∨ getDisplayChar c1 ∈ [[0x2423]; [0x21B5]; [0x2192]; [0x23CE]].
Proof.
  intros H1 H2 E.
  destruct (getDisplayChar_cases c1 H1)
    as [[_ E1] | [[_ E1] | [[_ E1] | [[_ E1] | [(u1 & -> & Hu1 & E1) | [E1 F1]]]]]].
  1-4: right; rewrite E1; repeat first [by left | right].
  - destruct (getDisplayChar_cases c2 H2)
      as [[_ E2] | [[_ E2] | [[_ E2] | [[_ E2] | [(u2 & -> & Hu2 & E2) | [E2 F2]]]]]].
    1-4: rewrite E1, E2 in E; discriminate E.
    + left. rewrite E1, E2 in E. injection E as Ed Em. f_equal.
      assert (u1 mod 16 = u2 mod 16) as Hm.
      { pose proof (Z.mod_pos_bound u1 16). pose proof (Z.mod_pos_bound u2 16).
        destruct (u1 mod 16 <? 10) eqn:Ha, (u2 mod 16 <? 10) eqn:Hb; lia. }
      rewrite (Z.div_mod u1 16), (Z.div_mod u2 16) by lia. lia.
    + exfalso. rewrite E1, E2 in E. rewrite <- E in F2, H2.
      cbn in H2. done.
  - destruct (getDisplayChar_cases c2 H2)
      as [[_ E2] | [[_ E2] | [[_ E2] | [[_ E2] | [(u2 & -> & Hu2 & E2) | [E2 F2]]]]]].
    1-4: right; rewrite E, E2; repeat first [by left | right].
    + exfalso. rewrite E1, E2 in E. rewrite E in H1. cbn in H1. done.
    + left. congruence.
Qed.

Lemma getDisplayChar_collision_witness :
  js " " = [0x2423] ∨
  getDisplayChar (js " ") ∈ [[0x2423]; [0x21B5]; [0x2192]; [0x23CE]].
Proof.
  apply (getDisplayChar_collision (js " ") [0x2423]).
  - cbn. lia.
  - cbn. lia.
  - reflexivity.
Defined.

(** ** The code table view *)

(** X22.  The rows of the code table view are the entries of the code
    table, from the most frequent symbol to the least; where the
    frequency falls from one row to a later one, the code does not get
    shorter. *)
Theorem CodeTable_rows `{Host} (text : jsstring)
    (nodeIdCounter nodeIdCounter' : Z) (result : CompressionResult) :
  compress text nodeIdCounter = Ok (result, nodeIdCounter') →
  let rows := CodeTable_entries (codeMap result) (frequencyMap result) in
  rows ≡ₚ codeMap result ∧
  ∀ (i j : nat) c1 w1 c2 w2,
    (i < j)%nat → rows !! i = Some (c1, w1) → rows !! j = Some (c2, w2) →
    occurrences c2 text ≤ occurrences c1 text ∧
    (occurrences c2 text < occurrences c1 text → (length w1 ≤ length w2)%nat).
Proof.
  intros E rows. split; [apply Array_sort_perm |].
  intros i j c1 w1 c2 w2 Hij Hi Hj.
  destruct (decide (text = [])) as [-> | Htext].
  { injection E as <- _. subst rows. by cbn in Hi. }
  destruct (compress_fields text nodeIdCounter nodeIdCounter' result Htext E)
    as (Hfreq & Hbuild & Hcm & _).
  assert (∀ c w, (c, w) ∈ rows →
            obj_get c (codeMap result) = Some w ∧ 0 < occurrences c text)
    as Hrow.
  { intros c w Hin. unfold rows, CodeTable_entries in Hin.
    rewrite Array_sort_perm in Hin.
    assert (NoDup (Object_keys (codeMap result))) as Hnd.
    { rewrite Hcm. destruct (tree result) as [root|]; [|constructor].
      unfold generateCodes. rewrite traverse_assignCodes.
      apply assignCodes_NoDup. constructor. }
    split; [by apply obj_get_elem_of |].
    assert (c ∈ Object_keys (codeMap result)) as Hkey
      by (apply list_elem_of_fmap; by exists (c, w)).
    rewrite Hcm in Hkey. destruct (tree result) as [root|] eqn:Htree;
      [|by apply elem_of_nil in Hkey].
    apply generateCodes_keys in Hkey as [Hleaf _].
    destruct (buildHuffmanTree_nonempty (calculateFrequencies text) nodeIdCounter)
      as (root' & n1 & Hbuild' & _ & Hleaves).
    { intros Ek. pose proof (buildHuffmanTree_spec (calculateFrequencies text) nodeIdCounter) as Hs.
      rewrite Ek in Hs. rewrite Hbuild in Hs. by injection Hs. }
    rewrite Hbuild in Hbuild'. injection Hbuild' as <- _.
    rewrite Hleaves in Hleaf.
    apply occurrences_pos. by apply (calculateFrequencies_keys text). }
  destruct (Hrow c1 w1 (list_elem_of_lookup_2 _ _ _ Hi)) as [Hg1 Ho1].
  destruct (Hrow c2 w2 (list_elem_of_lookup_2 _ _ _ Hj)) as [Hg2 Ho2].
  pose proof (Array_sort_sorted
                (λ a b : jsstring * jsstring,
                   default 0 (obj_get b.1 (frequencyMap result))
                   - default 0 (obj_get a.1 (frequencyMap result)))
                (λ a, default 0 (obj_get a.1 (frequencyMap result)))
                (codeMap result) (λ a b, eq_refl)) as Hsorted.
  pose proof (StronglySorted_lookup _ _ i j _ _ Hsorted Hij Hi Hj) as Hle.
  cbn [fst] in Hle. rewrite Hfreq, !calculateFrequencies_count in Hle.
  split; [done |]. intros Hlt.
  destruct (compress_monotone text nodeIdCounter c2 c1) as (result' & n'' & E' & Hmono); [lia |].
  rewrite E in E'. injection E' as <- <-.
  unfold codeLength in Hmono. rewrite Hg1, Hg2 in Hmono. cbn [default] in Hmono.
  unfold Datatypes.id in Hmono. lia.
Qed.

Lemma CodeTable_rows_witness :
  let rows := CodeTable_entries (codeMap aab_result) (frequencyMap aab_result) in
  rows ≡ₚ codeMap aab_result ∧
  ∀ (i j : nat) c1 w1 c2 w2,
    (i < j)%nat → rows !! i = Some (c1, w1) → rows !! j = Some (c2, w2) →
    occurrences c2 (js "aab") ≤ occurrences c1 (js "aab") ∧
    (occurrences c2 (js "aab") < occurrences c1 (js "aab") →
     (length w1 ≤ length w2)%nat).
Proof.
  apply (@CodeTable_rows ReferenceHost.host (js "aab") 0 3 aab_result).
  vm_compute. reflexivity.
Defined.
